(** * compare_html_sidebyside: a shallow embedding and its properties

    The program compares two HTML snapshots: it locates a marker, extracts
    the content after it, collects and normalises links, and renders a
    character-level diff.  The functions of [compare_html_sidebyside.py] are
    embedded below as Rocq functions, together with the parts of the Python
    libraries they call ([difflib.SequenceMatcher], [html.escape],
    [urllib.parse], the [bs4] tree operations), transcribed from the
    library sources.

    Data model.
    - A Python [str] is a [list ascii]: a sequence of code points below 256
      (the Latin-1 range).  [lit "..."] writes a literal.  Code points above
      255 are outside the model.
    - Python integers that index sequences are [nat]; where the source
      subtracts, the embedding says so.
    - A [dict] is a [gmap], a [set] a [gset].
    - [SequenceMatcher.ratio] returns the double nearest to an exact
      rational; the embedding returns that rational (type [Q]). *)

From Stdlib Require Import Ascii String QArith.
From stdpp Require Import base list gmap sets sorting strings.

Local Close Scope Q_scope.
Local Open Scope nat_scope.

(** ** Python strings *)

Abbreviation str := (list ascii).

Definition lit (s : string) : str := String.list_ascii_of_string s.

(** [text[i1:i2]] for indices [0 <= i1], [0 <= i2]. *)
Definition slice {A} (l : list A) (i1 i2 : nat) : list A :=
  take (i2 - i1) (drop i1 l).

(** [sep.join(parts)] with the empty separator. *)
Definition join_empty {A} (parts : list (list A)) : list A :=
  mjoin parts.

(** [s.replace(c, r)] for a pattern [c] of one character. *)
Definition replace_char (c : ascii) (r : str) (s : str) : str :=
  s ≫= (λ x, if decide (x = c) then r else [x]).

(** ** difflib.SequenceMatcher (isjunk = None, autojunk = True) *)

Module Difflib.
Section SequenceMatcher.
Context `{Countable A}.

(** [Match(a, b, size)] *)
Definition Match : Type := nat * nat * nat.
(** a pending window [(alo, ahi, blo, bhi)] *)
Definition Window : Type := nat * nat * nat * nat.

Record SequenceMatcher := mkSequenceMatcher {
  seq_a : list A;
  seq_b : list A;
  b2j : gmap A (list nat);
  bjunk : gset A;
  bpopular : gset A
}.

(** First loop of [__chain_b]:
    [for i, elt in enumerate(b): b2j.setdefault(elt, []).append(i)]. *)
Definition index_elements (b : list A) : gmap A (list nat) :=
  foldl (λ (d : gmap A (list nat)) '(i, elt),
           <[elt := default [] (d !! elt) ++ [i]]> d)
        ∅ (imap pair b).

(** The elements [__chain_b] classifies as popular: more than
    [n // 100 + 1] occurrences, when [n >= 200]. *)
Definition popular_elements (b : list A) (d : gmap A (list nat)) : gset A :=
  let n := length b in
  if bool_decide (200 ≤ n)
  then let ntest := n / 100 + 1 in
       dom (filter (λ kv, ntest < length kv.2) d)
  else ∅.

(** [__chain_b]: with [isjunk = None] the junk set stays empty; popular
    elements are deleted from [b2j]. *)
Definition chain_b (b : list A) : gmap A (list nat) * gset A * gset A :=
  let d := index_elements b in
  let junk : gset A := ∅ in
  let popular := popular_elements b d in
  (filter (λ kv, kv.1 ∉ popular) d, junk, popular).

(** [SequenceMatcher(None, a, b)] *)
Definition new_matcher (a b : list A) : SequenceMatcher :=
  let '(d, junk, popular) := chain_b b in
  mkSequenceMatcher a b d junk popular.

(** [j2len.get(j-1, 0)]: the key [-1] is never present. *)
Definition j2len_get (j2len : gmap nat nat) (j : nat) : nat :=
  match j with
  | 0 => 0
  | S j' => default 0 (j2len !! j')
  end.

(** The inner loop of [find_longest_match] over [b2j.get(a[i], nothing)].
    [i-k+1] is written [i+1-k]: indices are natural numbers here. *)
Fixpoint scan_row (i blo bhi : nat) (j2len : gmap nat nat) (js : list nat)
    (newj2len : gmap nat nat) (best : Match) : gmap nat nat * Match :=
  match js with
  | [] => (newj2len, best)
  | j :: js' =>
      if bool_decide (j < blo) then
        scan_row i blo bhi j2len js' newj2len best
      else if bool_decide (bhi ≤ j) then
        (newj2len, best)
      else
        let k := j2len_get j2len j + 1 in
        let newj2len := <[j := k]> newj2len in
        let best := if bool_decide (best.2 < k)
                    then (i + 1 - k, j + 1 - k, k) else best in
        scan_row i blo bhi j2len js' newj2len best
  end.

(** The candidate columns [b2j.get(a[i], nothing)]. *)
Definition row_indices (m : SequenceMatcher) (i : nat) : list nat :=
  match seq_a m !! i with
  | Some x => default [] (b2j m !! x)
  | None => []
  end.

(** The outer loop [for i in range(alo, ahi)]. *)
Definition longest_junk_free (m : SequenceMatcher) (alo ahi blo bhi : nat)
    : Match :=
  (foldl (λ '(j2len, best) i,
            scan_row i blo bhi j2len (row_indices m i) ∅ best)
         (∅, (alo, blo, 0)) (seq alo (ahi - alo))).2.

(** The test shared by the four extension loops:
    [isbjunk(b[y]) == junk and a[x] == b[y]]. *)
Definition extends (m : SequenceMatcher) (junk : bool) (x y : nat) : bool :=
  match seq_a m !! x, seq_b m !! y with
  | Some ex, Some ey =>
      bool_decide (bool_decide (ey ∈ bjunk m) = junk) && bool_decide (ex = ey)
  | _, _ => false
  end.

(** [while besti > alo and bestj > blo and ... a[besti-1] == b[bestj-1]] *)
Fixpoint extend_left (m : SequenceMatcher) (junk : bool) (alo blo : nat)
    (besti bestj bestsize : nat) {struct besti} : Match :=
  match besti, bestj with
  | S i', S j' =>
      if bool_decide (alo < besti) && bool_decide (blo < bestj)
         && extends m junk i' j'
      then extend_left m junk alo blo i' j' (bestsize + 1)
      else (besti, bestj, bestsize)
  | _, _ => (besti, bestj, bestsize)
  end.

(** [while besti+bestsize < ahi and bestj+bestsize < bhi and ...]; the
    loop runs at most [ahi - (besti+bestsize)] times, which is [fuel]. *)
Fixpoint extend_right (m : SequenceMatcher) (junk : bool) (ahi bhi : nat)
    (besti bestj : nat) (fuel bestsize : nat) : nat :=
  match fuel with
  | 0 => bestsize
  | S fuel' =>
      if bool_decide (besti + bestsize < ahi)
         && bool_decide (bestj + bestsize < bhi)
         && extends m junk (besti + bestsize) (bestj + bestsize)
      then extend_right m junk ahi bhi besti bestj fuel' (bestsize + 1)
      else bestsize
  end.

Definition find_longest_match (m : SequenceMatcher) (alo ahi blo bhi : nat)
    : Match :=
  let '(besti, bestj, bestsize) := longest_junk_free m alo ahi blo bhi in
  let '(besti, bestj, bestsize) :=
    extend_left m false alo blo besti bestj bestsize in
  let bestsize :=
    extend_right m false ahi bhi besti bestj
                 (ahi - (besti + bestsize)) bestsize in
  let '(besti, bestj, bestsize) :=
    extend_left m true alo blo besti bestj bestsize in
  let bestsize :=
    extend_right m true ahi bhi besti bestj
                 (ahi - (besti + bestsize)) bestsize in
  (besti, bestj, bestsize).

(** One turn of [while queue:] in [get_matching_blocks].  The head of the
    list is the end of the Python list: [pop] and [append] work there. *)
Definition queue_step (m : SequenceMatcher) (w : Window)
    (queue : list Window) (blocks : list Match)
    : list Window * list Match :=
  let '(alo, ahi, blo, bhi) := w in
  let '(i, j, k) := find_longest_match m alo ahi blo bhi in
  if bool_decide (k ≠ 0) then
    let queue := if bool_decide (alo < i ∧ blo < j)
                 then (alo, i, blo, j) :: queue else queue in
    let queue := if bool_decide (i + k < ahi ∧ j + k < bhi)
                 then (i + k, ahi, j + k, bhi) :: queue else queue in
    (queue, blocks ++ [(i, j, k)])
  else (queue, blocks).

Fixpoint queue_loop (m : SequenceMatcher) (fuel : nat)
    (queue : list Window) (blocks : list Match)
    : list Window * list Match :=
  match fuel, queue with
  | S fuel', w :: queue' =>
      let '(queue'', blocks') := queue_step m w queue' blocks in
      queue_loop m fuel' queue'' blocks'
  | _, _ => (queue, blocks)
  end.

(** Tuples compare lexicographically in [matching_blocks.sort()]. *)
Definition Match_le (x y : Match) : Prop :=
  x.1.1 < y.1.1 ∨
  (x.1.1 = y.1.1 ∧ (x.1.2 < y.1.2 ∨ (x.1.2 = y.1.2 ∧ x.2 ≤ y.2))).

Global Instance Match_le_dec : RelDecision Match_le.
Proof. intros x y. unfold Match_le. apply _. Defined.

(** The loop that collapses adjacent blocks. *)
Definition collapse_step (st : Match * list Match) (x : Match)
    : Match * list Match :=
  let '((i1, j1, k1), non_adjacent) := st in
  let '(i2, j2, k2) := x in
  if bool_decide (i1 + k1 = i2 ∧ j1 + k1 = j2) then
    ((i1, j1, k1 + k2), non_adjacent)
  else
    ((i2, j2, k2),
     if bool_decide (k1 ≠ 0) then non_adjacent ++ [(i1, j1, k1)]
     else non_adjacent).

Definition collapse_finish (la lb : nat) (st : Match * list Match)
    : list Match :=
  let '((i1, j1, k1), non_adjacent) := st in
  (if bool_decide (k1 ≠ 0) then non_adjacent ++ [(i1, j1, k1)]
   else non_adjacent) ++ [(la, lb, 0)].

(** Every window popped leaves the queue with less work: [2 * la + 1]
    turns empty it (lemma [queue_loop_drains]). *)
Definition get_matching_blocks (m : SequenceMatcher) : list Match :=
  let la := length (seq_a m) in
  let lb := length (seq_b m) in
  let matching_blocks :=
    (queue_loop m (2 * la + 1) [(0, la, 0, lb)] []).2 in
  let matching_blocks := merge_sort Match_le matching_blocks in
  collapse_finish la lb (foldl collapse_step ((0, 0, 0), []) matching_blocks).

Inductive Tag := Replace | Delete | Insert | Equal.

Definition Opcode : Type := Tag * nat * nat * nat * nat.

Definition opcode_step (st : nat * nat * list Opcode) (x : Match)
    : nat * nat * list Opcode :=
  let '(i, j, answer) := st in
  let '(ai, bj, size) := x in
  let tag :=
    if bool_decide (i < ai ∧ j < bj) then Some Replace
    else if bool_decide (i < ai) then Some Delete
    else if bool_decide (j < bj) then Some Insert
    else None in
  let answer := match tag with
                | Some t => answer ++ [(t, i, ai, j, bj)]
                | None => answer
                end in
  let '(i, j) := (ai + size, bj + size) in
  let answer := if bool_decide (size ≠ 0)
                then answer ++ [(Equal, ai, i, bj, j)] else answer in
  (i, j, answer).

Definition get_opcodes (m : SequenceMatcher) : list Opcode :=
  (foldl opcode_step (0, 0, []) (get_matching_blocks m)).2.

(** [_calculate_ratio]: [2.0 * matches / length], or [1.0] when [length]
    is zero; the exact quotient. *)
Definition calculate_ratio (matches length : nat) : Q :=
  if bool_decide (length ≠ 0)
  then Qmake (Z.of_nat (2 * matches)) (Pos.of_nat length)
  else 1%Q.

Definition ratio (m : SequenceMatcher) : Q :=
  let matches := sum_list ((λ triple : Match, triple.2) <$> get_matching_blocks m) in
  calculate_ratio matches (length (seq_a m) + length (seq_b m)).

End SequenceMatcher.
End Difflib.


(** ** html.escape *)

Module Html.

(** The double quote character. *)
Definition dquote : ascii := "034"%char.

(** [html.escape(s)] with [quote=True]: five replacements, in the
    library's order ([&] first). *)
Definition escape (s : str) : str :=
  let s := replace_char "&" (lit "&amp;") s in
  let s := replace_char "<" (lit "&lt;") s in
  let s := replace_char ">" (lit "&gt;") s in
  let s := replace_char dquote (lit "&quot;") s in
  let s := replace_char "'" (lit "&#x27;") s in
  s.

End Html.

(** ** The program: character-level diff and similarity *)

(** [f'<span class="cls">{body}</span>'] *)
Definition span (cls body : str) : str :=
  lit "<span class=" ++ [Html.dquote] ++ cls ++ [Html.dquote] ++ lit ">"
  ++ body ++ lit "</span>".

(** The body of the loop over [matcher.get_opcodes()]. *)
Definition diff_step (text1 text2 : str) (st : list str * list str)
    (op : Difflib.Opcode) : list str * list str :=
  let '(result_v1, result_v2) := st in
  let '(tag, i1, i2, j1, j2) := op in
  let text1_part := slice text1 i1 i2 in
  let text2_part := slice text2 j1 j2 in
  match tag with
  | Difflib.Equal =>
      (result_v1 ++ [Html.escape text1_part],
       result_v2 ++ [Html.escape text2_part])
  | Difflib.Delete =>
      (result_v1 ++ [span (lit "diff-removed") (Html.escape text1_part)],
       result_v2)
  | Difflib.Insert =>
      (result_v1,
       result_v2 ++ [span (lit "diff-added") (Html.escape text2_part)])
  | Difflib.Replace =>
      (result_v1 ++ [span (lit "diff-changed") (Html.escape text1_part)],
       result_v2 ++ [span (lit "diff-changed") (Html.escape text2_part)])
  end.

Definition generate_text_diff_view (text1 text2 : str) : str * str :=
  let matcher := Difflib.new_matcher text1 text2 in
  let '(result_v1, result_v2) :=
    foldl (diff_step text1 text2) ([], []) (Difflib.get_opcodes matcher) in
  (join_empty result_v1, join_empty result_v2).

Definition calculate_similarity (text1 text2 : str) : Q :=
  Difflib.ratio (Difflib.new_matcher text1 text2).

(** The call in [generate_enhanced_report]:
    [generate_text_diff_view(text1[:5000], text2[:5000])]. *)
Definition report_diff_view (text1 text2 : str) : str * str :=
  generate_text_diff_view (take 5000 text1) (take 5000 text2).

(** ** More of Python's [str] *)

Module Py.

(** [c.lower()] on the Latin-1 range: [A-Z] and the accented capitals
    [U+00C0..U+00DE] except the multiplication sign [U+00D7]. *)
Definition lower_char (c : ascii) : ascii :=
  let n := nat_of_ascii c in
  if (65 <=? n) && (n <=? 90)
     || (192 <=? n) && (n <=? 222) && negb (n =? 215)
  then ascii_of_nat (n + 32) else c.

Definition lower (s : str) : str := lower_char <$> s.

(** [s.startswith(prefix)] *)
Fixpoint startswith (s prefix : str) : bool :=
  match prefix, s with
  | [], _ => true
  | p :: prefix', c :: s' => bool_decide (c = p) && startswith s' prefix'
  | _ :: _, [] => false
  end.

(** [s.lstrip(chars)] *)
Fixpoint lstrip (chars : list ascii) (s : str) : str :=
  match s with
  | c :: s' => if bool_decide (c ∈ chars) then lstrip chars s' else s
  | [] => []
  end.

(** [s.rstrip(chars)] *)
Definition rstrip (chars : list ascii) (s : str) : str :=
  reverse (lstrip chars (reverse s)).

(** [s.strip(chars)] *)
Definition strip (chars : list ascii) (s : str) : str :=
  rstrip chars (lstrip chars s).

(** [s.find(c)]: the index of the first [c], [None] for [-1]. *)
Fixpoint find (c : ascii) (s : str) : option nat :=
  match s with
  | [] => None
  | x :: s' => if bool_decide (x = c) then Some 0 else S <$> find c s'
  end.

(** [s.find(c, start)] *)
Definition find_from (c : ascii) (start : nat) (s : str) : option nat :=
  (λ i, start + i) <$> find c (drop start s).

(** [s.rfind(c)] *)
Definition rfind (c : ascii) (s : str) : option nat :=
  (λ i, length s - 1 - i) <$> find c (reverse s).

(** [s.partition(c)]: [(before, found, after)]. *)
Definition partition (c : ascii) (s : str) : str * bool * str :=
  match find c s with
  | Some i => (take i s, true, drop (S i) s)
  | None => (s, false, [])
  end.

(** [s.rpartition(c)]: [(before, found, after)]. *)
Definition rpartition (c : ascii) (s : str) : str * bool * str :=
  match rfind c s with
  | Some i => (take i s, true, drop (S i) s)
  | None => ([], false, s)
  end.

(** [s.split(c)]: never empty. *)
Fixpoint split (c : ascii) (s : str) : list str :=
  match s with
  | [] => [[]]
  | x :: s' =>
      if bool_decide (x = c) then [] :: split c s'
      else match split c s' with
           | seg :: segs => (x :: seg) :: segs
           | [] => [[x]]
           end
  end.

(** [sep.join(parts)] *)
Fixpoint join (sep : str) (parts : list str) : str :=
  match parts with
  | [] => []
  | [p] => p
  | p :: rest => p ++ sep ++ join sep rest
  end.

(** [s.isascii()] *)
Definition isascii (s : str) : bool :=
  forallb (λ c, nat_of_ascii c <? 128) s.

Definition is_ascii_alpha (c : ascii) : bool :=
  let n := nat_of_ascii c in
  (65 <=? n) && (n <=? 90) || (97 <=? n) && (n <=? 122).

Definition is_ascii_digit (c : ascii) : bool :=
  let n := nat_of_ascii c in (48 <=? n) && (n <=? 57).

Definition is_hex_digit (c : ascii) : bool :=
  let n := nat_of_ascii c in
  is_ascii_digit c || (65 <=? n) && (n <=? 70) || (97 <=? n) && (n <=? 102).

(** The length of the longest prefix whose characters satisfy [p]. *)
Fixpoint count_while (p : ascii → bool) (s : str) : nat :=
  match s with
  | c :: s' => if p c then S (count_while p s') else 0
  | [] => 0
  end.

(** [int(s, 10)] for a string of decimal digits. *)
Definition decimal (s : str) : N :=
  foldl (λ acc c, 10 * acc + N.of_nat (nat_of_ascii c - 48))%N 0%N s.

End Py.

(** ** ipaddress: which strings are addresses *)

Module Ipaddress.

(** [IPv4Address._parse_octet] succeeds: the checks in the order of
    the source. *)
Definition octet_ok (octet_str : str) : bool :=
  if bool_decide (octet_str = []) then false
  else if negb (forallb Py.is_ascii_digit octet_str) then false
  else if bool_decide (3 < length octet_str) then false
  else if negb (bool_decide (octet_str = lit "0"))
          && Py.startswith octet_str (lit "0") then false
  else bool_decide (Py.decimal octet_str ≤ 255)%N.

(** [IPv4Address(address)] succeeds. *)
Definition ipv4_ok (address : str) : bool :=
  negb (bool_decide ("/"%char ∈ address))
  && negb (bool_decide (address = []))
  && (let octets := Py.split "." address in
      bool_decide (length octets = 4) && forallb octet_ok octets).

(** [IPv6Address._parse_hextet] succeeds: hex digits only, at most four,
    and [int(hextet_str, 16)] rejects the empty string. *)
Definition hextet_ok (hextet_str : str) : bool :=
  forallb Py.is_hex_digit hextet_str
  && bool_decide (length hextet_str ≤ 4)
  && negb (bool_decide (hextet_str = [])).

(** The indices [i] in [range(1, len(parts) - 1)] with [parts[i]] empty. *)
Definition skip_indices (parts : list str) : list nat :=
  filter (λ i, parts !! i = Some []) (seq 1 (length parts - 2)).

(** [IPv6Address._ip_int_from_string] succeeds. *)
Definition ipv6_parts_ok (ip_str : str) : bool :=
  negb (bool_decide (ip_str = []))
  && (let parts := Py.split ":" ip_str in
      bool_decide (3 ≤ length parts)
      && (let last_part := default [] (last parts) in
          let suffix_ok :=
            if bool_decide ("."%char ∈ last_part) then ipv4_ok last_part
            else true in
          (* an IPv4 suffix is replaced by two hextets, both valid *)
          let parts :=
            if bool_decide ("."%char ∈ last_part)
            then take (length parts - 1) parts ++ [lit "0"; lit "0"]
            else parts in
          suffix_ok
          && bool_decide (length parts ≤ 9)
          && match skip_indices parts with
             | [] =>
                 bool_decide (length parts = 8)
                 && forallb hextet_ok parts
             | [skip_index] =>
                 let first_empty := bool_decide (parts !! 0 = Some []) in
                 let last_empty := bool_decide (last parts = Some []) in
                 let parts_hi :=
                   if first_empty then skip_index - 1 else skip_index in
                 let parts_lo :=
                   if last_empty then length parts - skip_index - 1 - 1
                   else length parts - skip_index - 1 in
                 negb (first_empty && negb (parts_hi =? 0))
                 && negb (last_empty && negb (parts_lo =? 0))
                 && bool_decide (parts_hi + parts_lo < 8)
                 && forallb hextet_ok (take parts_hi parts)
                 && forallb hextet_ok (drop (length parts - parts_lo) parts)
             | _ => false
             end)).

(** [IPv6Address(address)] succeeds: no [/], an optional scope id after
    [%], then the address proper. *)
Definition ipv6_ok (address : str) : bool :=
  negb (bool_decide ("/"%char ∈ address))
  && (let '(addr, sep, scope_id) := Py.partition "%" address in
      negb (sep && (bool_decide (scope_id = [])
                    || bool_decide ("%"%char ∈ scope_id)))
      && ipv6_parts_ok addr).

End Ipaddress.
(** ** urllib.parse

    [None] stands for a raised [ValueError]. *)

Module Urllib.

Definition uses_relative : list str :=
  [] :: (lit <$> ["ftp"; "http"; "gopher"; "nntp"; "imap"; "wais"; "file";
                  "https"; "shttp"; "mms"; "prospero"; "rtsp"; "rtspu";
                  "sftp"; "svn"; "svn+ssh"; "ws"; "wss"]).

Definition uses_netloc : list str :=
  [] :: (lit <$> ["ftp"; "http"; "gopher"; "nntp"; "telnet"; "imap"; "wais";
                  "file"; "mms"; "https"; "shttp"; "snews"; "prospero";
                  "rtsp"; "rtspu"; "rsync"; "svn"; "svn+ssh"; "sftp"; "nfs";
                  "git"; "git+ssh"; "ws"; "wss"]).

Definition uses_params : list str :=
  [] :: (lit <$> ["ftp"; "hdl"; "prospero"; "http"; "imap"; "https";
                  "shttp"; "rtsp"; "rtspu"; "sip"; "sips"; "mms"; "sftp";
                  "tel"]).

Definition scheme_chars : list ascii :=
  lit "abcdefghijklmnopqrstuvwxyzABCDEFGHIJKLMNOPQRSTUVWXYZ0123456789+-.".

(** [_WHATWG_C0_CONTROL_OR_SPACE]: the code points [0..32]. *)
Definition c0_control_or_space : list ascii := ascii_of_nat <$> seq 0 33.

(** [_UNSAFE_URL_BYTES_TO_REMOVE]: tab, carriage return, line feed. *)
Definition unsafe_url_bytes_to_remove : list ascii :=
  ["009"; "013"; "010"]%char.

Definition remove_unsafe (s : str) : str :=
  foldl (λ s b, replace_char b [] s) s unsafe_url_bytes_to_remove.

(** [_splitnetloc(url, start)] *)
Definition splitnetloc (url : str) (start : nat) : str * str :=
  let delim :=
    foldl (λ delim c,
             match Py.find_from c start url with
             | Some wdelim => min delim wdelim
             | None => delim
             end)
          (length url) (lit "/?#") in
  (slice url start delim, drop delim url).

(** [_check_bracketed_host(hostname)] returns without raising. *)
Definition check_bracketed_host (hostname : str) : bool :=
  if Py.startswith hostname (lit "v") then
    (* re.match(r"\Av[a-fA-F0-9]+\..+\Z", hostname) *)
    let rest := drop 1 hostname in
    let digits := Py.count_while Py.is_hex_digit rest in
    let tail := drop digits rest in
    bool_decide (1 ≤ digits)
    && Py.startswith tail (lit ".")
    && bool_decide (2 ≤ length tail)
    && negb (bool_decide ("010"%char ∈ drop 1 tail))
  else
    (* ipaddress.ip_address(hostname), refusing an IPv4 address *)
    negb (Ipaddress.ipv4_ok hostname) && Ipaddress.ipv6_ok hostname.

(** [_check_bracketed_netloc(netloc)] returns without raising. *)
Definition check_bracketed_netloc (netloc : str) : bool :=
  let hostname_and_port := (Py.rpartition "@" netloc).2 in
  let '(before_bracket, have_open_br, bracketed) :=
    Py.partition "[" hostname_and_port in
  if have_open_br then
    if negb (bool_decide (before_bracket = [])) then false
    else
      let '(hostname, _, port) := Py.partition "]" bracketed in
      if negb (bool_decide (port = [])) && negb (Py.startswith port (lit ":"))
      then false
      else check_bracketed_host hostname
  else
    let '(hostname, _, port) := Py.partition ":" hostname_and_port in
    check_bracketed_host hostname.

(** [unicodedata.normalize('NFKC', c)] for one character of the Latin-1
    range, as code points: fourteen characters have a compatibility
    mapping, the others are left as they are. *)
Definition nfkc_char (c : ascii) : list N :=
  match N_of_ascii c with
  | 160 => [32]
  | 168 => [32; 776]
  | 170 => [97]
  | 175 => [32; 772]
  | 178 => [50]
  | 179 => [51]
  | 180 => [32; 769]
  | 181 => [956]
  | 184 => [32; 807]
  | 185 => [49]
  | 186 => [111]
  | 188 => [49; 8260; 52]
  | 189 => [49; 8260; 50]
  | 190 => [51; 8260; 52]
  | n => [n]
  end%N.

(** [unicodedata.normalize('NFKC', s)]: on the Latin-1 range no two
    characters compose, so the normal form is made character by
    character. *)
Definition nfkc (s : str) : list N := s ≫= nfkc_char.

(** [_checknetloc(netloc)] returns without raising. *)
Definition checknetloc (netloc : str) : bool :=
  if bool_decide (netloc = []) || Py.isascii netloc then true
  else
    let n := replace_char "@" [] netloc in
    let n := replace_char ":" [] n in
    let n := replace_char "#" [] n in
    let n := replace_char "?" [] n in
    let netloc2 := nfkc n in
    if bool_decide (N_of_ascii <$> n = netloc2) then true
    else negb (existsb (λ c, bool_decide (N_of_ascii c ∈ netloc2))
                       (lit "/?#@:")).

(** [url.split(c, 1)] when [c in url]. *)
Definition split_once (c : ascii) (url : str) : str * str :=
  let '(before, _, after) := Py.partition c url in (before, after).

(** [urlsplit(url, scheme)]: [(scheme, netloc, path, query, fragment)]. *)
Definition urlsplit (url scheme : str)
    : option (str * str * str * str * str) :=
  let url := Py.lstrip c0_control_or_space url in
  let scheme := Py.strip c0_control_or_space scheme in
  let url := remove_unsafe url in
  let scheme := remove_unsafe scheme in
  let '(scheme, url) :=
    match Py.find ":" url, url with
    | Some i, c :: _ =>
        if bool_decide (0 < i) && Py.is_ascii_alpha c
           && forallb (λ c, bool_decide (c ∈ scheme_chars)) (take i url)
        then (Py.lower (take i url), drop (i + 1) url)
        else (scheme, url)
    | _, _ => (scheme, url)
    end in
  let checked :=
    if bool_decide (take 2 url = lit "//") then
      let '(netloc, url) := splitnetloc url 2 in
      let open_br := bool_decide ("["%char ∈ netloc) in
      let close_br := bool_decide ("]"%char ∈ netloc) in
      if open_br && negb close_br || close_br && negb open_br then None
      else if open_br && close_br then
        if check_bracketed_netloc netloc then Some (netloc, url) else None
      else Some (netloc, url)
    else Some ([], url) in
  match checked with
  | None => None
  | Some (netloc, url) =>
      let '(url, fragment) :=
        if bool_decide ("#"%char ∈ url) then split_once "#" url
        else (url, []) in
      let '(url, query) :=
        if bool_decide ("?"%char ∈ url) then split_once "?" url
        else (url, []) in
      if checknetloc netloc then Some (scheme, netloc, url, query, fragment)
      else None
  end.

(** [_splitparams(url)]; [urlparse] calls it when [;] occurs in [url],
    so the last case ([i = -1]) does not arise there. *)
Definition splitparams (url : str) : str * str :=
  if bool_decide ("/"%char ∈ url) then
    match Py.find_from ";" (default 0 (Py.rfind "/" url)) url with
    | Some i => (take i url, drop (i + 1) url)
    | None => (url, [])
    end
  else
    match Py.find ";" url with
    | Some i => (take i url, drop (i + 1) url)
    | None => (take (length url - 1) url, url)
    end.

Record ParseResult := mkParseResult {
  scheme : str;
  netloc : str;
  path : str;
  params : str;
  query : str;
  fragment : str
}.

(** [urlparse(url, scheme)] *)
Definition urlparse (url scheme : str) : option ParseResult :=
  match urlsplit url scheme with
  | None => None
  | Some (scheme, netloc, url, query, fragment) =>
      let '(url, params) :=
        if bool_decide (scheme ∈ uses_params)
           && bool_decide (";"%char ∈ url)
        then splitparams url else (url, []) in
      Some (mkParseResult scheme netloc url params query fragment)
  end.

(** [urlunsplit((scheme, netloc, url, query, fragment))] *)
Definition urlunsplit (scheme netloc url query fragment : str) : str :=
  let url :=
    if negb (bool_decide (netloc = []))
       || negb (bool_decide (scheme = []))
          && bool_decide (scheme ∈ uses_netloc)
          && negb (bool_decide (take 2 url = lit "//"))
    then
      let url := if negb (bool_decide (url = []))
                    && negb (bool_decide (take 1 url = lit "/"))
                 then lit "/" ++ url else url in
      lit "//" ++ netloc ++ url
    else url in
  let url := if negb (bool_decide (scheme = []))
             then scheme ++ lit ":" ++ url else url in
  let url := if negb (bool_decide (query = []))
             then url ++ lit "?" ++ query else url in
  let url := if negb (bool_decide (fragment = []))
             then url ++ lit "#" ++ fragment else url in
  url.

(** [urlunparse(components)] *)
Definition urlunparse (r : ParseResult) : str :=
  let url := if negb (bool_decide (params r = []))
             then path r ++ lit ";" ++ params r else path r in
  urlunsplit (scheme r) (netloc r) url (query r) (fragment r).

(** [segments[1:-1] = filter(None, segments[1:-1])] *)
Definition drop_empty_inner (segments : list str) : list str :=
  let n := length segments in
  let start := min 1 n in
  let stop := max start (n - 1) in
  take start segments
  ++ filter (λ s, s ≠ []) (slice segments start stop)
  ++ drop stop segments.

(** The loop of [urljoin] that resolves [.] and [..]. *)
Definition resolve_segments (segments : list str) : list str :=
  foldl (λ resolved_path seg,
           if bool_decide (seg = lit "..")
           then take (length resolved_path - 1) resolved_path
           else if bool_decide (seg = lit ".") then resolved_path
           else resolved_path ++ [seg])
        [] segments.

(** [urljoin(base, url)] *)
Definition urljoin (base url : str) : option str :=
  if bool_decide (base = []) then Some url
  else if bool_decide (url = []) then Some base
  else
    match urlparse base [] with
    | None => None
    | Some b =>
        match urlparse url (scheme b) with
        | None => None
        | Some u =>
            if negb (bool_decide (scheme u = scheme b))
               || negb (bool_decide (scheme u ∈ uses_relative))
            then Some url
            else if bool_decide (scheme u ∈ uses_netloc)
                    && negb (bool_decide (netloc u = []))
            then Some (urlunparse u)
            else
              let netloc' :=
                if bool_decide (scheme u ∈ uses_netloc) then netloc b
                else netloc u in
              if bool_decide (path u = []) && bool_decide (params u = [])
              then
                let query' :=
                  if bool_decide (query u = []) then query b else query u in
                Some (urlunparse
                        (mkParseResult (scheme u) netloc' (path b) (params b)
                                       query' (fragment u)))
              else
                let base_parts := Py.split "/" (path b) in
                let base_parts :=
                  if negb (bool_decide (last base_parts = Some []))
                  then take (length base_parts - 1) base_parts
                  else base_parts in
                let segments :=
                  if bool_decide (take 1 (path u) = lit "/")
                  then Py.split "/" (path u)
                  else drop_empty_inner
                         (base_parts ++ Py.split "/" (path u)) in
                let resolved_path := resolve_segments segments in
                let resolved_path :=
                  if bool_decide (last segments = Some (lit "."))
                     || bool_decide (last segments = Some (lit ".."))
                  then resolved_path ++ [[]] else resolved_path in
                let joined := Py.join (lit "/") resolved_path in
                Some (urlunparse
                        (mkParseResult (scheme u) netloc'
                           (if bool_decide (joined = []) then lit "/"
                            else joined)
                           (params u) (query u) (fragment u)))
        end
    end.

End Urllib.
(** ** bs4: the parsed tree

    A document is a tree of tags and strings.  Every tag carries an
    identity [ident], as Python objects do; the parser gives distinct tags
    distinct identities.  The [BeautifulSoup] object is the root tag, named
    [[document]].  Comments and the other special strings are left out. *)

Module Bs4.

#[local] Set Warnings "-register-all".

Inductive node :=
| NavigableString (s : str)
| Tag (ident : nat) (name : str) (attrs : gmap str str)
      (contents : list node).

Definition is_tag (n : node) : bool :=
  match n with Tag _ _ _ _ => true | NavigableString _ => false end.

(** [element.name]: [None] for a string. *)
Definition name_of (n : node) : option str :=
  match n with Tag _ name _ _ => Some name | NavigableString _ => None end.

Definition ident_of (n : node) : option nat :=
  match n with Tag i _ _ _ => Some i | NavigableString _ => None end.

Definition attrs_of (n : node) : gmap str str :=
  match n with Tag _ _ attrs _ => attrs | NavigableString _ => ∅ end.

Definition contents_of (n : node) : list node :=
  match n with Tag _ _ _ cs => cs | NavigableString _ => [] end.

(** [element.descendants]: document order, the element itself excluded. *)
Fixpoint descendants (n : node) : list node :=
  match n with
  | NavigableString _ => []
  | Tag _ _ _ cs =>
      (fix go (cs : list node) : list node :=
         match cs with
         | [] => []
         | c :: cs' => c :: descendants c ++ go cs'
         end) cs
  end.

(** [element.find_all(names)] for a list of tag names. *)
Definition named (names : list str) (d : node) : bool :=
  match name_of d with
  | Some name => bool_decide (name ∈ names)
  | None => false
  end.

Definition find_all (names : list str) (n : node) : list node :=
  filter (λ d, named names d = true) (descendants n).

(** [element.find_all(name, attr=True)]: the tags of that name that have
    the attribute, whatever its value. *)
Definition find_all_with_attr (name attr : str) (n : node) : list node :=
  filter (λ d, name_of d = Some name ∧ is_Some (attrs_of d !! attr))
         (descendants n).

(** [soup.body]: [soup.find('body')]. *)
Definition body (soup : node) : option node :=
  head (find_all [lit "body"] soup).

(** The strings below an element, in document order. *)
Definition all_strings (n : node) : list str :=
  omap (λ d, match d with NavigableString s => Some s | _ => None end)
       (descendants n).

(** [element.get_text()] *)
Definition get_text (n : node) : str := mjoin (all_strings n).

(** The characters [str.strip()] removes, on the Latin-1 range. *)
Definition whitespace : list ascii :=
  ascii_of_nat <$> [9; 10; 11; 12; 13; 28; 29; 30; 31; 32; 133; 160].

(** [element.get_text(separator, strip=True)]: every string stripped,
    the empty ones skipped. *)
Definition get_text_strip (separator : str) (n : node) : str :=
  Py.join separator
    (filter (λ s, s ≠ []) (Py.strip whitespace <$> all_strings n)).

(** The ancestors of the tag [i] inside [n], nearest first, [n] last;
    [None] when [n] does not hold the tag. *)
Fixpoint ancestors (i : nat) (n : node) : option (list node) :=
  match n with
  | NavigableString _ => None
  | Tag j _ _ cs =>
      if bool_decide (j = i) then Some []
      else
        (fix go (cs : list node) : option (list node) :=
           match cs with
           | [] => None
           | c :: cs' =>
               match ancestors i c with
               | Some chain => Some (chain ++ [n])
               | None => go cs'
               end
           end) cs
  end.

(** [element.find_next_siblings()] for the tag [i] with parent [parent]:
    the tags after it among the parent's contents. *)
Definition find_next_siblings (i : nat) (parent : node) : list node :=
  let after :=
    (fix go (cs : list node) : list node :=
       match cs with
       | [] => []
       | c :: cs' => if bool_decide (ident_of c = Some i) then cs' else go cs'
       end) (contents_of parent) in
  filter (λ c, is_tag c = true) after.

(** [element.extract()]: the tree without the tag [i]. *)
Fixpoint extract (i : nat) (n : node) : node :=
  match n with
  | NavigableString s => NavigableString s
  | Tag j name attrs cs =>
      Tag j name attrs
        ((fix go (cs : list node) : list node :=
            match cs with
            | [] => []
            | c :: cs' =>
                if bool_decide (ident_of c = Some i) then go cs'
                else extract i c :: go cs'
            end) cs)
  end.

(** The largest identity in a tree. *)
Fixpoint max_ident (n : node) : nat :=
  match n with
  | NavigableString _ => 0
  | Tag j _ _ cs =>
      (fix go (cs : list node) : nat :=
         match cs with
         | [] => j
         | c :: cs' => max (max_ident c) (go cs')
         end) cs
  end.

(** [soup.new_tag(name)]: a tag of its own, outside the tree. *)
Definition new_tag (soup : node) (name : str) : node :=
  Tag (S (max_ident soup)) name ∅ [].

(** [container.append(elem)]: [elem] leaves its place in the tree and
    becomes the last child of [container]. *)
Definition append (container elem : node) (soup : node) : node * node :=
  let soup :=
    match ident_of elem with
    | Some i => extract i soup
    | None => soup
    end in
  match container with
  | Tag j name attrs cs => (Tag j name attrs (cs ++ [elem]), soup)
  | NavigableString s => (container, soup)
  end.

End Bs4.
(** ** The program: regions and links *)

(** [needle in haystack] for strings. *)
Fixpoint contains (haystack needle : str) : bool :=
  Py.startswith haystack needle
  || match haystack with
     | [] => false
     | _ :: rest => contains rest needle
     end.

Definition marker_tags : list str :=
  lit <$> ["b"; "strong"; "h1"; "h2"; "h3"; "h4"; "p"; "font"].

(** The elements that hold the marker, in document order. *)
Definition found_elements (soup : Bs4.node) (marker_text : str)
    : list Bs4.node :=
  filter (λ element,
            contains (Py.lower (Bs4.get_text element)) (Py.lower marker_text)
            = true)
         (Bs4.find_all marker_tags soup).

(** The loop that walks up from the marker.  [chain] holds the ancestors
    of [current], nearest first; the result is the element the loop stops
    at, with its own ancestors.  The name of a tag is never [None]. *)
Fixpoint walk_up (current : Bs4.node) (chain : list Bs4.node)
    : Bs4.node * list Bs4.node :=
  match chain with
  | [] => (current, [])
  | parent :: chain' =>
      let name := default [] (Bs4.name_of parent) in
      if negb (bool_decide (name ∈ [lit "body"; lit "html"])) then
        if bool_decide (name ∈ [lit "td"; lit "div"; lit "body"])
        then (current, chain)
        else walk_up parent chain'
      else (current, chain)
  end.

(** [element.find_next_siblings()] for an element given with its
    ancestors; an element without a parent has no siblings. *)
Definition next_siblings_of (element : Bs4.node) (chain : list Bs4.node)
    : list Bs4.node :=
  match Bs4.ident_of element, chain with
  | Some i, parent :: _ => Bs4.find_next_siblings i parent
  | _, _ => []
  end.

(** [extract_content_after_marker(soup, marker_text)]: the value returned
    and the document as the call leaves it.  [None] is Python's [None]. *)
Definition extract_content_after_marker (soup : option Bs4.node)
    (marker_text : str) : option Bs4.node * option Bs4.node :=
  match soup with
  | None => (None, None)
  | Some soup =>
      match found_elements soup marker_text with
      | [] =>
          (* fallback: [soup.body if soup.body else soup] *)
          (Some (default soup (Bs4.body soup)), Some soup)
      | marker_elem :: _ =>
          let chain :=
            default [] (i ← Bs4.ident_of marker_elem; Bs4.ancestors i soup) in
          let '(current, chain) := walk_up marker_elem chain in
          let content_elements := next_siblings_of current chain in
          let content_elements :=
            match content_elements, chain with
            | [], parent :: chain' => next_siblings_of parent chain'
            | _, _ => content_elements
            end in
          let container := Bs4.new_tag soup (lit "div") in
          let '(container, soup) :=
            foldl (λ '(container, soup) elem, Bs4.append container elem soup)
                  (container, soup) content_elements in
          (Some container, Some soup)
      end
  end.

(** A link as [extract_links] records it.  [html] holds the anchor
    element; the source stores its rendering [str(link)]. *)
Record Link := mkLink {
  url : str;
  text : str;
  html : Bs4.node
}.

(** [extract_links(element)] *)
Definition extract_links (element : option Bs4.node) : list Link :=
  match element with
  | None => []
  | Some element =>
      (λ link,
         mkLink (default [] (Bs4.attrs_of link !! lit "href"))
                (Bs4.get_text_strip [] link)
                link)
      <$> Bs4.find_all_with_attr (lit "a") (lit "href") element
  end.

(** The first branch of [normalize_url]: the URL made absolute. *)
Definition absolute_url (url base_url : str) : option str :=
  if Py.startswith url (lit "http://") || Py.startswith url (lit "https://")
  then Some url
  else if negb (bool_decide (base_url = [])) then Urllib.urljoin base_url url
  else Some url.

(** [f"{parsed.scheme}://{parsed.netloc}{parsed.path}"], with
    [?{parsed.query}] when the query is not empty. *)
Definition reassemble (parsed : Urllib.ParseResult) : str :=
  let normalized :=
    Urllib.scheme parsed ++ lit "://" ++ Urllib.netloc parsed
    ++ Urllib.path parsed in
  if negb (bool_decide (Urllib.query parsed = []))
  then normalized ++ lit "?" ++ Urllib.query parsed
  else normalized.

(** [normalize_url(url, base_url)]; [None] is a raised exception. *)
Definition normalize_url (url base_url : str) : option str :=
  absolute_url ← absolute_url url base_url;
  parsed ← Urllib.urlparse absolute_url [];
  Some (Py.lower (Py.rstrip ["/"%char] (reassemble parsed))).

(** The loop that fills [norm_links1] (and [norm_links2]): a link whose
    normalisation raises is passed over. *)
Definition norm_links (links : list Link) (base_url : str)
    : gmap str Link :=
  foldl (λ (d : gmap str Link) link,
           match normalize_url (url link) base_url with
           | Some norm_url => <[norm_url := link]> d
           | None => d
           end)
        ∅ links.

(** Strings compare by code point, the shorter first on a tie. *)
Fixpoint str_leb (s t : str) : bool :=
  match s, t with
  | [], _ => true
  | _ :: _, [] => false
  | c :: s', d :: t' =>
      (nat_of_ascii c <? nat_of_ascii d)
      || (nat_of_ascii c =? nat_of_ascii d) && str_leb s' t'
  end.

(** The order of [sorted(..., key=lambda x: x.get('text', ''))]. *)
Definition by_text (x y : Link) : Prop := str_leb (text x) (text y) = true.

Global Instance by_text_dec : RelDecision by_text.
Proof. intros x y. unfold by_text. apply _. Defined.

(** [sorted([d[k] for k in keys], key=...)]: the keys are visited in the
    order the set yields them. *)
Definition sorted_links (d : gmap str Link) (keys : gset str) : list Link :=
  merge_sort by_text (omap (λ k, d !! k) (elements keys)).

Record LinkComparison := mkLinkComparison {
  only_in_v1 : list Link;
  only_in_v2 : list Link;
  in_both : list Link;
  total_v1 : nat;
  total_v2 : nat
}.

(** [compare_links(links1, links2, base_url1, base_url2)] *)
Definition compare_links (links1 links2 : list Link)
    (base_url1 base_url2 : str) : LinkComparison :=
  let norm_links1 := norm_links links1 base_url1 in
  let norm_links2 := norm_links links2 base_url2 in
  let keys1 : gset str := dom norm_links1 in
  let keys2 : gset str := dom norm_links2 in
  let only_in_1 := keys1 ∖ keys2 in
  let only_in_2 := keys2 ∖ keys1 in
  let in_both := keys1 ∩ keys2 in
  mkLinkComparison
    (sorted_links norm_links1 only_in_1)
    (sorted_links norm_links2 only_in_2)
    (sorted_links norm_links1 in_both)
    (size keys1) (size keys2).

(** ** The program: text *)

(** [extract_text(element)]: [element.get_text(separator='\n',
    strip=True)], the empty string for [None]. *)
Definition extract_text (element : option Bs4.node) : str :=
  match element with
  | None => []
  | Some element => Bs4.get_text_strip ["010"%char] element
  end.

(** A block as [extract_text_blocks] records it, with the keys ['tag'],
    ['text'] and ['html'].  [block_html] holds the element; the source
    stores its rendering [str(child)]. *)
Record TextBlock := mkTextBlock {
  block_tag : str;
  block_text : str;
  block_html : Bs4.node
}.

Definition block_tags : list str :=
  lit <$> ["p"; "h1"; "h2"; "h3"; "h4"; "h5"; "h6"; "li"; "td"; "th"; "div"].

(** The body of the loop of [extract_text_blocks]: the block appended for
    [child], if any.  The name of a string is [None], which is in no
    list of names. *)
Definition text_block (child : Bs4.node) : option TextBlock :=
  match Bs4.name_of child with
  | Some name =>
      if bool_decide (name ∈ block_tags) then
        let text := Bs4.get_text_strip [] child in
        if negb (bool_decide (text = [])) && bool_decide (10 < length text)
        then Some (mkTextBlock name text child)
        else None
      else None
  | None => None
  end.

(** [extract_text_blocks(element)] *)
Definition extract_text_blocks (element : option Bs4.node)
    : list TextBlock :=
  match element with
  | None => []
  | Some element => omap text_block (Bs4.descendants element)
  end.

(** ** Reading a diff view back

    What a reader of the rendered markup sees: the tags removed, the
    character references of [html.escape] decoded. *)

(** Delete every tag: each run from [<] up to the next [>]. *)
Fixpoint strip_tags_go (in_tag : bool) (s : str) : str :=
  match s with
  | [] => []
  | c :: s' =>
      if in_tag then strip_tags_go (negb (bool_decide (c = ">"%char))) s'
      else if bool_decide (c = "<"%char) then strip_tags_go true s'
      else c :: strip_tags_go false s'
  end.

Definition strip_tags : str → str := strip_tags_go false.

(** The character reference at the head of [s] (after its [&]), with the
    number of characters it takes. *)
Definition reference (s : str) : option (ascii * nat) :=
  match s with
  | "a" :: "m" :: "p" :: ";" :: _ => Some ("&", 4)
  | "l" :: "t" :: ";" :: _ => Some ("<", 3)
  | "g" :: "t" :: ";" :: _ => Some (">", 3)
  | "q" :: "u" :: "o" :: "t" :: ";" :: _ => Some (Html.dquote, 5)
  | "#" :: "x" :: "2" :: "7" :: ";" :: _ => Some ("'", 5)
  | _ => None
  end%char.

(** Decode the five references in one pass from the left; [skip] counts
    the characters of a reference still to be passed over. *)
Fixpoint unescape_go (skip : nat) (s : str) : str :=
  match s with
  | [] => []
  | c :: s' =>
      match skip with
      | S n => unescape_go n s'
      | 0 =>
          if bool_decide (c = "&"%char) then
            match reference s' with
            | Some (x, n) => x :: unescape_go n s'
            | None => c :: unescape_go 0 s'
            end
          else c :: unescape_go 0 s'
      end
  end.

Definition unescape : str → str := unescape_go 0.

Definition plain_text (markup : str) : str := unescape (strip_tags markup).

(** Where a reader of a diff view stands: outside every element, inside
    the opening tag of one, inside its content, or inside its closing
    tag. *)
Inductive place := Outside | InOpenTag | InContent | InCloseTag.

(** Delete every element, tags and content alike. *)
Fixpoint outside_elements (p : place) (s : str) : str :=
  match s with
  | [] => []
  | c :: s' =>
      match p with
      | Outside =>
          if bool_decide (c = "<"%char) then outside_elements InOpenTag s'
          else c :: outside_elements Outside s'
      | InOpenTag =>
          outside_elements
            (if bool_decide (c = ">"%char) then InContent else InOpenTag) s'
      | InContent =>
          outside_elements
            (if bool_decide (c = "<"%char) then InCloseTag else InContent) s'
      | InCloseTag =>
          outside_elements
            (if bool_decide (c = ">"%char) then Outside else InCloseTag) s'
      end
  end.

(** The text a diff view shows outside its highlights. *)
Definition unhighlighted (markup : str) : str :=
  unescape (outside_elements Outside markup).

(** ** Predicates used to state the properties *)

(** A match lies inside a window. *)
Definition in_window (w : Difflib.Window) (x : Difflib.Match) : Prop :=
  w.1.1.1 ≤ x.1.1 ∧ x.1.1 + x.2 ≤ w.1.1.2 ∧
  w.1.2 ≤ x.1.2 ∧ x.1.2 + x.2 ≤ w.2.

(** The run lengths a row of [find_longest_match] may record when it is
    about to scan row [i]. *)
Definition j2len_ok (alo blo i : nat) (j2len : gmap nat nat) : Prop :=
  ∀ j k, j2len !! j = Some k → k + alo ≤ i ∧ k + blo ≤ j + 1.

Definition j2len_get_bound (alo blo i j k : nat) : Prop :=
  k + alo ≤ i + 1 ∧ k + blo ≤ j + 1.

(** The rectangle a match covers, as a window. *)
Definition block_window (x : Difflib.Match) : Difflib.Window :=
  (x.1.1, x.1.1 + x.2, x.1.2, x.1.2 + x.2).

(** [r1] ends, on both sides, before [r2] starts. *)
Definition before (r1 r2 : Difflib.Window) : Prop :=
  r1.1.1.2 ≤ r2.1.1.1 ∧ r1.2 ≤ r2.1.2.

Definition window_wf (la lb : nat) (w : Difflib.Window) : Prop :=
  w.1.1.1 ≤ w.1.1.2 ∧ w.1.1.2 ≤ la ∧ w.1.2 ≤ w.2 ∧ w.2 ≤ lb.

(** A non-empty window inside another. *)
Definition inside (w x : Difflib.Window) : Prop :=
  w.1.1.1 ≤ x.1.1.1 ∧ x.1.1.1 < x.1.1.2 ∧ x.1.1.2 ≤ w.1.1.2 ∧
  w.1.2 ≤ x.1.2 ∧ x.1.2 < x.2 ∧ x.2 ≤ w.2.

(** Any two distinct members are ordered. *)
Definition pairwise_ordered (items : list Difflib.Window) : Prop :=
  ∀ x y, x ∈ items → y ∈ items → x ≠ y → before x y ∨ before y x.

(** The invariant of the loop of [get_matching_blocks]: the blocks found
    and the windows still queued are distinct, well-formed rectangles, any
    two of them ordered. *)
Definition layout (la lb : nat) (items : list Difflib.Window) : Prop :=
  Forall (window_wf la lb) items ∧ NoDup items ∧ pairwise_ordered items.

Definition queue_inv (la lb : nat) (queue : list Difflib.Window)
    (blocks : list Difflib.Match) : Prop :=
  layout la lb ((block_window <$> blocks) ++ queue) ∧
  Forall (λ x : Difflib.Match, 0 < x.2) blocks.

(** Work left in a queue. *)
Definition queue_measure (queue : list Difflib.Window) : nat :=
  sum_list ((λ w : Difflib.Window, 2 * (w.1.1.2 - w.1.1.1) + 1) <$> queue).

(** From [(i, j)] on, the blocks follow one another on both sides and stay
    within [(la, lb)]. *)
Fixpoint chain (la lb i j : nat) (blocks : list Difflib.Match) : Prop :=
  match blocks with
  | [] => i ≤ la ∧ j ≤ lb
  | x :: rest =>
      i ≤ x.1.1 ∧ j ≤ x.1.2 ∧ chain la lb (x.1.1 + x.2) (x.1.2 + x.2) rest
  end.

(** The same, and the last block ends exactly at [(la, lb)]. *)
Fixpoint covers (la lb i j : nat) (blocks : list Difflib.Match) : Prop :=
  match blocks with
  | [] => i = la ∧ j = lb
  | x :: rest =>
      i ≤ x.1.1 ∧ j ≤ x.1.2 ∧ covers la lb (x.1.1 + x.2) (x.1.2 + x.2) rest
  end.

(** What [html.escape] does to one character. *)
Definition escape_char (c : ascii) : str :=
  if decide (c = "&"%char) then lit "&amp;"
  else if decide (c = "<"%char) then lit "&lt;"
  else if decide (c = ">"%char) then lit "&gt;"
  else if decide (c = Html.dquote) then lit "&quot;"
  else if decide (c = "'"%char) then lit "&#x27;"
  else [c].

(** The segments [generate_text_diff_view] emits for a list of opcodes. *)
Definition segments (text1 text2 : str) (ops : list Difflib.Opcode)
    : list str * list str :=
  foldl (diff_step text1 text2) ([], []) ops.

(** The opcodes [get_opcodes] emits from position [(i, j)]. *)
Definition opcodes_from (i j : nat) (blocks : list Difflib.Match)
    : list Difflib.Opcode :=
  (foldl Difflib.opcode_step (i, j, []) blocks).2.

(** [b2j] lists, for each element it keeps, the positions of the element
    in [b], in increasing order. *)
Definition indexes `{Countable A} (b : list A) (d : gmap A (list nat)) : Prop :=
  ∀ x l, d !! x = Some l →
    StronglySorted lt l ∧ ∀ j, j ∈ l ↔ b !! j = Some x.

(** Position [j] of [b] holds an element that [b2j] kept. *)
Definition kept `{Countable A} (m : Difflib.SequenceMatcher (A:=A)) (j : nat)
    : bool :=
  match Difflib.seq_b m !! j with
  | Some x => bool_decide (is_Some (Difflib.b2j m !! x))
  | None => false
  end.

(** The number of consecutive kept positions that end at [j]. *)
Fixpoint run `{Countable A} (m : Difflib.SequenceMatcher (A:=A)) (j : nat)
    : nat :=
  if kept m j
  then match j with 0 => 0 | S j' => run m j' end + 1
  else 0.

Definition run_before `{Countable A} (m : Difflib.SequenceMatcher (A:=A))
    (j : nat) : nat :=
  match j with 0 => 0 | S j' => run m j' end.

(** The state of [find_longest_match], run on a sequence and itself,
    before it scans row [i]. *)
Definition row_inv `{Countable A} (m : Difflib.SequenceMatcher (A:=A))
    (i : nat) (j2len : gmap nat nat) (best : Difflib.Match) : Prop :=
  (∀ j, default 0 (j2len !! j) ≤ run m j) ∧
  (∀ j, default 0 (j2len !! j) ≤ run_before m i) ∧
  Difflib.j2len_get j2len i = run_before m i ∧
  best.1.1 = best.1.2 ∧
  (∀ x, x < i → run m x ≤ best.2).

(** The state inside row [i], with the columns [js] still to visit. *)
Definition scan_inv `{Countable A} (m : Difflib.SequenceMatcher (A:=A))
    (i : nat) (js : list nat) (new : gmap nat nat) (best : Difflib.Match)
    : Prop :=
  (∀ j, default 0 (new !! j) ≤ run m j) ∧
  (∀ j, default 0 (new !! j) ≤ run m i) ∧
  (i ∈ js ∨ default 0 (new !! i) = run m i) ∧
  best.1.1 = best.1.2 ∧
  (∀ x, x < i → run m x ≤ best.2) ∧
  (i ∈ js ∨ run m i ≤ best.2).

(** The normalised key of a link, when normalisation succeeds. *)
Definition key_of (base_url : str) (link : Link) : option str :=
  normalize_url (url link) base_url.

(** The distinct normalised keys of a list of links; links whose
    normalisation raises contribute none. *)
Definition normalized_keys (links : list Link) (base_url : str) : gset str :=
  list_to_set (omap (key_of base_url) links).

(** The links whose normalisation succeeds. *)
Definition normalizable (base_url : str) (links : list Link) : list Link :=
  filter (λ link, is_Some (key_of base_url link)) links.

(** A link record around a bare anchor, for examples. *)
Definition link_to (href : string) : Link :=
  mkLink (lit href) [] (Bs4.Tag 0 (lit "a") {[ lit "href" := lit href ]} []).

(** The test of the first branch of [normalize_url]. *)
Definition is_absolute (url : str) : bool :=
  Py.startswith url (lit "http://") || Py.startswith url (lit "https://").

(** A character that is no delimiter of a query, fragment, parameter or
    bracketed host, and that [urlsplit] does not delete. *)
Definition plain_char (c : ascii) : bool :=
  negb (bool_decide (c ∈ ["?"; "#"; ";"; "["; "]"; "009"; "010"; "013"]%char)).

(** [normalize(normalize(url, ''), '')] *)
Definition normalize_twice (url : str) : option str :=
  r ← normalize_url url []; normalize_url r [].

(** Where the netloc ends: at the first slash, or at the end. *)
Definition netloc_end (rest : str) : nat :=
  default (length rest) (Py.find "/" rest).

(** [<body><b>Course Syllabus</b><p>Week 1</p></body>], parsed. *)
Definition syllabus_page : Bs4.node :=
  Bs4.Tag 0 (lit "[document]") ∅
    [Bs4.Tag 1 (lit "body") ∅
       [Bs4.Tag 2 (lit "b") ∅ [Bs4.NavigableString (lit "Course Syllabus")];
        Bs4.Tag 3 (lit "p") ∅ [Bs4.NavigableString (lit "Week 1")]]].

(** A [div] with three anchors: the first with an empty [href], the
    second without [href], the third with [href] [/b]. *)
Definition three_anchors : Bs4.node :=
  Bs4.Tag 0 (lit "div") ∅
    [Bs4.Tag 1 (lit "a") {[ lit "href" := [] ]}
       [Bs4.NavigableString (lit "x")];
     Bs4.Tag 2 (lit "a") ∅ [Bs4.NavigableString (lit "y")];
     Bs4.Tag 3 (lit "a") {[ lit "href" := lit "/b" ]}
       [Bs4.NavigableString (lit "z")]].

(** ** Further predicates *)

(** The block [x] pairs equal elements: [a[i+t] == b[j+t]] for every [t]
    below its size. *)
Definition agree {A} (a b : list A) (x : Difflib.Match) : Prop :=
  ∀ t, t < x.2 →
    is_Some (a !! (x.1.1 + t)) ∧ a !! (x.1.1 + t) = b !! (x.1.2 + t).

(** Every run [j2len] records, ending before row [i] at column [j], pairs
    equal elements. *)
Definition j2len_agree {A} (a b : list A) (i : nat) (j2len : gmap nat nat)
    : Prop :=
  ∀ j k, j2len !! j = Some k →
    k ≤ i ∧ k ≤ j + 1 ∧ agree a b (i - k, j + 1 - k, k).

(** The total size of a list of blocks. *)
Definition matched (blocks : list Difflib.Match) : nat :=
  sum_list ((λ triple : Difflib.Match, triple.2) <$> blocks).

(** The parts of [a] (of [b]) that a list of blocks matches, in order. *)
Definition equal_parts_a {A} (a : list A) (blocks : list Difflib.Match)
    : list A :=
  blocks ≫= (λ x, slice a x.1.1 (x.1.1 + x.2)).

Definition equal_parts_b {A} (b : list A) (blocks : list Difflib.Match)
    : list A :=
  blocks ≫= (λ x, slice b x.1.2 (x.1.2 + x.2)).

(** The first and the last character of [s], if any, are outside [cs]. *)
Definition edges (cs : list ascii) (s : str) : Prop :=
  (∀ c, head s = Some c → c ∉ cs) ∧ (∀ c, last s = Some c → c ∉ cs).

(** The number of nodes of a tree. *)
Fixpoint count_nodes (n : Bs4.node) : nat :=
  match n with
  | Bs4.NavigableString _ => 1
  | Bs4.Tag _ _ _ cs =>
      S ((fix go (cs : list Bs4.node) : nat :=
            match cs with
            | [] => 0
            | c :: cs' => count_nodes c + go cs'
            end) cs)
  end.

(** The elements [extract_content_after_marker] collects after the marker
    element: the siblings that follow the element the walk stops at, or,
    when there are none, those that follow its parent. *)
Definition content_elements (soup marker_elem : Bs4.node) : list Bs4.node :=
  let chain :=
    default [] (i ← Bs4.ident_of marker_elem; Bs4.ancestors i soup) in
  let '(current, chain) := walk_up marker_elem chain in
  let content_elements := next_siblings_of current chain in
  match content_elements, chain with
  | [], parent :: chain' => next_siblings_of parent chain'
  | _, _ => content_elements
  end.

(** The document after the elements have been taken out of it, one after
    the other. *)
Definition without (soup : Bs4.node) (elems : list Bs4.node) : Bs4.node :=
  foldl (λ soup elem,
           match Bs4.ident_of elem with
           | Some i => Bs4.extract i soup
           | None => soup
           end)
        soup elems.

(** [<div><div><p>Introduction to the course</p></div></div>], parsed,
    without the root. *)
Definition nested_blocks : Bs4.node :=
  Bs4.Tag 0 (lit "div") ∅
    [Bs4.Tag 1 (lit "div") ∅
       [Bs4.Tag 2 (lit "p") ∅
          [Bs4.NavigableString (lit "Introduction to the course")]]].

(** No tab, line feed or carriage return: the characters [urlsplit]
    deletes. *)
Definition clean (s : str) : Prop :=
  ∀ c, c ∈ Urllib.unsafe_url_bytes_to_remove → c ∉ s.

(** The test [urlsplit] makes on the brackets of a netloc passes. *)
Definition netloc_ok (netloc : str) : bool :=
  let open_br := bool_decide ("["%char ∈ netloc) in
  let close_br := bool_decide ("]"%char ∈ netloc) in
  if open_br && negb close_br || close_br && negb open_br then false
  else if open_br && close_br then Urllib.check_bracketed_netloc netloc
  else true.

(** What [urlsplit] does with the rest of a URL once the netloc is cut
    off: [(path, query, fragment)]. *)
Definition split_tail (url : str) : str * str * str :=
  let '(url, fragment) :=
    if bool_decide ("#"%char ∈ url) then Urllib.split_once "#" url
    else (url, []) in
  let '(url, query) :=
    if bool_decide ("?"%char ∈ url) then Urllib.split_once "?" url
    else (url, []) in
  (url, query, fragment).

(** The last segment of a path: from its last slash on, or the whole
    path when it has no slash.  [_splitparams] looks for [;] there. *)
Definition last_segment (path : str) : str :=
  drop (default 0 (Py.rfind "/" path)) path.

(** The netloc, path and query [urlsplit] yields for a URL that has a
    netloc. *)
Record split_shape (netloc path query : str) : Prop := {
  shape_clean : clean (netloc ++ path ++ query);
  shape_netloc : ∀ c, c ∈ ["/"; "?"; "#"]%char → c ∉ netloc;
  shape_netloc_ok : netloc_ok netloc = true;
  shape_path_head : path = [] ∨ head path = Some "/"%char;
  shape_path : ("?"%char ∉ path) ∧ ("#"%char ∉ path);
  shape_query : "#"%char ∉ query
}.

(** A second pass of [normalize_url] reads the result of the first
    differently: the query was made of slashes only, so that a bare [?]
    is left; or there is no query and stripping the slashes of the path
    brings a [;] into its last segment. *)
Definition spoils_second_pass (parsed : Urllib.ParseResult) : bool :=
  if bool_decide (Urllib.query parsed = []) then
    bool_decide (";"%char
                 ∈ last_segment (Py.rstrip ["/"%char] (Urllib.path parsed)))
  else bool_decide (Py.rstrip ["/"%char] (Urllib.query parsed) = []).

(** The characters that only themselves lower to. *)
Definition delimiters : list ascii :=
  ["/"; "?"; "#"; ";"; "["; "]"; ":"; "@"; "%"; "."; "009"; "010"; "013";
   "0"]%char.

(** The path [urlparse] keeps for a scheme that takes parameters: what
    [_splitparams] leaves of it when it holds a [;]. *)
Definition kept_path (path : str) : str :=
  (if bool_decide (";"%char ∈ path) then Urllib.splitparams path
   else (path, [])).1.

(** [?query], or nothing for an empty query. *)
Definition query_part (query : str) : str :=
  if bool_decide (query = []) then [] else "?"%char :: query.
(** ** Where [find_longest_match] can land *)

Section MatcherBounds.
Context `{Countable A}.
Implicit Types (m : Difflib.SequenceMatcher (A:=A)) (j2len : gmap nat nat).

Lemma j2len_get_ok alo blo i j2len j :
  j2len_ok alo blo i j2len → alo ≤ i → blo ≤ j →
  j2len_get_bound alo blo i j (Difflib.j2len_get j2len j + 1).
Proof.
  intros Hok Hi Hj. unfold j2len_get_bound, Difflib.j2len_get.
  destruct j as [|j']; [lia|].
  destruct (j2len !! j') as [k|] eqn:E; simpl; [|lia].
  apply Hok in E. lia.
Qed.

Lemma scan_row_ok alo ahi blo bhi i j2len js new best :
  alo ≤ i < ahi →
  j2len_ok alo blo i j2len →
  j2len_ok alo blo (S i) new →
  in_window (alo, ahi, blo, bhi) best →
  let r := Difflib.scan_row i blo bhi j2len js new best in
  j2len_ok alo blo (S i) r.1 ∧ in_window (alo, ahi, blo, bhi) r.2.
Proof.
  intros Hi Hold. revert new best.
  induction js as [|j js IH]; intros new best Hnew Hbest; simpl; [done|].
  case_bool_decide as Hlo; [by apply IH|].
  case_bool_decide as Hhi; [done|].
  assert (j2len_get_bound alo blo i j (Difflib.j2len_get j2len j + 1)) as Hk
    by (apply j2len_get_ok; [done|lia|lia]).
  unfold j2len_get_bound in Hk.
  set (k := Difflib.j2len_get j2len j + 1) in *. clearbody k.
  apply IH.
  - intros j0 k0. rewrite lookup_insert.
    case_decide; [|by apply Hnew]. intros [= <-]. subst. clear -Hk. lia.
  - case_bool_decide; [|done].
    destruct best as [[bi bj] bs]. clear -Hk Hbest Hi Hlo Hhi.
    unfold in_window in *. simpl in *. lia.
Qed.

Lemma longest_junk_free_rows m alo ahi blo bhi n s j2len best :
  alo ≤ s → s + n ≤ ahi →
  j2len_ok alo blo s j2len →
  in_window (alo, ahi, blo, bhi) best →
  in_window (alo, ahi, blo, bhi)
    (foldl (λ '(j2len, best) i,
              Difflib.scan_row i blo bhi j2len (Difflib.row_indices m i) ∅ best)
           (j2len, best) (seq s n)).2.
Proof.
  revert s j2len best.
  induction n as [|n IH]; intros s j2len best Hs Hn Hj Hb; simpl; [done|].
  destruct (scan_row_ok alo ahi blo bhi s j2len (Difflib.row_indices m s) ∅ best)
    as [Hj' Hb']; [lia|done| |done|].
  { intros j k. by rewrite lookup_empty. }
  destruct (Difflib.scan_row s blo bhi j2len (Difflib.row_indices m s) ∅ best)
    as [j2len' best'].
  apply IH; [lia|lia|done|done].
Qed.

Lemma longest_junk_free_in_window m alo ahi blo bhi :
  alo ≤ ahi → blo ≤ bhi →
  in_window (alo, ahi, blo, bhi) (Difflib.longest_junk_free m alo ahi blo bhi).
Proof.
  intros Ha Hb. unfold Difflib.longest_junk_free.
  apply longest_junk_free_rows; [lia|lia| |unfold in_window; simpl; lia].
  intros j k. by rewrite lookup_empty.
Qed.

Lemma extend_left_spec m junk alo blo besti bestj bestsize :
  alo ≤ besti → blo ≤ bestj →
  ∃ d, Difflib.extend_left m junk alo blo besti bestj bestsize
       = (besti - d, bestj - d, bestsize + d)
       ∧ alo + d ≤ besti ∧ blo + d ≤ bestj.
Proof.
  revert bestj bestsize.
  induction besti as [|i' IH]; intros bestj bestsize Hi Hj; simpl.
  { exists 0. rewrite Nat.add_0_r, !Nat.sub_0_r. split; [done|lia]. }
  destruct bestj as [|j'].
  { exists 0. rewrite Nat.add_0_r, !Nat.sub_0_r. split; [done|lia]. }
  destruct (bool_decide (alo < S i') && bool_decide (blo < S j')
            && Difflib.extends m junk i' j') eqn:E.
  - apply andb_true_iff in E as [E _]. apply andb_true_iff in E as [E1 E2].
    apply bool_decide_eq_true in E1, E2.
    destruct (IH j' (bestsize + 1)) as (d & -> & ? & ?); [lia|lia|].
    exists (S d). split; [|lia].
    simpl. f_equal. lia.
  - exists 0. rewrite Nat.add_0_r, !Nat.sub_0_r. split; [done|lia].
Qed.

Lemma extend_right_spec m junk ahi bhi besti bestj fuel bestsize :
  besti + bestsize ≤ ahi → bestj + bestsize ≤ bhi →
  let r := Difflib.extend_right m junk ahi bhi besti bestj fuel bestsize in
  bestsize ≤ r ∧ besti + r ≤ ahi ∧ bestj + r ≤ bhi.
Proof.
  revert bestsize. induction fuel as [|fuel IH]; intros bestsize Hi Hj; simpl.
  { lia. }
  destruct (bool_decide (besti + bestsize < ahi)
            && bool_decide (bestj + bestsize < bhi)
            && Difflib.extends m junk (besti + bestsize) (bestj + bestsize)) eqn:E;
    [|lia].
  apply andb_true_iff in E as [E _]. apply andb_true_iff in E as [E1 E2].
  apply bool_decide_eq_true in E1, E2.
  specialize (IH (bestsize + 1)). simpl in IH. lia.
Qed.

Lemma find_longest_match_in_window m alo ahi blo bhi :
  alo ≤ ahi → blo ≤ bhi →
  in_window (alo, ahi, blo, bhi) (Difflib.find_longest_match m alo ahi blo bhi).
Proof.
  intros Ha Hb. unfold Difflib.find_longest_match.
  pose proof (longest_junk_free_in_window m alo ahi blo bhi Ha Hb) as H0.
  destruct (Difflib.longest_junk_free m alo ahi blo bhi) as [[i0 j0] k0].
  unfold in_window in *. simpl in H0.
  destruct (extend_left_spec m false alo blo i0 j0 k0) as (d1 & -> & ? & ?);
    [lia|lia|].
  pose proof (extend_right_spec m false ahi bhi (i0 - d1) (j0 - d1)
                (ahi - (i0 - d1 + (k0 + d1))) (k0 + d1)) as Hr1. simpl in Hr1.
  set (k1 := Difflib.extend_right m false ahi bhi (i0 - d1) (j0 - d1) _ _) in *.
  clearbody k1.
  destruct (extend_left_spec m true alo blo (i0 - d1) (j0 - d1) k1)
    as (d2 & -> & ? & ?); [lia|lia|].
  pose proof (extend_right_spec m true ahi bhi (i0 - d1 - d2) (j0 - d1 - d2)
                (ahi - (i0 - d1 - d2 + (k1 + d2))) (k1 + d2)) as Hr2. simpl in Hr2.
  set (k2 := Difflib.extend_right m true ahi bhi _ _ _ _) in *.
  clearbody k2. simpl. lia.
Qed.

End MatcherBounds.
(** ** The loop of [get_matching_blocks] *)

Ltac window_lia :=
  unfold inside, before, window_wf, in_window, block_window in *;
  simpl in *; lia.

Lemma layout_perm la lb items items' :
  items ≡ₚ items' → layout la lb items → layout la lb items'.
Proof.
  intros Hp (Hwf & Hnd & Hord). split; [|split].
  - by rewrite <- Hp.
  - by rewrite <- Hp.
  - intros x y Hx Hy. rewrite <- Hp in Hx, Hy. by apply Hord.
Qed.

Lemma layout_drop la lb w items :
  layout la lb (w :: items) → layout la lb items.
Proof.
  intros (Hwf & Hnd & Hord). split; [|split].
  - by apply Forall_cons in Hwf as [_ ?].
  - by apply NoDup_cons in Hnd as [_ ?].
  - intros x y Hx Hy. apply Hord; by right.
Qed.

(** Replacing a window by ordered pieces of it keeps the layout. *)
Lemma layout_refine la lb w items news :
  layout la lb (w :: items) →
  Forall (inside w) news → NoDup news → pairwise_ordered news →
  layout la lb (news ++ items).
Proof.
  intros (Hwf & Hnd & Hord) Hin Hnd' Hord'.
  apply Forall_cons in Hwf as [Hw Hwf].
  apply NoDup_cons in Hnd as [Hw' Hnd].
  assert (∀ x y, x ∈ news → y ∈ items → x ≠ y ∧ (before x y ∨ before y x))
    as Hcross.
  { intros x y Hx Hy.
    assert (y ≠ w) as Hne by (intros ->; done).
    destruct (Hord y w) as [Hb|Hb]; [by right|by left|done|..];
      rewrite Forall_forall in Hin; specialize (Hin x Hx);
      destruct x as [[[??]?]?], y as [[[??]?]?], w as [[[??]?]?];
      (split; [intros [= -> -> -> ->]|]); window_lia. }
  split; [|split].
  - apply Forall_app. split; [|done].
    eapply Forall_impl; [exact Hin|].
    intros [[[??]?]?] ?. destruct w as [[[??]?]?]. window_lia.
  - apply NoDup_app. split; [done|]. split; [|done].
    intros x Hx Hx'. by destruct (Hcross x x Hx Hx').
  - intros x y [Hx|Hx]%elem_of_app [Hy|Hy]%elem_of_app Hne.
    + by apply Hord'.
    + by apply Hcross.
    + destruct (Hcross y x Hy Hx) as [_ [?|?]]; [by right|by left].
    + apply Hord; [by right|by right|done].
Qed.

Lemma queue_measure_cons w queue :
  queue_measure (w :: queue)
  = 2 * (w.1.1.2 - w.1.1.1) + 1 + queue_measure queue.
Proof. done. Qed.

Section MatchingBlocks.
Context `{Countable A}.
Implicit Types (m : Difflib.SequenceMatcher (A:=A)).

Lemma queue_step_inv m la lb w queue blocks :
  queue_inv la lb (w :: queue) blocks →
  let r := Difflib.queue_step m w queue blocks in
  queue_inv la lb r.1 r.2 ∧ queue_measure r.1 < queue_measure (w :: queue).
Proof.
  intros [Hlay Hpos].
  assert (layout la lb (w :: (block_window <$> blocks) ++ queue)) as Hlay'.
  { eapply layout_perm; [|exact Hlay]. by rewrite Permutation_middle. }
  assert (window_wf la lb w) as Hw.
  { destruct Hlay' as [Hwf _]. by apply Forall_cons in Hwf as [? _]. }
  destruct w as [[[alo ahi] blo] bhi]. unfold Difflib.queue_step.
  pose proof (find_longest_match_in_window m alo ahi blo bhi) as Hm.
  destruct (Difflib.find_longest_match m alo ahi blo bhi) as [[i j] k].
  lapply Hm; [clear Hm; intros Hm|window_lia].
  lapply Hm; [clear Hm; intros Hm|window_lia].
  case_bool_decide as Hk; cycle 1.
  { simpl. split; [split; [|done]|].
    - by apply layout_drop in Hlay'.
    - rewrite queue_measure_cons. lia. }
  set (w1 := (alo, i, blo, j)). set (w2 := (i + k, ahi, j + k, bhi)).
  set (news := [block_window (i, j, k)]
               ++ (if bool_decide (alo < i ∧ blo < j) then [w1] else [])
               ++ (if bool_decide (i + k < ahi ∧ j + k < bhi) then [w2] else [])).
  assert (layout la lb (news ++ (block_window <$> blocks) ++ queue)) as Hnew.
  { apply (layout_refine la lb (alo, ahi, blo, bhi)); [done|..]; subst news w1 w2.
    - repeat case_bool_decide; repeat constructor; window_lia.
    - repeat case_bool_decide; simpl;
        rewrite ?NoDup_cons, ?NoDup_nil, ?elem_of_cons, ?elem_of_nil;
        unfold block_window; simpl; repeat split; try done;
        intros ?; destruct_or?; simplify_eq; lia.
    - intros x y Hx Hy Hne. revert Hx Hy.
      repeat case_bool_decide; simpl;
        rewrite ?elem_of_cons, ?elem_of_nil; intros Hx Hy;
        destruct_or?; simplify_eq; try done; window_lia. }
  split; [split|].
  - eapply layout_perm; [|exact Hnew]. subst news w1 w2. simpl.
    rewrite fmap_app. simpl.
    repeat case_bool_decide; simpl;
      rewrite <- ?app_assoc; simpl;
      rewrite <- ?Permutation_middle; try done.
    apply Permutation_skip, Permutation_swap.
  - simpl. apply Forall_app. split; [done|]. constructor; [simpl; lia|done].
  - subst w1 w2. clear -Hm Hk.
    repeat case_bool_decide; cbn [fst snd]; rewrite !queue_measure_cons;
      window_lia.
Qed.

Lemma queue_loop_inv m la lb fuel queue blocks :
  queue_inv la lb queue blocks →
  queue_measure queue ≤ fuel →
  let r := Difflib.queue_loop m fuel queue blocks in
  r.1 = [] ∧ queue_inv la lb [] r.2.
Proof.
  revert queue blocks.
  induction fuel as [|fuel IH]; intros queue blocks Hinv Hfuel.
  - destruct queue as [|w queue]; [done|].
    rewrite queue_measure_cons in Hfuel. lia.
  - destruct queue as [|w queue]; [done|]. simpl.
    destruct (queue_step_inv m la lb w queue blocks Hinv) as [Hinv' Hlt].
    destruct (Difflib.queue_step m w queue blocks) as [queue' blocks'].
    cbn [fst snd] in *. apply IH; [done|lia].
Qed.

(** The loop ends with an empty queue within the turns
    [get_matching_blocks] grants it. *)
Lemma queue_loop_drains m :
  let la := length (Difflib.seq_a m) in
  let lb := length (Difflib.seq_b m) in
  let r := Difflib.queue_loop m (2 * la + 1) [(0, la, 0, lb)] [] in
  r.1 = [] ∧ queue_inv la lb [] r.2.
Proof.
  intros la lb. apply queue_loop_inv.
  - split; [|done]. split; [|split]; simpl.
    + repeat constructor; simpl; lia.
    + apply NoDup_singleton.
    + intros x y ->%list_elem_of_singleton ->%list_elem_of_singleton. done.
  - rewrite queue_measure_cons. unfold queue_measure. simpl. lia.
Qed.

End MatchingBlocks.
(** ** The sorted blocks form a chain *)

Global Instance Match_le_trans : Transitive Difflib.Match_le.
Proof. intros [[??]?] [[??]?] [[??]?]. unfold Difflib.Match_le. simpl. lia. Qed.

Global Instance Match_le_total : Total Difflib.Match_le.
Proof. intros [[??]?] [[??]?]. unfold Difflib.Match_le. simpl. lia. Qed.

Lemma sorted_blocks_chain la lb blocks i j :
  StronglySorted Difflib.Match_le blocks →
  layout la lb (block_window <$> blocks) →
  Forall (λ x : Difflib.Match, 0 < x.2) blocks →
  i ≤ la → j ≤ lb →
  Forall (λ x : Difflib.Match, i ≤ x.1.1 ∧ j ≤ x.1.2) blocks →
  chain la lb i j blocks.
Proof.
  intros Hs. revert i j.
  induction Hs as [|x rest Hs IH Hx]; intros i j Hlay Hpos Hi Hj Hlo; simpl.
  { done. }
  apply Forall_cons in Hlo as [[??] _].
  apply Forall_cons in Hpos as [Hxpos Hpos].
  pose proof Hlay as (Hwf & Hnd & Hord).
  rewrite fmap_cons in Hwf, Hnd.
  apply Forall_cons in Hwf as [Hxwf _].
  apply NoDup_cons in Hnd as [Hxnd _].
  split; [done|]. split; [done|].
  apply IH.
  - rewrite fmap_cons in Hlay. by apply layout_drop in Hlay.
  - done.
  - destruct x as [[??]?]. window_lia.
  - destruct x as [[??]?]. window_lia.
  - rewrite Forall_forall in Hx, Hpos. apply Forall_forall. intros y Hy.
    assert (block_window x ≠ block_window y) as Hne.
    { intros Heq. apply Hxnd. rewrite Heq. by apply list_elem_of_fmap_2. }
    specialize (Hx y Hy). specialize (Hpos y Hy).
    destruct (Hord (block_window x) (block_window y)) as [Hb|Hb];
      [rewrite fmap_cons; by left
      |rewrite fmap_cons; right; by apply list_elem_of_fmap_2
      |done|..];
      destruct x as [[??]?], y as [[??]?]; unfold Difflib.Match_le in Hx;
      clear -Hb Hx Hpos Hxpos; window_lia.
Qed.

Section Covering.
Context `{Countable A}.
Implicit Types (m : Difflib.SequenceMatcher (A:=A)).

Lemma collapse_fold_acc st acc blocks :
  foldl Difflib.collapse_step (st, acc) blocks
  = ((foldl Difflib.collapse_step (st, []) blocks).1,
     acc ++ (foldl Difflib.collapse_step (st, []) blocks).2).
Proof.
  revert st acc. induction blocks as [|x blocks IH]; intros st acc; simpl.
  { by rewrite app_nil_r. }
  destruct st as [[i1 j1] k1], x as [[i2 j2] k2]. simpl.
  repeat case_bool_decide; rewrite ?(IH _ acc), ?(IH _ (acc ++ _)),
    ?(IH _ [_]); simpl; rewrite <- ?app_assoc; done.
Qed.

Lemma collapse_finish_acc la lb st acc acc' :
  Difflib.collapse_finish la lb (st, acc ++ acc')
  = acc ++ Difflib.collapse_finish la lb (st, acc').
Proof.
  destruct st as [[i1 j1] k1]. unfold Difflib.collapse_finish.
  case_bool_decide; by rewrite <- !app_assoc.
Qed.

Lemma collapse_covers la lb blocks i1 j1 k1 p q :
  p ≤ i1 → q ≤ j1 →
  chain la lb (i1 + k1) (j1 + k1) blocks →
  covers la lb p q
    (Difflib.collapse_finish la lb
       (foldl Difflib.collapse_step ((i1, j1, k1), []) blocks)).
Proof.
  revert i1 j1 k1 p q.
  induction blocks as [|[[i2 j2] k2] blocks IH]; intros i1 j1 k1 p q Hp Hq Hc;
    simpl in *.
  { case_bool_decide; simpl; lia. }
  destruct Hc as (Hi & Hj & Hc).
  case_bool_decide as Hadj.
  - apply IH; [done|done|].
    destruct Hadj as [<- <-]. by rewrite <- !Nat.add_assoc in Hc.
  - rewrite collapse_fold_acc, collapse_finish_acc, <- surjective_pairing.
    case_bool_decide; simpl.
    + split; [done|]. split; [done|]. apply IH; [lia|lia|done].
    + apply IH; [lia|lia|done].
Qed.

(** The blocks [get_matching_blocks] returns tile both sequences. *)
Lemma get_matching_blocks_covers m :
  covers (length (Difflib.seq_a m)) (length (Difflib.seq_b m)) 0 0
         (Difflib.get_matching_blocks m).
Proof.
  unfold Difflib.get_matching_blocks.
  destruct (queue_loop_drains m) as [_ [Hlay Hpos]].
  set (la := length (Difflib.seq_a m)) in *.
  set (lb := length (Difflib.seq_b m)) in *.
  set (blocks := (Difflib.queue_loop m (2 * la + 1) [(0, la, 0, lb)] []).2) in *.
  rewrite app_nil_r in Hlay.
  apply (collapse_covers la lb _ 0 0 0 0 0); [done|done|]. simpl.
  apply sorted_blocks_chain.
  - apply StronglySorted_merge_sort; apply _.
  - eapply layout_perm; [|exact Hlay].
    by rewrite merge_sort_Permutation.
  - by rewrite merge_sort_Permutation.
  - lia.
  - lia.
  - apply Forall_forall. intros; lia.
Qed.

End Covering.
(** ** Escaping and reading back *)

Arguments span : simpl never.
Arguments lit : simpl never.
Arguments slice : simpl never.
Arguments Html.escape : simpl never.
Arguments plain_text : simpl never.

Lemma replace_char_bind c r (f : ascii → str) s :
  replace_char c r (s ≫= f) = s ≫= (λ x, replace_char c r (f x)).
Proof.
  unfold replace_char. induction s as [|x s IH]; [done|].
  by rewrite !bind_cons, bind_app, IH.
Qed.

Lemma escape_bind s : Html.escape s = s ≫= escape_char.
Proof.
  unfold Html.escape. cbv zeta.
  assert (replace_char "&" (lit "&amp;") s
          = s ≫= (λ x, replace_char "&" (lit "&amp;") [x])) as ->.
  { unfold replace_char. induction s as [|x s IH]; [done|].
    rewrite !bind_cons, <- IH. simpl. by rewrite app_nil_r. }
  rewrite !replace_char_bind.
  induction s as [|x s IH]; [done|]. rewrite !bind_cons, IH. f_equal.
  by destruct x as [[] [] [] [] [] [] [] []].
Qed.

Lemma escape_app s t : Html.escape (s ++ t) = Html.escape s ++ Html.escape t.
Proof. by rewrite !escape_bind, bind_app. Qed.

Lemma strip_tags_escape s t :
  strip_tags (Html.escape s ++ t) = Html.escape s ++ strip_tags t.
Proof.
  rewrite escape_bind. unfold strip_tags.
  induction s as [|x s IH]; [done|].
  rewrite bind_cons, <- !app_assoc.
  destruct x as [[] [] [] [] [] [] [] []]; simpl; by rewrite IH.
Qed.

Lemma unescape_escape s t :
  unescape (Html.escape s ++ t) = s ++ unescape t.
Proof.
  rewrite escape_bind. unfold unescape.
  induction s as [|x s IH]; [done|].
  rewrite bind_cons, <- !app_assoc.
  destruct x as [[] [] [] [] [] [] [] []]; simpl; by rewrite IH.
Qed.

Lemma plain_text_escape s t :
  plain_text (Html.escape s ++ t) = s ++ plain_text t.
Proof. unfold plain_text. by rewrite strip_tags_escape, unescape_escape. Qed.

Lemma plain_text_span cls s t :
  cls ∈ [lit "diff-removed"; lit "diff-added"; lit "diff-changed"] →
  plain_text (span cls (Html.escape s) ++ t) = s ++ plain_text t.
Proof.
  intros Hcls. unfold plain_text, span.
  assert (∀ u, strip_tags (lit "<span class=" ++ [Html.dquote] ++ cls
                           ++ [Html.dquote] ++ lit ">" ++ u) = strip_tags u)
    as Hopen.
  { intros u. rewrite !elem_of_cons, elem_of_nil in Hcls.
    destruct Hcls as [->|[->|[->|[]]]]; reflexivity. }
  rewrite <- !app_assoc. rewrite Hopen, strip_tags_escape, unescape_escape.
  reflexivity.
Qed.

(** ** Slices *)

Lemma slice_empty {A} (l : list A) i : slice l i i = [].
Proof. unfold slice. by rewrite Nat.sub_diag. Qed.

Lemma slice_split {A} (l : list A) i k n :
  i ≤ k → k ≤ n → slice l i k ++ slice l k n = slice l i n.
Proof.
  intros Hik Hkn. unfold slice.
  replace (drop k l) with (drop (k - i) (drop i l))
    by (rewrite drop_drop; f_equal; lia).
  rewrite take_take_drop. f_equal. lia.
Qed.

Lemma slice_all {A} (l : list A) : slice l 0 (length l) = l.
Proof. unfold slice. rewrite Nat.sub_0_r. simpl. by rewrite firstn_all. Qed.

(** ** The two folds of the diff view *)

Lemma opcode_step_acc i j acc x :
  Difflib.opcode_step (i, j, acc) x
  = (x.1.1 + x.2, x.1.2 + x.2, acc ++ opcodes_from i j [x]).
Proof.
  unfold opcodes_from. destruct x as [[ai bj] size]. simpl.
  repeat case_bool_decide; simpl; by rewrite <- ?app_assoc, ?app_nil_r.
Qed.

Lemma opcode_fold_acc i j acc blocks :
  (foldl Difflib.opcode_step (i, j, acc) blocks).2
  = acc ++ opcodes_from i j blocks.
Proof.
  unfold opcodes_from. revert i j acc.
  induction blocks as [|x blocks IH]; intros i j acc.
  { simpl. by rewrite app_nil_r. }
  cbn [foldl]. rewrite (opcode_step_acc i j acc), (opcode_step_acc i j []).
  rewrite IH, (IH _ _ ([] ++ _)). by rewrite <- !app_assoc.
Qed.

Lemma opcodes_from_cons i j x blocks :
  opcodes_from i j (x :: blocks)
  = opcodes_from i j [x] ++ opcodes_from (x.1.1 + x.2) (x.1.2 + x.2) blocks.
Proof.
  unfold opcodes_from at 1. cbn [foldl]. rewrite opcode_step_acc.
  by rewrite opcode_fold_acc.
Qed.

Lemma diff_step_acc text1 text2 r1 r2 op :
  diff_step text1 text2 (r1, r2) op
  = (r1 ++ (segments text1 text2 [op]).1, r2 ++ (segments text1 text2 [op]).2).
Proof.
  unfold segments. destruct op as [[[[tag i1] i2] j1] j2].
  destruct tag; simpl; by rewrite ?app_nil_r.
Qed.

Lemma diff_fold_acc text1 text2 r1 r2 ops :
  foldl (diff_step text1 text2) (r1, r2) ops
  = (r1 ++ (segments text1 text2 ops).1, r2 ++ (segments text1 text2 ops).2).
Proof.
  unfold segments. revert r1 r2.
  induction ops as [|op ops IH]; intros r1 r2.
  { simpl. by rewrite !app_nil_r. }
  cbn [foldl]. rewrite (diff_step_acc _ _ r1 r2), (diff_step_acc _ _ [] []).
  rewrite IH, (IH ([] ++ _)). simpl. by rewrite <- !app_assoc.
Qed.

Lemma segments_cons text1 text2 op ops :
  segments text1 text2 (op :: ops)
  = ((segments text1 text2 [op]).1 ++ (segments text1 text2 ops).1,
     (segments text1 text2 [op]).2 ++ (segments text1 text2 ops).2).
Proof.
  unfold segments at 1. cbn [foldl]. rewrite diff_step_acc.
  by rewrite diff_fold_acc.
Qed.

Lemma segments_app text1 text2 ops ops' :
  segments text1 text2 (ops ++ ops')
  = ((segments text1 text2 ops).1 ++ (segments text1 text2 ops').1,
     (segments text1 text2 ops).2 ++ (segments text1 text2 ops').2).
Proof.
  induction ops as [|op ops IH]; simpl.
  { by destruct (segments text1 text2 ops'). }
  rewrite segments_cons, IH, (segments_cons _ _ op ops). simpl.
  by rewrite <- !app_assoc.
Qed.
(** ** The diff view reads back as the two texts *)

Lemma covers_le la lb i j blocks :
  covers la lb i j blocks → i ≤ la ∧ j ≤ lb.
Proof.
  revert i j. induction blocks as [|x blocks IH]; intros i j; simpl; [lia|].
  intros (? & ? & Hc). apply IH in Hc. lia.
Qed.

Lemma block_view text1 text2 i j (x : Difflib.Match) rest1 rest2 :
  i ≤ x.1.1 → j ≤ x.1.2 →
  let segs := segments text1 text2 (opcodes_from i j [x]) in
  plain_text (mjoin segs.1 ++ rest1)
    = slice text1 i (x.1.1 + x.2) ++ plain_text rest1 ∧
  plain_text (mjoin segs.2 ++ rest2)
    = slice text2 j (x.1.2 + x.2) ++ plain_text rest2.
Proof.
  destruct x as [[ai bj] size]. simpl. intros Hi Hj.
  assert (∀ cls s t,
    cls ∈ [lit "diff-removed"; lit "diff-added"; lit "diff-changed"] →
    plain_text (span cls (Html.escape s) ++ t) = s ++ plain_text t) as Hspan
    by apply plain_text_span.
  unfold opcodes_from, segments. cbn.
  repeat case_bool_decide; cbn; rewrite ?app_nil_r, <- ?app_assoc;
    rewrite ?Hspan, ?plain_text_escape by (repeat constructor);
    rewrite ?Hspan, ?plain_text_escape by (repeat constructor).
  all: split.
  all: rewrite ?app_assoc, ?slice_split by lia; try done.
  all: try (replace size with 0 by lia; rewrite ?Nat.add_0_r; try done).
  all: try (replace ai with i by lia; try done).
  all: try (replace bj with j by lia; try done).
  all: rewrite ?slice_empty; done.
Qed.

Lemma opcodes_view text1 text2 la lb blocks i j :
  covers la lb i j blocks →
  let segs := segments text1 text2 (opcodes_from i j blocks) in
  plain_text (mjoin segs.1) = slice text1 i la ∧
  plain_text (mjoin segs.2) = slice text2 j lb.
Proof.
  revert i j. induction blocks as [|x blocks IH]; intros i j; simpl.
  { intros [-> ->]. by rewrite !slice_empty. }
  intros (Hi & Hj & Hc).
  rewrite opcodes_from_cons, segments_app. simpl. rewrite !join_app.
  destruct (block_view text1 text2 i j x
              (mjoin (segments text1 text2
                        (opcodes_from (x.1.1 + x.2) (x.1.2 + x.2) blocks)).1)
              (mjoin (segments text1 text2
                        (opcodes_from (x.1.1 + x.2) (x.1.2 + x.2) blocks)).2)
              Hi Hj) as [-> ->].
  destruct (IH _ _ Hc) as [-> ->].
  apply covers_le in Hc. rewrite !slice_split by lia. done.
Qed.

(** C1. For all texts [a] and [b] (so in particular for texts within the
    5000-character cap the report applies), the two markup strings
    returned by [generate_text_diff_view], read back with the span tags
    removed and the character references decoded, are exactly [a] on side 1
    and exactly [b] on side 2. *)
Theorem generate_text_diff_view_round_trip (a b : str) :
  plain_text (generate_text_diff_view a b).1 = a ∧
  plain_text (generate_text_diff_view a b).2 = b.
Proof.
  unfold generate_text_diff_view.
  pose proof (get_matching_blocks_covers (Difflib.new_matcher a b)) as Hc.
  assert (Difflib.seq_a (Difflib.new_matcher a b) = a) as Ha.
  { unfold Difflib.new_matcher. by destruct (Difflib.chain_b b) as [[??]?]. }
  assert (Difflib.seq_b (Difflib.new_matcher a b) = b) as Hb.
  { unfold Difflib.new_matcher. by destruct (Difflib.chain_b b) as [[??]?]. }
  rewrite Ha, Hb in Hc.
  apply (opcodes_view a b) in Hc. simpl in Hc.
  unfold Difflib.get_opcodes. fold (opcodes_from 0 0
    (Difflib.get_matching_blocks (Difflib.new_matcher a b))).
  fold (segments a b (opcodes_from 0 0
    (Difflib.get_matching_blocks (Difflib.new_matcher a b)))).
  destruct (segments a b _) as [r1 r2]. unfold join_empty. simpl in *.
  by rewrite !slice_all in Hc.
Qed.
(** ** What [__chain_b] builds *)

Section ChainB.
Context `{Countable A}.

Lemma index_elements_snoc (b : list A) y :
  Difflib.index_elements (b ++ [y])
  = <[y := default [] (Difflib.index_elements b !! y) ++ [length b]]>
      (Difflib.index_elements b).
Proof.
  unfold Difflib.index_elements.
  rewrite imap_app, foldl_app. simpl. by rewrite Nat.add_0_r.
Qed.

Lemma index_elements_spec (b : list A) x :
  match Difflib.index_elements b !! x with
  | Some l => StronglySorted lt l ∧ ∀ j, j ∈ l ↔ b !! j = Some x
  | None => ∀ j, b !! j ≠ Some x
  end.
Proof.
  induction b as [|y b IH] using rev_ind.
  { unfold Difflib.index_elements. simpl. rewrite lookup_empty.
    intros j. by rewrite lookup_nil. }
  rewrite index_elements_snoc.
  destruct (decide (y = x)) as [->|Hne].
  - rewrite lookup_insert_eq.
    destruct (Difflib.index_elements b !! x) as [l|]; simpl.
    + destruct IH as [Hs Hl]. split.
      * apply StronglySorted_app. split; [|split]; [|done|repeat constructor].
        intros j1 j2 Hj1 ->%list_elem_of_singleton.
        apply Hl in Hj1. by apply lookup_lt_Some in Hj1.
      * intros j. rewrite elem_of_app, list_elem_of_singleton, Hl.
        split.
        -- intros [Hj| ->]; [by apply lookup_app_l_Some|].
           by rewrite lookup_app_r, Nat.sub_diag.
        -- intros Hj. destruct (decide (j < length b)) as [Hlt|Hge].
           ++ left. by rewrite lookup_app_l in Hj.
           ++ right. apply lookup_lt_Some in Hj.
              rewrite length_app in Hj. simpl in Hj. lia.
    + split; [repeat constructor|].
      intros j. rewrite list_elem_of_singleton. split.
      * intros ->. by rewrite lookup_app_r, Nat.sub_diag.
      * intros Hj. destruct (decide (j < length b)) as [Hlt|Hge].
        -- rewrite lookup_app_l in Hj by done. by apply IH in Hj.
        -- apply lookup_lt_Some in Hj.
           rewrite length_app in Hj. simpl in Hj. lia.
  - rewrite lookup_insert_ne by done.
    assert (∀ j, (b ++ [y]) !! j = Some x ↔ b !! j = Some x) as Hl.
    { intros j. destruct (decide (j < length b)) as [Hlt|Hge].
      - by rewrite lookup_app_l.
      - rewrite lookup_app_r by lia.
        rewrite (lookup_ge_None_2 b) by lia.
        destruct (j - length b) as [|k]; simpl; [|done].
        split; [|done]. by intros [= ->]. }
    destruct (Difflib.index_elements b !! x) as [l|].
    + destruct IH as [Hs Hl']. split; [done|].
      intros j. by rewrite Hl.
    + intros j. by rewrite Hl.
Qed.

Lemma new_matcher_fields (a b : list A) :
  let m := Difflib.new_matcher a b in
  Difflib.seq_a m = a ∧ Difflib.seq_b m = b ∧ Difflib.bjunk m = ∅ ∧
  indexes b (Difflib.b2j m).
Proof.
  unfold Difflib.new_matcher, Difflib.chain_b. simpl.
  split; [done|]. split; [done|]. split; [done|].
  intros x l Hl. apply map_lookup_filter_Some in Hl as [Hl _].
  pose proof (index_elements_spec b x) as Hs. by rewrite Hl in Hs.
Qed.

End ChainB.
(** ** Matching a sequence against itself *)

Section SameSequence.
Context `{Countable A}.
Variable m : Difflib.SequenceMatcher (A:=A).
Hypothesis Hsame : Difflib.seq_a m = Difflib.seq_b m.
Hypothesis Hjunk : Difflib.bjunk m = ∅.
Hypothesis Hindex : indexes (Difflib.seq_b m) (Difflib.b2j m).

Local Abbreviation n := (length (Difflib.seq_b m)).

Lemma run_kept j : kept m j = true → run m j = run_before m j + 1.
Proof. intros Hk. destruct j; simpl; by rewrite Hk. Qed.

Lemma run_not_kept j : kept m j = false → run m j = 0.
Proof. intros Hk. destruct j; simpl; by rewrite Hk. Qed.

Lemma j2len_get_default j2len j :
  Difflib.j2len_get j2len (S j) = default 0 (j2len !! j).
Proof. done. Qed.

Lemma scan_row_same i j2len js new best :
  kept m i = true →
  (∀ j, default 0 (j2len !! j) ≤ run m j) →
  (∀ j, default 0 (j2len !! j) ≤ run_before m i) →
  Difflib.j2len_get j2len i = run_before m i →
  StronglySorted lt js →
  Forall (λ j, kept m j = true ∧ j < n) js →
  scan_inv m i js new best →
  let r := Difflib.scan_row i 0 n j2len js new best in
  scan_inv m i [] r.1 r.2.
Proof.
  intros Hi Ha Hb Hc. revert new best.
  induction js as [|j js IH]; intros new best Hs Hjs Hinv;
    cbn [Difflib.scan_row]; [done|].
  apply StronglySorted_cons in Hs as [Hlt Hs].
  apply Forall_cons in Hjs as [[Hj Hjn] Hjs].
  rewrite (bool_decide_eq_false_2 (j < 0)) by lia.
  rewrite (bool_decide_eq_false_2 (n ≤ j)) by lia.
  apply IH; [done|done|].
  destruct Hinv as (H1 & H2 & H3 & H4 & H5 & H6).
  set (k := Difflib.j2len_get j2len j + 1).
  assert (Difflib.j2len_get j2len j ≤ run_before m j) as Hk1.
  { destruct j as [|j']; [done|]. apply Ha. }
  assert (Difflib.j2len_get j2len j ≤ run_before m i) as Hk2.
  { destruct j as [|j']; [simpl; lia|]. apply Hb. }
  pose proof (run_kept j Hj) as Hrj. pose proof (run_kept i Hi) as Hri.
  assert (i ∈ js ∨ j = i ∨ (j ≠ i ∧ ¬ i ∈ j :: js)) as Hcase.
  { destruct (decide (j = i)); [by auto|].
    destruct (decide (i ∈ js)); [by auto|].
    right. right. split; [done|]. by intros [?|?]%elem_of_cons. }
  assert (i < j → ¬ i ∈ j :: js) as Hpast.
  { intros Hij [->|Hin]%elem_of_cons; [lia|].
    rewrite Forall_forall in Hlt. specialize (Hlt i Hin). lia. }
  repeat split.
  - intros j0. rewrite lookup_insert. case_decide; [|apply H1].
    subst. simpl. lia.
  - intros j0. rewrite lookup_insert. case_decide; [|apply H2].
    subst. simpl. lia.
  - destruct Hcase as [?|[->|[Hne Hnot]]]; [by left|..].
    + right. rewrite lookup_insert_eq. simpl. subst k. rewrite Hc. lia.
    + right. rewrite lookup_insert_ne by done.
      by destruct H3 as [?|?].
  - case_bool_decide as Hup; [|done]. simpl.
    destruct (Nat.lt_trichotomy j i) as [Hji|[->|Hij]]; [|done|].
    + specialize (H5 j Hji). lia.
    + apply Hpast in Hij. destruct H6 as [?|?]; [done|]. lia.
  - intros x Hx. specialize (H5 x Hx). case_bool_decide; simpl; lia.
  - destruct Hcase as [?|[->|[Hne Hnot]]]; [by left|..].
    + right. case_bool_decide; simpl; subst k; rewrite ?Hc; lia.
    + right. destruct H6 as [?|?]; [done|]. case_bool_decide; simpl; lia.
Qed.

Lemma row_indices_same i :
  i < n →
  if kept m i
  then StronglySorted lt (Difflib.row_indices m i) ∧
       Forall (λ j, kept m j = true ∧ j < n) (Difflib.row_indices m i) ∧
       i ∈ Difflib.row_indices m i
  else Difflib.row_indices m i = [].
Proof.
  intros Hi. unfold kept, Difflib.row_indices. rewrite Hsame.
  destruct (Difflib.seq_b m !! i) as [x|] eqn:Ex; [|done].
  destruct (Difflib.b2j m !! x) as [l|] eqn:El; simpl.
  - destruct (Hindex x l El) as [Hs Hl].
    split; [done|]. split; [|by apply Hl].
    apply Forall_forall. intros j Hj. apply Hl in Hj.
    split; [|by apply lookup_lt_Some in Hj].
    unfold kept. rewrite Hj, El. apply bool_decide_eq_true_2. eauto.
  - done.
Qed.

Lemma longest_junk_free_same_rows s k j2len best :
  s + k ≤ n →
  row_inv m s j2len best →
  let r := foldl (λ '(j2len, best) i,
                    Difflib.scan_row i 0 n j2len (Difflib.row_indices m i) ∅ best)
                 (j2len, best) (seq s k) in
  r.2.1.1 = r.2.1.2.
Proof.
  revert s j2len best.
  induction k as [|k IH]; intros s j2len best Hs Hinv; simpl.
  { apply Hinv. }
  destruct Hinv as (Ha & Hb & Hc & Hd & He).
  pose proof (row_indices_same s) as Hrow.
  lapply Hrow; [clear Hrow; intros Hrow|lia].
  destruct (kept m s) eqn:Hk.
  - destruct Hrow as (Hsorted & Hall & Hin).
    pose proof (scan_row_same s j2len (Difflib.row_indices m s) ∅ best
                  Hk Ha Hb Hc Hsorted Hall) as Hscan.
    lapply Hscan; [clear Hscan; intros Hscan|].
    2:{ repeat split; try done; try (by left); intros j;
        rewrite lookup_empty; simpl; lia. }
    simpl in Hscan.
    destruct (Difflib.scan_row s 0 n j2len (Difflib.row_indices m s) ∅ best)
      as [new best'].
    destruct Hscan as (H1 & H2 & H3 & H4 & H5 & H6).
    simpl in *. rewrite elem_of_nil in H3, H6.
    apply IH; [lia|]. repeat split; try done.
    + by destruct H3.
    + intros x Hx. destruct (decide (x = s)) as [->|]; [|apply H5; lia].
      by destruct H6.
  - rewrite Hrow. simpl. apply IH; [lia|].
    pose proof (run_not_kept s Hk) as Hr0.
    repeat split; try done.
    + intros j. rewrite lookup_empty. simpl. lia.
    + intros j. rewrite lookup_empty. simpl. lia.
    + intros x Hx. destruct (decide (x = s)) as [->|]; [lia|apply He; lia].
Qed.

Lemma extends_same x : x < n → Difflib.extends m false x x = true.
Proof.
  intros Hx. unfold Difflib.extends. rewrite Hsame.
  destruct (lookup_lt_is_Some_2 (Difflib.seq_b m) x Hx) as [e ->].
  rewrite Hjunk. rewrite (bool_decide_eq_false_2 (e ∈ ∅)) by set_solver.
  by rewrite !bool_decide_eq_true_2.
Qed.

Lemma extend_left_same besti bestsize :
  besti ≤ n →
  Difflib.extend_left m false 0 0 besti besti bestsize
  = (0, 0, bestsize + besti).
Proof.
  revert bestsize. induction besti as [|i IH]; intros bestsize Hi;
    cbn [Difflib.extend_left].
  { by rewrite Nat.add_0_r. }
  rewrite extends_same by lia.
  rewrite !(bool_decide_eq_true_2 (0 < S i)) by lia. cbn [andb].
  rewrite IH by lia. f_equal. lia.
Qed.

Lemma extend_right_same fuel bestsize :
  bestsize + fuel = n →
  Difflib.extend_right m false n n 0 0 fuel bestsize = n.
Proof.
  revert bestsize. induction fuel as [|fuel IH]; intros bestsize Hn;
    cbn [Difflib.extend_right].
  { lia. }
  rewrite extends_same by lia.
  rewrite !(bool_decide_eq_true_2 (0 + bestsize < n)) by lia. cbn [andb].
  apply IH. lia.
Qed.

(** The longest match of a sequence with itself is the whole sequence. *)
Lemma find_longest_match_same :
  Difflib.find_longest_match m 0 n 0 n = (0, 0, n).
Proof.
  unfold Difflib.find_longest_match.
  pose proof (longest_junk_free_in_window m 0 n 0 n) as Hw.
  assert ((Difflib.longest_junk_free m 0 n 0 n).1.1
          = (Difflib.longest_junk_free m 0 n 0 n).1.2) as Hd.
  { unfold Difflib.longest_junk_free. rewrite Nat.sub_0_r.
    apply longest_junk_free_same_rows; [lia|].
    repeat split; try done; intros; rewrite ?lookup_empty; simpl; lia. }
  destruct (Difflib.longest_junk_free m 0 n 0 n) as [[bi bj] bs].
  simpl in Hd. subst bj.
  unfold in_window in Hw. simpl in Hw.
  rewrite extend_left_same by lia.
  rewrite extend_right_same by lia.
  simpl. by rewrite Nat.sub_diag.
Qed.

Lemma get_matching_blocks_same :
  Difflib.get_matching_blocks m
  = if bool_decide (n ≠ 0) then [(0, 0, n); (n, n, 0)] else [(n, n, 0)].
Proof.
  unfold Difflib.get_matching_blocks. rewrite Hsame.
  replace (2 * n + 1) with (S (2 * n)) by lia.
  cbn [Difflib.queue_loop Difflib.queue_step].
  rewrite find_longest_match_same.
  case_bool_decide as Hn.
  - rewrite (bool_decide_eq_false_2 (0 < 0 ∧ 0 < 0)) by lia.
    rewrite (bool_decide_eq_false_2 (0 + n < n ∧ 0 + n < n)) by lia.
    destruct (2 * n); cbn [Difflib.queue_loop app snd];
      unfold Difflib.collapse_finish; simpl;
      by rewrite bool_decide_eq_true_2.
  - destruct (2 * n); cbn [Difflib.queue_loop app snd];
      unfold Difflib.collapse_finish; simpl; done.
Qed.

Lemma ratio_same : (Difflib.ratio m == 1)%Q.
Proof.
  unfold Difflib.ratio. rewrite get_matching_blocks_same, Hsame.
  unfold Difflib.calculate_ratio.
  case_bool_decide as Hn; simpl.
  - rewrite bool_decide_eq_true_2 by lia.
    unfold Qeq. simpl.
    rewrite Z.mul_1_r, Z.mul_1_l.
    assert (∀ k, k ≠ 0 → Z.pos (Pos.of_nat k) = Z.of_nat k) as Hpos.
    { intros k Hk. by rewrite <- Znat.positive_nat_Z, Pnat.Nat2Pos.id. }
    rewrite Hpos by lia. f_equal. lia.
  - reflexivity.
Qed.

End SameSequence.


(** C4, the part that holds.  For every text [a],
    [calculate_similarity(a, a)] is exactly 1. *)
Theorem calculate_similarity_identical (a : str) :
  (calculate_similarity a a == 1)%Q.
Proof.
  unfold calculate_similarity.
  destruct (new_matcher_fields a a) as (Ha & Hb & Hj & Hi).
  apply ratio_same; [by rewrite Ha, Hb|done|by rewrite Hb].
Qed.

(** C4 as stated fails: the ratio depends on the order of the arguments.
    [calculate_similarity("tide", "diet")] is 1/4 and
    [calculate_similarity("diet", "tide")] is 1/2. *)
Lemma calculate_similarity_not_symmetric :
  (calculate_similarity (lit "tide") (lit "diet") == 1 # 4)%Q ∧
  (calculate_similarity (lit "diet") (lit "tide") == 1 # 2)%Q ∧
  ¬ (calculate_similarity (lit "tide") (lit "diet")
     == calculate_similarity (lit "diet") (lit "tide"))%Q.
Proof.
  split; [by vm_compute|]. split; [by vm_compute|].
  vm_compute. discriminate.
Qed.
(** ** Comparing links *)

#[local] Set Warnings "-clear-no-such-hyp".

Lemma norm_links_fold (links : list Link) (base_url : str)
    (d : gmap str Link) :
  let f := λ (d : gmap str Link) link,
             match normalize_url (url link) base_url with
             | Some norm_url => <[norm_url := link]> d
             | None => d
             end in
  dom (foldl f d links) = dom d ∪ normalized_keys links base_url ∧
  (∀ k link, foldl f d links !! k = Some link →
     d !! k = Some link ∨ key_of base_url link = Some k) ∧
  foldl f d links = foldl f d (normalizable base_url links).
Proof.
  intros f. revert d. induction links as [|x links IH]; intros d.
  { unfold normalized_keys. simpl. split; [set_solver|]. split; [by left|done]. }
  unfold normalized_keys, normalizable, key_of in *.
  cbn [foldl omap list_omap]. rewrite filter_cons.
  assert (f d x = match normalize_url (url x) base_url with
                  | Some k => <[k := x]> d
                  | None => d
                  end) as Hf by done.
  destruct (normalize_url (url x) base_url) as [k|] eqn:Ek.
  - rewrite decide_True by eauto. cbn [foldl]. rewrite Hf.
    assert (f d x = <[k := x]> d) as Hf' by (by rewrite Hf).
    destruct (IH (<[k := x]> d)) as (Hdom & Hlook & Hfilt).
    split; [|split].
    + rewrite Hdom, dom_insert_L, list_to_set_cons. set_solver.
    + intros k' link Hl. apply Hlook in Hl as [Hl|Hl]; [|by right].
      rewrite lookup_insert in Hl. case_decide; [|by left].
      right. by simplify_eq.
    + apply Hfilt.
  - rewrite decide_False by (by intros [??]). rewrite Hf.
    destruct (IH d) as (Hdom & Hlook & Hfilt).
    split; [done|]. split; [apply Hlook|apply Hfilt].
Qed.

Lemma norm_links_dom (links : list Link) (base_url : str) :
  dom (norm_links links base_url) = normalized_keys links base_url.
Proof.
  unfold norm_links.
  destruct (norm_links_fold links base_url ∅) as (-> & _).
  rewrite dom_empty_L. set_solver.
Qed.

Lemma norm_links_lookup (links : list Link) (base_url : str) k link :
  norm_links links base_url !! k = Some link →
  key_of base_url link = Some k.
Proof.
  unfold norm_links. intros Hl.
  destruct (norm_links_fold links base_url ∅) as (_ & Hlook & _).
  apply Hlook in Hl as [Hl|Hl]; [|done]. by rewrite lookup_empty in Hl.
Qed.

Lemma norm_links_normalizable (links : list Link) (base_url : str) :
  norm_links links base_url = norm_links (normalizable base_url links) base_url.
Proof.
  unfold norm_links.
  by destruct (norm_links_fold links base_url ∅) as (_ & _ & ->).
Qed.

Lemma lookup_keys (links : list Link) (base_url : str) (ks : list str) :
  Forall (λ k, k ∈ dom (norm_links links base_url)) ks →
  omap (key_of base_url) (omap (λ k, norm_links links base_url !! k) ks) = ks ∧
  length (omap (λ k, norm_links links base_url !! k) ks) = length ks.
Proof.
  induction 1 as [|k ks Hk _ [IH1 IH2]]; [done|].
  apply elem_of_dom in Hk as [link Hlink].
  cbn [omap list_omap]. rewrite Hlink. cbn [omap list_omap].
  rewrite (norm_links_lookup _ _ _ _ Hlink). simpl.
  split; [by f_equal|by f_equal].
Qed.

Lemma sorted_links_keys (links : list Link) (base_url : str)
    (ks : gset str) :
  ks ⊆ dom (norm_links links base_url) →
  omap (key_of base_url) (sorted_links (norm_links links base_url) ks)
    ≡ₚ elements ks ∧
  length (sorted_links (norm_links links base_url) ks) = size ks.
Proof.
  intros Hsub. unfold sorted_links.
  destruct (lookup_keys links base_url (elements ks)) as [Hk Hlen].
  { apply Forall_forall. intros k Hk. apply Hsub. by apply elem_of_elements. }
  split.
  - rewrite merge_sort_Permutation. by rewrite Hk.
  - rewrite merge_sort_Permutation. by rewrite Hlen.
Qed.

Lemma sorted_links_key_set (links : list Link) (base_url : str)
    (ks : gset str) :
  ks ⊆ dom (norm_links links base_url) →
  normalized_keys (sorted_links (norm_links links base_url) ks) base_url = ks ∧
  NoDup (omap (key_of base_url)
              (sorted_links (norm_links links base_url) ks)).
Proof.
  intros Hsub. destruct (sorted_links_keys links base_url ks Hsub) as [Hp _].
  unfold normalized_keys. rewrite Hp. split.
  - apply list_to_set_elements_L.
  - apply NoDup_elements.
Qed.

Lemma size_split (X Y : gset str) : size (X ∖ Y) + size (X ∩ Y) = size X.
Proof.
  rewrite <- size_union by set_solver. f_equal.
  apply set_eq. intros k. destruct (decide (k ∈ Y)); set_solver.
Qed.

Lemma size_list_to_set_le (l : list str) :
  size (list_to_set l : gset str) ≤ length l.
Proof.
  induction l as [|x l IH].
  { by rewrite list_to_set_nil, size_empty. }
  rewrite list_to_set_cons. cbn [length].
  destruct (decide (x ∈ (list_to_set l : gset str))) as [Hin|Hout].
  - replace ({[x]} ∪ list_to_set l) with (list_to_set l : gset str)
      by set_solver. lia.
  - rewrite size_union by set_solver. rewrite size_singleton. lia.
Qed.

Lemma length_omap_le {A B} (f : A → option B) (l : list A) :
  length (omap f l) ≤ length l.
Proof.
  induction l as [|x l IH]; [done|].
  cbn [omap list_omap]. destruct (f x); cbn [length]; fold (omap f l); lia.
Qed.

Lemma compare_links_keys (links1 links2 : list Link)
    (base_url1 base_url2 : str) :
  let r := compare_links links1 links2 base_url1 base_url2 in
  normalized_keys (only_in_v1 r) base_url1
    = normalized_keys links1 base_url1 ∖ normalized_keys links2 base_url2 ∧
  normalized_keys (only_in_v2 r) base_url2
    = normalized_keys links2 base_url2 ∖ normalized_keys links1 base_url1 ∧
  normalized_keys (in_both r) base_url1
    = normalized_keys links1 base_url1 ∩ normalized_keys links2 base_url2.
Proof.
  cbv zeta. unfold compare_links. cbv zeta.
  cbn [only_in_v1 only_in_v2 in_both].
  rewrite <- (norm_links_dom links1 base_url1),
    <- (norm_links_dom links2 base_url2).
  set (D1 := dom (norm_links links1 base_url1)).
  set (D2 := dom (norm_links links2 base_url2)).
  destruct (sorted_links_key_set links1 base_url1 (D1 ∖ D2)) as [-> _];
    [subst D1; set_solver|].
  destruct (sorted_links_key_set links2 base_url2 (D2 ∖ D1)) as [-> _];
    [subst D2; set_solver|].
  destruct (sorted_links_key_set links1 base_url1 (D1 ∩ D2)) as [-> _];
    [subst D1; set_solver|].
  done.
Qed.

(** C5. The three lists of [compare_links] hold, each key once, the keys
    of [links1] only, of [links2] only, and of both: their key sets are
    pairwise disjoint and cover the keys of both sides, and the lengths add
    up to the numbers of distinct normalised keys. *)
Theorem compare_links_partition (links1 links2 : list Link)
    (base_url1 base_url2 : str) :
  let r := compare_links links1 links2 base_url1 base_url2 in
  let k1 := normalized_keys (only_in_v1 r) base_url1 in
  let k2 := normalized_keys (only_in_v2 r) base_url2 in
  let kb := normalized_keys (in_both r) base_url1 in
  k1 ## k2 ∧ k1 ## kb ∧ k2 ## kb ∧
  k1 ∪ k2 ∪ kb
    = normalized_keys links1 base_url1 ∪ normalized_keys links2 base_url2 ∧
  NoDup (omap (key_of base_url1) (only_in_v1 r)) ∧
  NoDup (omap (key_of base_url2) (only_in_v2 r)) ∧
  NoDup (omap (key_of base_url1) (in_both r)) ∧
  length (only_in_v1 r) + length (in_both r)
    = size (normalized_keys links1 base_url1) ∧
  length (only_in_v2 r) + length (in_both r)
    = size (normalized_keys links2 base_url2).
Proof.
  cbv zeta. unfold compare_links. cbv zeta.
  cbn [only_in_v1 only_in_v2 in_both].
  rewrite <- (norm_links_dom links1 base_url1),
    <- (norm_links_dom links2 base_url2).
  set (D1 := dom (norm_links links1 base_url1)).
  set (D2 := dom (norm_links links2 base_url2)).
  destruct (sorted_links_key_set links1 base_url1 (D1 ∖ D2)) as [-> ?];
    [subst D1; set_solver|].
  destruct (sorted_links_key_set links2 base_url2 (D2 ∖ D1)) as [-> ?];
    [subst D2; set_solver|].
  destruct (sorted_links_key_set links1 base_url1 (D1 ∩ D2)) as [-> ?];
    [subst D1; set_solver|].
  destruct (sorted_links_keys links1 base_url1 (D1 ∖ D2)) as [_ ->];
    [subst D1; set_solver|].
  destruct (sorted_links_keys links2 base_url2 (D2 ∖ D1)) as [_ ->];
    [subst D2; set_solver|].
  destruct (sorted_links_keys links1 base_url1 (D1 ∩ D2)) as [_ ->];
    [subst D1; set_solver|].
  clearbody D1 D2.
  repeat split; try done; try set_solver.
  - apply set_eq. intros k.
    destruct (decide (k ∈ D1)); destruct (decide (k ∈ D2)); set_solver.
  - apply size_split.
  - rewrite (comm_L (∩) D1). apply size_split.
Qed.
(** ** Searching a string *)

Ltac in_list := solve [done | rewrite !elem_of_cons; auto 20].

Lemma find_absent c (s : str) : c ∉ s → Py.find c s = None.
Proof.
  induction s as [|x s IH]; [done|]. intros Hc. cbn [Py.find].
  rewrite bool_decide_eq_false_2 by (intros ->; apply Hc; by left).
  rewrite IH; [done|]. intros ?. apply Hc. by right.
Qed.

Lemma find_present c (s : str) i :
  Py.find c s = Some i → i < length s ∧ c ∉ take i s.
Proof.
  revert i. induction s as [|x s IH]; intros i; [done|]. cbn [Py.find].
  case_bool_decide as Hx.
  - intros [= <-]. simpl. split; [lia|]. apply not_elem_of_nil.
  - destruct (Py.find c s) as [j|]; [|done]. simpl. intros [= <-].
    destruct (IH j eq_refl) as [? ?]. simpl. split; [lia|].
    rewrite elem_of_cons. intros [->|?]; done.
Qed.

(** ** The check of the netloc under NFKC *)

Lemma replace_char_subseteq b (s : str) : replace_char b [] s ⊆ s.
Proof.
  unfold replace_char. intros c (x & Hc & Hx)%list_elem_of_bind.
  case_decide; [by apply elem_of_nil in Hc|].
  by apply list_elem_of_singleton in Hc as ->.
Qed.

Lemma replace_char_removed b (s : str) : b ∉ replace_char b [] s.
Proof.
  unfold replace_char. intros (x & Hc & Hx)%list_elem_of_bind.
  case_decide as Hb; [by apply elem_of_nil in Hc|].
  apply list_elem_of_singleton in Hc. by subst.
Qed.

(** On the Latin-1 range the normal form of a character holds one of
    [/?#@:] only when the character is that one. *)
Lemma nfkc_char_delimiter (c : ascii) (x : N) :
  x ∈ [47; 63; 35; 64; 58]%N → x ∈ Urllib.nfkc_char c →
  c ∈ ["/"; "?"; "#"; "@"; ":"]%char.
Proof.
  intros Hx Hc.
  assert (x ∈ Urllib.nfkc_char c → x ∈ [47; 63; 35; 64; 58]%N →
          bool_decide (c ∈ ["/"; "?"; "#"; "@"; ":"]%char) = true) as Hb.
  { clear. destruct c as [[] [] [] [] [] [] [] []]; vm_compute Urllib.nfkc_char;
      rewrite ?elem_of_cons, ?elem_of_nil; intros Hc Hx;
      try reflexivity; exfalso; destruct_or?; subst; destruct_or?;
      try done. }
  specialize (Hb Hc Hx). by apply bool_decide_eq_true in Hb.
Qed.

(** On strings of the Latin-1 range [_checknetloc] never raises for a
    netloc without a slash. *)
Lemma checknetloc_ok (netloc : str) :
  "/"%char ∉ netloc → Urllib.checknetloc netloc = true.
Proof.
  intros Hslash. unfold Urllib.checknetloc.
  destruct (bool_decide (netloc = []) || Py.isascii netloc); [done|].
  cbv zeta.
  set (n := replace_char "?" [] (replace_char "#" []
              (replace_char ":" [] (replace_char "@" [] netloc)))).
  case_bool_decide; [done|]. apply negb_true_iff.
  assert (∀ c, c ∈ ["/"; "?"; "#"; "@"; ":"]%char → c ∉ n) as Hn.
  { intros c Hc Hin. subst n.
    rewrite !elem_of_cons, elem_of_nil in Hc.
    destruct Hc as [->|[->|[->|[->|[->|[]]]]]].
    - by do 4 apply replace_char_subseteq in Hin.
    - by apply replace_char_removed in Hin.
    - apply replace_char_subseteq in Hin.
      by apply replace_char_removed in Hin.
    - do 3 apply replace_char_subseteq in Hin.
      by apply replace_char_removed in Hin.
    - do 2 apply replace_char_subseteq in Hin.
      by apply replace_char_removed in Hin. }
  assert (∀ x, x ∈ [47; 63; 35; 64; 58]%N → x ∉ Urllib.nfkc n) as Hx.
  { intros x Hx (c & Hc & Hin)%list_elem_of_bind.
    by apply (Hn c (nfkc_char_delimiter c x Hx Hc)). }
  clearbody n. change (lit "/?#@:") with ["/"; "?"; "#"; "@"; ":"]%char.
  cbn [existsb].
  rewrite !bool_decide_eq_false_2; [done|..];
    apply Hx; vm_compute N_of_ascii; in_list.
Qed.

(** The check is not void: it rejects a netloc whose normal form differs
    and holds a slash. *)
Lemma checknetloc_rejects :
  Urllib.checknetloc ["/"; "170"]%char = false.
Proof. reflexivity. Qed.

Lemma find_from_bound c start (url : str) i :
  Py.find_from c start url = Some i →
  start ≤ i ∧ c ∉ take (i - start) (drop start url).
Proof.
  unfold Py.find_from. destruct (Py.find c (drop start url)) as [k|] eqn:E;
    [|done].
  intros [= <-]. apply find_present in E as [_ E].
  split; [lia|]. by replace (start + k - start) with k by lia.
Qed.

(** The netloc [_splitnetloc] cuts off holds none of [/?#]. *)
Lemma splitnetloc_no_delimiter (url : str) start c :
  c ∈ ["/"; "?"; "#"]%char → c ∉ (Urllib.splitnetloc url start).1.
Proof.
  intros Hc. unfold Urllib.splitnetloc, slice. cbn [fst].
  change (lit "/?#") with ["/"; "?"; "#"]%char. cbn [foldl].
  set (d0 := length url).
  set (d1 := match Py.find_from "/" start url with
             | Some w => d0 `min` w | None => d0 end).
  set (d2 := match Py.find_from "?" start url with
             | Some w => d1 `min` w | None => d1 end).
  set (d3 := match Py.find_from "#" start url with
             | Some w => d2 `min` w | None => d2 end).
  assert (∀ x k, Py.find_from x start url = Some k → d3 ≤ k →
            x ∉ take (d3 - start) (drop start url)) as Hfound.
  { intros x k Hk Hle Hin. apply find_from_bound in Hk as [Hs Hk].
    apply Hk.
    replace (d3 - start) with ((d3 - start) `min` (k - start)) in Hin by lia.
    rewrite <- take_take in Hin. by apply subseteq_take in Hin. }
  assert (∀ x, Py.find_from x start url = None →
            x ∉ take (d3 - start) (drop start url)) as Habsent.
  { intros x Hx Hin. unfold Py.find_from in Hx.
    destruct (Py.find x (drop start url)) as [k|] eqn:E; [done|].
    assert (x ∈ drop start url) as Hd by (by apply subseteq_take in Hin).
    clear -E Hd. induction (drop start url) as [|y l IH]; [by apply elem_of_nil in Hd|].
    cbn [Py.find] in E. case_bool_decide as Hy; [done|].
    destruct (Py.find x l); [done|].
    apply elem_of_cons in Hd as [->|Hd]; [done|]. by apply IH. }
  rewrite !elem_of_cons, elem_of_nil in Hc.
  destruct Hc as [->|[->|[->|[]]]].
  - destruct (Py.find_from "/" start url) as [k|] eqn:E;
      [|by apply Habsent].
    apply (Hfound _ k E). subst d3 d2 d1.
    repeat destruct (Py.find_from _ _ _); lia.
  - destruct (Py.find_from "?" start url) as [k|] eqn:E;
      [|by apply Habsent].
    apply (Hfound _ k E). subst d3 d2.
    repeat destruct (Py.find_from _ _ _); lia.
  - destruct (Py.find_from "#" start url) as [k|] eqn:E;
      [|by apply Habsent].
    apply (Hfound _ k E). subst d3.
    repeat destruct (Py.find_from _ _ _); lia.
Qed.

Lemma netloc_end_no_slash (rest : str) :
  "/"%char ∉ take (netloc_end rest) rest.
Proof.
  unfold netloc_end. destruct (Py.find "/" rest) as [i|] eqn:E; simpl.
  - by apply find_present in E as [_ ?].
  - rewrite firstn_all. intros Hin. clear -E Hin.
    induction rest as [|y l IH]; [by apply elem_of_nil in Hin|].
    cbn [Py.find] in E. case_bool_decide as Hy; [done|].
    destruct (Py.find "/" l); [done|].
    apply elem_of_cons in Hin as [Heq|Hd]; [congruence|]. by apply IH.
Qed.
(** ** Normalising URLs *)

#[local] Set Warnings "-clear-no-such-hyp".

Lemma lstrip_spec (c : ascii) (s : str) :
  ∃ n, s = replicate n c ++ Py.lstrip [c] s ∧ head (Py.lstrip [c] s) ≠ Some c.
Proof.
  induction s as [|x s (n & Hs & Hh)]; [by exists 0|].
  cbn [Py.lstrip]. case_bool_decide as Hx.
  - apply list_elem_of_singleton in Hx as ->.
    exists (S n). by rewrite Hs at 1.
  - exists 0. split; [done|]. simpl. intros [= ->]. apply Hx. by left.
Qed.

Lemma rstrip_spec (c : ascii) (s : str) :
  ∃ n, s = Py.rstrip [c] s ++ replicate n c ∧ last (Py.rstrip [c] s) ≠ Some c.
Proof.
  unfold Py.rstrip. destruct (lstrip_spec c (reverse s)) as (n & Hs & Hh).
  exists n. split.
  - rewrite <- (reverse_involutive s) at 1. rewrite Hs at 1.
    by rewrite reverse_app, reverse_replicate.
  - by rewrite last_reverse.
Qed.

Lemma lower_char_slash c : Py.lower_char c = "/"%char → c = "/"%char.
Proof. by destruct c as [[] [] [] [] [] [] [] []]. Qed.

Lemma lower_char_idemp c : Py.lower_char (Py.lower_char c) = Py.lower_char c.
Proof. by destruct c as [[] [] [] [] [] [] [] []]. Qed.

Lemma lower_idemp s : Py.lower (Py.lower s) = Py.lower s.
Proof.
  unfold Py.lower. rewrite <- list_fmap_compose.
  apply list_fmap_ext. intros _ c _. apply lower_char_idemp.
Qed.

Lemma last_lower s : last (Py.lower s) = Py.lower_char <$> last s.
Proof. unfold Py.lower. by rewrite fmap_last. Qed.

Lemma normalize_url_unfold url base_url :
  normalize_url url base_url
  = (absolute ← absolute_url url base_url;
     parsed ← Urllib.urlparse absolute [];
     Some (Py.lower (Py.rstrip ["/"%char] (reassemble parsed)))).
Proof. done. Qed.

Lemma absolute_url_no_base url : absolute_url url [] = Some url.
Proof. unfold absolute_url. by destruct (_ || _). Qed.

(** C3, as the code has it.  When [normalize_url] returns, the result is
    the absolute URL's [scheme://netloc path], with [?query] when the query
    is not empty, less all its trailing slashes, in lower case; it never
    ends with a slash. *)
Theorem normalize_url_shape (url base_url r : str) :
  normalize_url url base_url = Some r →
  ∃ absolute parsed t n,
    absolute_url url base_url = Some absolute ∧
    Urllib.urlparse absolute [] = Some parsed ∧
    Urllib.scheme parsed ++ lit "://" ++ Urllib.netloc parsed
      ++ Urllib.path parsed
      ++ (if bool_decide (Urllib.query parsed = []) then []
          else lit "?" ++ Urllib.query parsed)
    = t ++ replicate n "/"%char ∧
    last t ≠ Some "/"%char ∧
    r = Py.lower t ∧
    last r ≠ Some "/"%char ∧
    Py.lower r = r.
Proof.
  rewrite normalize_url_unfold. intros Hr.
  destruct (absolute_url url base_url) as [absolute|] eqn:Ea;
    cbn [mbind option_bind] in Hr; [|done].
  destruct (Urllib.urlparse absolute []) as [parsed|] eqn:Ep;
    cbn [mbind option_bind] in Hr; [|done].
  injection Hr as <-.
  destruct (rstrip_spec "/" (reassemble parsed)) as (n & Hs & Hl).
  exists absolute, parsed, (Py.rstrip ["/"%char] (reassemble parsed)), n.
  split; [done|]. split; [done|]. split.
  { rewrite <- Hs. unfold reassemble.
    case_bool_decide; cbn [negb]; rewrite ?app_nil_r, <- ?app_assoc;
      repeat f_equal; by rewrite <- ?app_assoc. }
  split; [done|]. split; [done|]. split.
  - rewrite last_lower.
    destruct (last (Py.rstrip ["/"%char] (reassemble parsed))) as [c|] eqn:El;
      [|done].
    simpl. intros [= Hc]. apply lower_char_slash in Hc. by subst.
  - apply lower_idemp.
Qed.

(** The theorem at a URL with a query and two trailing slashes. *)
Lemma normalize_url_shape_witness :
  ∃ absolute parsed t n,
    absolute_url (lit "HTTP://Example.com/A/B?x=1//") [] = Some absolute ∧
    Urllib.urlparse absolute [] = Some parsed ∧
    Urllib.scheme parsed ++ lit "://" ++ Urllib.netloc parsed
      ++ Urllib.path parsed
      ++ (if bool_decide (Urllib.query parsed = []) then []
          else lit "?" ++ Urllib.query parsed)
    = t ++ replicate n "/"%char ∧
    last t ≠ Some "/"%char ∧
    lit "http://example.com/a/b?x=1" = Py.lower t ∧
    last (lit "http://example.com/a/b?x=1") ≠ Some "/"%char ∧
    Py.lower (lit "http://example.com/a/b?x=1")
    = lit "http://example.com/a/b?x=1".
Proof.
  apply (normalize_url_shape (lit "HTTP://Example.com/A/B?x=1//") []
           (lit "http://example.com/a/b?x=1")).
  vm_compute. reflexivity.
Defined.

(** C3 as stated fails: a path that ends in two slashes keeps none of
    them, where the claim keeps one. *)
Lemma normalize_url_strips_every_slash :
  normalize_url (lit "http://example.com/a//") []
    = Some (lit "http://example.com/a") ∧
  normalize_url (lit "http://example.com/a//") []
    ≠ Some (lit "http://example.com/a/").
Proof. split; [by vm_compute|]. vm_compute. discriminate. Qed.

(** C6.  [normalize_url] raises exactly when making the URL absolute or
    parsing the absolute URL raises (with no base: exactly when [urlparse]
    of the URL raises).  [compare_links] returns for all inputs; it returns
    what it returns on the links that normalise, and the keys of its lists
    are all the keys of the links that normalise, on each side. *)
Theorem normalization_failure_drops_one_link :
  (∀ url base_url,
     normalize_url url base_url = None ↔
     (absolute ← absolute_url url base_url; Urllib.urlparse absolute []) = None) ∧
  (∀ url, normalize_url url [] = None ↔ Urllib.urlparse url [] = None) ∧
  (∀ links1 links2 base_url1 base_url2,
     let r := compare_links links1 links2 base_url1 base_url2 in
     r = compare_links (normalizable base_url1 links1)
                       (normalizable base_url2 links2) base_url1 base_url2 ∧
     normalized_keys (only_in_v1 r) base_url1
       ∪ normalized_keys (in_both r) base_url1
       = normalized_keys links1 base_url1 ∧
     normalized_keys (only_in_v2 r) base_url2
       ∪ normalized_keys (in_both r) base_url1
       = normalized_keys links2 base_url2).
Proof.
  split; [|split].
  - intros url base_url. rewrite normalize_url_unfold.
    destruct (absolute_url url base_url) as [absolute|]; simpl; [|done].
    by destruct (Urllib.urlparse absolute []).
  - intros url. rewrite normalize_url_unfold, absolute_url_no_base. simpl.
    by destruct (Urllib.urlparse url []).
  - intros links1 links2 base_url1 base_url2. cbv zeta.
    split.
    { unfold compare_links. by rewrite <- !norm_links_normalizable. }
    destruct (compare_links_keys links1 links2 base_url1 base_url2)
      as (-> & -> & ->).
    set (K1 := normalized_keys links1 base_url1).
    set (K2 := normalized_keys links2 base_url2).
    clearbody K1 K2.
    split; apply set_eq; intros k;
      destruct (decide (k ∈ K1)); destruct (decide (k ∈ K2)); set_solver.
Qed.

(** C10.  [total_v1] and [total_v2] count distinct normalised keys: they
    are at most the number of links that normalise, which is at most the
    number of links, and they can be smaller than both: two links with one
    key and a link that does not normalise count as one. *)
Theorem compare_links_totals_count_keys :
  (∀ links1 links2 base_url1 base_url2,
     let r := compare_links links1 links2 base_url1 base_url2 in
     total_v1 r = size (normalized_keys links1 base_url1) ∧
     total_v2 r = size (normalized_keys links2 base_url2) ∧
     total_v1 r ≤ length (normalizable base_url1 links1) ∧
     length (normalizable base_url1 links1) ≤ length links1 ∧
     total_v2 r ≤ length (normalizable base_url2 links2) ∧
     length (normalizable base_url2 links2) ≤ length links2) ∧
  (let links1 := [link_to "HTTP://Example.com/Path/";
                  link_to "http://example.com/path";
                  link_to "http://[::1"] in
   let r := compare_links links1 [] [] [] in
   key_of [] (link_to "http://[::1") = None ∧
   length links1 = 3 ∧ length (normalizable [] links1) = 2 ∧ total_v1 r = 1).
Proof.
  split.
  - intros links1 links2 base_url1 base_url2. cbv zeta.
    unfold compare_links. cbn [total_v1 total_v2].
    rewrite !norm_links_dom.
    assert (∀ links base_url,
      size (normalized_keys links base_url)
      ≤ length (normalizable base_url links)) as Hle.
    { intros links base_url. unfold normalized_keys, normalizable.
      etrans; [apply size_list_to_set_le|].
      induction links as [|x links IH]; [done|].
      cbn [omap list_omap]. rewrite filter_cons.
      destruct (key_of base_url x) as [k|] eqn:Ek.
      - rewrite decide_True by eauto. simpl. fold (omap (key_of base_url) links).
        lia.
      - rewrite decide_False by (by intros [??]). done. }
    repeat split; try apply Hle; unfold normalizable; apply length_filter.
  - vm_compute. repeat split; reflexivity.
Qed.
(** ** Plain absolute URLs *)

Lemma replace_char_absent b (s : str) : b ∉ s → replace_char b [] s = s.
Proof.
  unfold replace_char. induction s as [|x s IH]; [done|]. intros Hb.
  rewrite bind_cons, IH by (intros ?; apply Hb; by right).
  rewrite decide_False; [done|]. intros ->. apply Hb. by left.
Qed.

Lemma plain_not_in (s : str) c :
  c ∈ ["?"; "#"; ";"; "["; "]"; "009"; "010"; "013"]%char →
  Forall (λ x, plain_char x = true) s → c ∉ s.
Proof.
  intros Hc Hs Hin. rewrite Forall_forall in Hs. specialize (Hs c Hin).
  unfold plain_char in Hs. apply negb_true_iff, bool_decide_eq_false in Hs.
  done.
Qed.

Lemma remove_unsafe_plain (s : str) :
  Forall (λ x, plain_char x = true) s → Urllib.remove_unsafe s = s.
Proof.
  intros Hs. unfold Urllib.remove_unsafe, Urllib.unsafe_url_bytes_to_remove.
  cbn [foldl].
  rewrite (replace_char_absent "009" s) by (apply plain_not_in; in_list).
  rewrite (replace_char_absent "013" s) by (apply plain_not_in; in_list).
  rewrite (replace_char_absent "010" s) by (apply plain_not_in; in_list).
  done.
Qed.

Lemma splitnetloc_plain (rest : str) :
  Forall (λ x, plain_char x = true) rest →
  Urllib.splitnetloc (lit "//" ++ rest) 2
  = (take (netloc_end rest) rest, drop (netloc_end rest) rest).
Proof.
  intros Hs. unfold Urllib.splitnetloc, netloc_end.
  change (lit "/?#") with ["/"; "?"; "#"]%char. cbn [foldl].
  unfold Py.find_from.
  change (drop 2 (lit "//" ++ rest)) with rest.
  rewrite (find_absent "?" rest) by (apply plain_not_in; [in_list|done]).
  rewrite (find_absent "#" rest) by (apply plain_not_in; [in_list|done]).
  cbn [fmap option_fmap option_map].
  change (length (lit "//" ++ rest)) with (S (S (length rest))).
  destruct (Py.find "/" rest) as [i|] eqn:Ei;
    cbn [fmap option_fmap option_map default id].
  - apply find_present in Ei as [Hi _].
    replace (S (S (length rest)) `min` (2 + i)) with (2 + i)
      by (clear -Hi; lia).
    unfold slice. change (drop 2 (lit "//" ++ rest)) with rest.
    change (drop (2 + i) (lit "//" ++ rest)) with (drop i rest).
    by replace (2 + i - 2) with i by (clear; lia).
  - unfold slice. change (drop 2 (lit "//" ++ rest)) with rest.
    change (drop (S (S (length rest))) (lit "//" ++ rest))
      with (drop (length rest) rest).
    by replace (S (S (length rest)) - 2) with (length rest) by (clear; lia).
Qed.

Lemma plain_take_drop (rest : str) k c :
  c ∈ ["?"; "#"; ";"; "["; "]"; "009"; "010"; "013"]%char →
  Forall (λ x, plain_char x = true) rest →
  (c ∉ take k rest) ∧ (c ∉ drop k rest).
Proof.
  intros Hc Hs. split; apply plain_not_in; try done.
  - by apply Forall_take.
  - by apply Forall_drop.
Qed.

Lemma urlsplit_plain (p rest : str) :
  p ∈ [lit "http"; lit "https"] →
  Forall (λ x, plain_char x = true) rest →
  Urllib.urlsplit (p ++ lit "://" ++ rest) []
  = Some (p, take (netloc_end rest) rest, drop (netloc_end rest) rest, [], []).
Proof.
  intros Hp Hs.
  assert (Forall (λ x, plain_char x = true) (p ++ lit "://" ++ rest)) as Hall.
  { rewrite !Forall_app. split; [|split; [|done]].
    - rewrite !elem_of_cons, elem_of_nil in Hp.
      destruct Hp as [->|[->|[]]]; repeat constructor.
    - repeat constructor. }
  unfold Urllib.urlsplit. cbv zeta.
  assert (Py.lstrip Urllib.c0_control_or_space (p ++ lit "://" ++ rest)
          = p ++ lit "://" ++ rest) as ->.
  { rewrite !elem_of_cons, elem_of_nil in Hp.
    destruct Hp as [->|[->|[]]]; reflexivity. }
  rewrite (remove_unsafe_plain _ Hall).
  assert (Py.find ":" (p ++ lit "://" ++ rest) = Some (length p)) as ->.
  { rewrite !elem_of_cons, elem_of_nil in Hp.
    destruct Hp as [->|[->|[]]]; reflexivity. }
  assert (match p ++ lit "://" ++ rest with
          | [] => (Urllib.remove_unsafe (Py.strip Urllib.c0_control_or_space []),
                   p ++ lit "://" ++ rest)
          | c :: _ =>
              if bool_decide (0 < length p) && Py.is_ascii_alpha c
                 && forallb (λ c0, bool_decide (c0 ∈ Urllib.scheme_chars))
                      (take (length p) (p ++ lit "://" ++ rest))
              then (Py.lower (take (length p) (p ++ lit "://" ++ rest)),
                    drop (length p + 1) (p ++ lit "://" ++ rest))
              else (Urllib.remove_unsafe (Py.strip Urllib.c0_control_or_space []),
                    p ++ lit "://" ++ rest)
          end = (p, lit "//" ++ rest)) as ->.
  { rewrite !elem_of_cons, elem_of_nil in Hp.
    destruct Hp as [->|[->|[]]]; reflexivity. }
  rewrite bool_decide_eq_true_2 by reflexivity.
  rewrite splitnetloc_plain by done.
  destruct (plain_take_drop rest (netloc_end rest) "["%char) as [H1 _];
    [in_list|done|].
  destruct (plain_take_drop rest (netloc_end rest) "]"%char) as [H2 _];
    [in_list|done|].
  destruct (plain_take_drop rest (netloc_end rest) "#"%char) as [_ H3];
    [in_list|done|].
  destruct (plain_take_drop rest (netloc_end rest) "?"%char) as [_ H4];
    [in_list|done|].
  rewrite (bool_decide_eq_false_2 _ H1), (bool_decide_eq_false_2 _ H2).
  cbn [andb orb negb]. cbv beta iota.
  rewrite (bool_decide_eq_false_2 _ H3), (bool_decide_eq_false_2 _ H4).
  by rewrite checknetloc_ok by apply netloc_end_no_slash.
Qed.

Lemma urlparse_plain (p rest : str) :
  p ∈ [lit "http"; lit "https"] →
  Forall (λ x, plain_char x = true) rest →
  Urllib.urlparse (p ++ lit "://" ++ rest) []
  = Some (Urllib.mkParseResult p (take (netloc_end rest) rest)
            (drop (netloc_end rest) rest) [] [] []).
Proof.
  intros Hp Hs. unfold Urllib.urlparse. rewrite urlsplit_plain by done.
  destruct (plain_take_drop rest (netloc_end rest) ";"%char) as [_ H1];
    [in_list|done|].
  rewrite (bool_decide_eq_false_2 _ H1), andb_false_r. done.
Qed.

Lemma startswith_app (s prefix : str) :
  Py.startswith s prefix = true → ∃ rest, s = prefix ++ rest.
Proof.
  revert s. induction prefix as [|c prefix IH]; intros s Hs.
  { by exists s. }
  destruct s as [|x s]; [done|]. cbn [Py.startswith] in Hs.
  apply andb_true_iff in Hs as [Hx Hs]. apply bool_decide_eq_true in Hx as ->.
  destruct (IH s Hs) as [rest ->]. by exists rest.
Qed.

Lemma startswith_prefix (prefix rest : str) :
  Py.startswith (prefix ++ rest) prefix = true.
Proof.
  induction prefix as [|c prefix IH]; [by destruct rest|].
  cbn [app Py.startswith]. by rewrite bool_decide_eq_true_2, IH.
Qed.

Lemma is_absolute_scheme (p rest : str) :
  p ∈ [lit "http"; lit "https"] →
  is_absolute (p ++ lit "://" ++ rest) = true.
Proof.
  rewrite !elem_of_cons, elem_of_nil. unfold is_absolute.
  intros [->|[->|[]]].
  - change (lit "http" ++ lit "://" ++ rest) with (lit "http://" ++ rest).
    by rewrite startswith_prefix.
  - change (lit "https" ++ lit "://" ++ rest) with (lit "https://" ++ rest).
    rewrite (startswith_prefix (lit "https://")). apply orb_true_r.
Qed.

Lemma is_absolute_split (url : str) :
  is_absolute url = true →
  ∃ p rest, p ∈ [lit "http"; lit "https"] ∧ url = p ++ lit "://" ++ rest.
Proof.
  unfold is_absolute. intros [Hs|Hs]%orb_true_iff;
    apply startswith_app in Hs as [rest ->].
  - exists (lit "http"), rest. split; [in_list|done].
  - exists (lit "https"), rest. split; [in_list|done].
Qed.

Lemma absolute_url_absolute (url base_url : str) :
  is_absolute url = true → absolute_url url base_url = Some url.
Proof. unfold is_absolute, absolute_url. by intros ->. Qed.

Lemma normalize_url_plain (p rest base_url : str) :
  p ∈ [lit "http"; lit "https"] →
  Forall (λ x, plain_char x = true) rest →
  normalize_url (p ++ lit "://" ++ rest) base_url
  = Some (Py.lower (Py.rstrip ["/"%char] (p ++ lit "://" ++ rest))).
Proof.
  intros Hp Hs. rewrite normalize_url_unfold.
  rewrite absolute_url_absolute by (by apply is_absolute_scheme).
  cbn [mbind option_bind]. rewrite urlparse_plain by done.
  cbn [mbind option_bind]. unfold reassemble.
  cbn [Urllib.scheme Urllib.netloc Urllib.path Urllib.query].
  rewrite bool_decide_eq_true_2 by done. cbn [negb].
  by rewrite take_drop.
Qed.

Lemma lstrip_app (cs : list ascii) (a b : str) :
  Py.lstrip cs (a ++ b)
  = if bool_decide (Py.lstrip cs a = []) then Py.lstrip cs b
    else Py.lstrip cs a ++ b.
Proof.
  induction a as [|x a IH]; [done|].
  cbn [app Py.lstrip]. destruct (bool_decide (x ∈ cs)); [apply IH|].
  by rewrite bool_decide_eq_false_2.
Qed.

Lemma rstrip_app (cs : list ascii) (a b : str) :
  Py.rstrip cs (a ++ b)
  = if bool_decide (Py.rstrip cs b = []) then Py.rstrip cs a
    else a ++ Py.rstrip cs b.
Proof.
  unfold Py.rstrip. rewrite reverse_app, lstrip_app.
  destruct (Py.lstrip cs (reverse b)) as [|y l] eqn:E.
  - by rewrite !bool_decide_eq_true_2.
  - rewrite bool_decide_eq_false_2 by done.
    rewrite bool_decide_eq_false_2.
    + by rewrite reverse_app, reverse_involutive.
    + intros Hr. apply (f_equal reverse) in Hr.
      by rewrite reverse_involutive in Hr.
Qed.

Lemma rstrip_keeps (c : ascii) (s : str) :
  last s ≠ Some c → Py.rstrip [c] s = s.
Proof.
  intros Hl. unfold Py.rstrip.
  rewrite <- (reverse_involutive s) at 2. f_equal.
  rewrite <- head_reverse in Hl.
  destruct (reverse s) as [|x l]; [done|]. cbn [Py.lstrip].
  rewrite bool_decide_eq_false_2; [done|].
  intros ->%list_elem_of_singleton. by apply Hl.
Qed.

Lemma lower_app (s t : str) : Py.lower (s ++ t) = Py.lower s ++ Py.lower t.
Proof. unfold Py.lower. apply fmap_app. Qed.

(** ** Regions and links of a parsed document *)

(** C7.  When no candidate element holds the marker, the region is the
    body of the document, or the document itself when it has no body, and
    the document is left as it was; and whatever the marker, a parsed
    document yields a region, never [None]. *)
Theorem extract_content_after_marker_fallback (soup : Bs4.node)
    (marker_text : str) :
  Forall (λ element,
            contains (Py.lower (Bs4.get_text element)) (Py.lower marker_text)
            = false)
         (Bs4.find_all marker_tags soup) →
  extract_content_after_marker (Some soup) marker_text
    = (Some (default soup (Bs4.body soup)), Some soup) ∧
  ∀ marker_text', is_Some (extract_content_after_marker (Some soup) marker_text').1.
Proof.
  intros Habsent. split.
  - unfold extract_content_after_marker, found_elements.
    replace (filter _ (Bs4.find_all marker_tags soup)) with (@nil Bs4.node);
      [done|].
    symmetry. induction Habsent as [|x l Hx _ IH]; [done|].
    rewrite filter_cons, decide_False; [done|]. by rewrite Hx.
  - intros marker_text'. unfold extract_content_after_marker.
    destruct (found_elements soup marker_text') as [|marker_elem ?];
      [by eexists|].
    cbv zeta.
    destruct (walk_up _ _) as [current chain].
    destruct (foldl _ _ _) as [container soup'].
    by eexists.
Qed.

(** The theorem at the syllabus page, with a marker that is not there. *)
Lemma extract_content_after_marker_fallback_witness :
  extract_content_after_marker (Some syllabus_page) (lit "Reading List")
    = (Some (default syllabus_page (Bs4.body syllabus_page)),
       Some syllabus_page) ∧
  ∀ marker_text',
    is_Some (extract_content_after_marker (Some syllabus_page) marker_text').1.
Proof.
  apply (extract_content_after_marker_fallback syllabus_page
           (lit "Reading List")).
  repeat constructor.
Defined.

(** C2 fails on the code.  On the syllabus page the paragraph after the
    marker is moved into the container: the document that the call leaves
    behind has lost it. *)
Lemma extract_content_after_marker_moves_elements :
  extract_content_after_marker (Some syllabus_page) (lit "Course Syllabus")
  = (Some (Bs4.Tag 4 (lit "div") ∅
             [Bs4.Tag 3 (lit "p") ∅ [Bs4.NavigableString (lit "Week 1")]]),
     Some (Bs4.Tag 0 (lit "[document]") ∅
             [Bs4.Tag 1 (lit "body") ∅
                [Bs4.Tag 2 (lit "b") ∅
                   [Bs4.NavigableString (lit "Course Syllabus")]]])) ∧
  (extract_content_after_marker (Some syllabus_page) (lit "Course Syllabus")).2
  ≠ Some syllabus_page.
Proof.
  split; [by vm_compute|]. vm_compute. discriminate.
Qed.

(** C8, as the code has it.  The links are made, in document order, from
    the anchors below the element that have an [href] attribute, whatever
    its value: the URL is that value, the text the stripped text. *)
Theorem extract_links_anchors_with_href (element : Bs4.node) :
  html <$> extract_links (Some element)
  = filter (λ d, Bs4.name_of d = Some (lit "a")
                 ∧ is_Some (Bs4.attrs_of d !! lit "href"))
           (Bs4.descendants element) ∧
  Forall (λ link,
            Bs4.attrs_of (html link) !! lit "href" = Some (url link) ∧
            text link = Bs4.get_text_strip [] (html link))
         (extract_links (Some element)).
Proof.
  unfold extract_links, Bs4.find_all_with_attr. split.
  - rewrite <- list_fmap_compose.
    etrans; [|apply list_fmap_id]. by apply list_fmap_ext.
  - apply Forall_fmap, Forall_forall. intros d Hd.
    apply list_elem_of_filter in Hd as [[_ [v Hv]] _]. simpl.
    by rewrite Hv.
Qed.

(** C8 as stated fails: an anchor whose [href] is the empty string is
    not skipped. *)
Lemma extract_links_keeps_empty_href :
  url <$> extract_links (Some three_anchors) = [[]; lit "/b"] ∧
  text <$> extract_links (Some three_anchors) = [lit "x"; lit "z"].
Proof. split; by vm_compute. Qed.
(** ** Matching blocks pair equal elements *)

Section Agreement.
Context `{Countable A}.
Variable m : Difflib.SequenceMatcher (A:=A).
Hypothesis Hindex : indexes (Difflib.seq_b m) (Difflib.b2j m).

Local Abbreviation a := (Difflib.seq_a m).
Local Abbreviation b := (Difflib.seq_b m).

Lemma agree_empty i j : agree a b (i, j, 0).
Proof. intros t Ht. simpl in Ht. lia. Qed.

Lemma agree_snoc i j k :
  agree a b (i, j, k) →
  is_Some (a !! (i + k)) → a !! (i + k) = b !! (j + k) →
  agree a b (i, j, k + 1).
Proof.
  intros Hk Hs He t Ht. simpl in *.
  destruct (decide (t = k)) as [->|Hne]; [done|].
  apply Hk. simpl. lia.
Qed.

Lemma agree_cons i j k :
  agree a b (S i, S j, k) →
  is_Some (a !! i) → a !! i = b !! j →
  agree a b (i, j, k + 1).
Proof.
  intros Hk Hs He t Ht. simpl in *.
  destruct t as [|t]; [by rewrite !Nat.add_0_r|].
  replace (i + S t) with (S i + t) by lia.
  replace (j + S t) with (S j + t) by lia.
  apply Hk. simpl. lia.
Qed.

Lemma agree_join i j k1 k2 :
  agree a b (i, j, k1) → agree a b (i + k1, j + k1, k2) →
  agree a b (i, j, k1 + k2).
Proof.
  intros H1 H2 t Ht. simpl in *.
  destruct (decide (t < k1)) as [Hlt|Hge]; [by apply H1|].
  replace (i + t) with (i + k1 + (t - k1)) by lia.
  replace (j + t) with (j + k1 + (t - k1)) by lia.
  apply H2. simpl. lia.
Qed.

Lemma row_indices_agree i j :
  j ∈ Difflib.row_indices m i →
  is_Some (a !! i) ∧ a !! i = b !! j.
Proof.
  unfold Difflib.row_indices. destruct (a !! i) as [x|] eqn:Ea.
  - destruct (Difflib.b2j m !! x) as [l|] eqn:El; simpl.
    + intros Hj. destruct (Hindex x l El) as [_ Hl].
      apply Hl in Hj. by rewrite Hj.
    + by intros ?%elem_of_nil.
  - by intros ?%elem_of_nil.
Qed.

Lemma j2len_get_agree i j j2len :
  j2len_agree a b i j2len →
  let k := Difflib.j2len_get j2len j in
  k ≤ i ∧ k ≤ j ∧ agree a b (i - k, j - k, k).
Proof.
  intros Hok. unfold Difflib.j2len_get. destruct j as [|j'].
  { simpl. split; [lia|]. split; [lia|]. apply agree_empty. }
  destruct (j2len !! j') as [k|] eqn:E; simpl.
  - destruct (Hok _ _ E) as (? & ? & Hk).
    split; [done|]. split; [lia|].
    by replace (S j' - k) with (j' + 1 - k) by lia.
  - split; [lia|]. split; [lia|]. apply agree_empty.
Qed.

Lemma scan_row_agree i blo bhi j2len js new best :
  (∀ j, j ∈ js → is_Some (a !! i) ∧ a !! i = b !! j) →
  j2len_agree a b i j2len →
  j2len_agree a b (S i) new →
  agree a b best →
  let r := Difflib.scan_row i blo bhi j2len js new best in
  j2len_agree a b (S i) r.1 ∧ agree a b r.2.
Proof.
  intros Hjs Hold. revert new best Hjs.
  induction js as [|j js IH]; intros new best Hjs Hnew Hbest;
    cbn [Difflib.scan_row]; [done|].
  assert (∀ j0, j0 ∈ js → is_Some (a !! i) ∧ a !! i = b !! j0) as Hjs'
    by (intros j0 ?; apply Hjs; by right).
  case_bool_decide as Hlo; [by apply IH|].
  case_bool_decide as Hhi; [done|].
  destruct (j2len_get_agree i j j2len Hold) as (Hki & Hkj & Hk).
  destruct (Hjs j) as [Hsome Heq]; [by left|].
  set (k := Difflib.j2len_get j2len j) in *. clearbody k.
  assert (agree a b (i + 1 - (k + 1), j + 1 - (k + 1), k + 1)) as Hnewk.
  { replace (i + 1 - (k + 1)) with (i - k) by lia.
    replace (j + 1 - (k + 1)) with (j - k) by lia.
    apply agree_snoc; [done|..].
    - by replace (i - k + k) with i by lia.
    - replace (i - k + k) with i by lia.
      by replace (j - k + k) with j by lia. }
  apply IH; [done| |].
  - intros j0 k0. rewrite lookup_insert.
    case_decide as Hj0; [|by apply Hnew]. intros [= <-]. subst j0.
    split; [lia|]. split; [lia|].
    by replace (S i - (k + 1)) with (i + 1 - (k + 1)) by lia.
  - by case_bool_decide.
Qed.

Lemma longest_junk_free_rows_agree blo bhi n s j2len best :
  j2len_agree a b s j2len → agree a b best →
  agree a b
    (foldl (λ '(j2len, best) i,
              Difflib.scan_row i blo bhi j2len (Difflib.row_indices m i) ∅ best)
           (j2len, best) (seq s n)).2.
Proof.
  revert s j2len best.
  induction n as [|n IH]; intros s j2len best Hj Hb; simpl; [done|].
  destruct (scan_row_agree s blo bhi j2len (Difflib.row_indices m s) ∅ best)
    as [Hj' Hb']; [apply row_indices_agree|done| |done|].
  { intros j k. by rewrite lookup_empty. }
  destruct (Difflib.scan_row s blo bhi j2len (Difflib.row_indices m s) ∅ best)
    as [j2len' best'].
  by apply IH.
Qed.

Lemma longest_junk_free_agree alo ahi blo bhi :
  agree a b (Difflib.longest_junk_free m alo ahi blo bhi).
Proof.
  unfold Difflib.longest_junk_free.
  apply longest_junk_free_rows_agree; [|apply agree_empty].
  intros j k. by rewrite lookup_empty.
Qed.

Lemma extends_agree junk x y :
  Difflib.extends m junk x y = true →
  is_Some (a !! x) ∧ a !! x = b !! y.
Proof.
  unfold Difflib.extends.
  destruct (a !! x) as [ex|], (b !! y) as [ey|]; try done.
  intros [_ ->%bool_decide_eq_true]%andb_true_iff. by split; [eexists|].
Qed.

Lemma extend_left_agree junk alo blo besti bestj bestsize :
  agree a b (besti, bestj, bestsize) →
  agree a b (Difflib.extend_left m junk alo blo besti bestj bestsize).
Proof.
  revert bestj bestsize.
  induction besti as [|i' IH]; intros bestj bestsize Hb;
    cbn [Difflib.extend_left]; [done|].
  destruct bestj as [|j']; [done|].
  destruct (bool_decide (alo < S i') && bool_decide (blo < S j')
            && Difflib.extends m junk i' j') eqn:E; [|done].
  apply andb_true_iff in E as [_ E]. apply extends_agree in E as [? ?].
  apply IH. by apply agree_cons.
Qed.

Lemma extend_right_agree junk ahi bhi besti bestj fuel bestsize :
  agree a b (besti, bestj, bestsize) →
  agree a b (besti, bestj,
             Difflib.extend_right m junk ahi bhi besti bestj fuel bestsize).
Proof.
  revert bestsize. induction fuel as [|fuel IH]; intros bestsize Hb;
    cbn [Difflib.extend_right]; [done|].
  destruct (bool_decide (besti + bestsize < ahi)
            && bool_decide (bestj + bestsize < bhi)
            && Difflib.extends m junk (besti + bestsize) (bestj + bestsize))
    eqn:E; [|done].
  apply andb_true_iff in E as [_ E]. apply extends_agree in E as [? ?].
  apply IH. by apply agree_snoc.
Qed.

Lemma find_longest_match_agree alo ahi blo bhi :
  agree a b (Difflib.find_longest_match m alo ahi blo bhi).
Proof.
  unfold Difflib.find_longest_match.
  pose proof (longest_junk_free_agree alo ahi blo bhi) as H0.
  destruct (Difflib.longest_junk_free m alo ahi blo bhi) as [[i0 j0] k0].
  pose proof (extend_left_agree false alo blo i0 j0 k0 H0) as H1.
  destruct (Difflib.extend_left m false alo blo i0 j0 k0) as [[i1 j1] k1].
  pose proof (extend_right_agree false ahi bhi i1 j1 (ahi - (i1 + k1)) k1 H1)
    as H2.
  set (k2 := Difflib.extend_right m false ahi bhi i1 j1 _ k1) in *.
  clearbody k2.
  pose proof (extend_left_agree true alo blo i1 j1 k2 H2) as H3.
  destruct (Difflib.extend_left m true alo blo i1 j1 k2) as [[i3 j3] k3].
  apply extend_right_agree, H3.
Qed.

Lemma queue_loop_agree fuel queue blocks :
  Forall (agree a b) blocks →
  Forall (agree a b) (Difflib.queue_loop m fuel queue blocks).2.
Proof.
  revert queue blocks.
  induction fuel as [|fuel IH]; intros queue blocks Hb; [by destruct queue|].
  destruct queue as [|[[[alo ahi] blo] bhi] queue]; [done|].
  cbn [Difflib.queue_loop]. unfold Difflib.queue_step.
  pose proof (find_longest_match_agree alo ahi blo bhi) as Hm.
  destruct (Difflib.find_longest_match m alo ahi blo bhi) as [[i j] k].
  case_bool_decide; [|by apply IH].
  apply IH. apply Forall_app. split; [done|]. by constructor.
Qed.

Lemma collapse_agree la lb st acc blocks :
  agree a b st → Forall (agree a b) acc → Forall (agree a b) blocks →
  Forall (agree a b)
    (Difflib.collapse_finish la lb
       (foldl Difflib.collapse_step (st, acc) blocks)).
Proof.
  revert st acc.
  induction blocks as [|[[i2 j2] k2] blocks IH]; intros [[i1 j1] k1] acc
    Hst Hacc Hbs; cbn [foldl].
  - unfold Difflib.collapse_finish. apply Forall_app. split.
    + case_bool_decide; [|done]. apply Forall_app. split; [done|].
      by constructor.
    + constructor; [apply agree_empty|done].
  - apply Forall_cons in Hbs as [Hx Hbs]. unfold Difflib.collapse_step.
    case_bool_decide as Hadj.
    + apply IH; [|done|done]. destruct Hadj as [<- <-].
      by apply agree_join.
    + apply IH; [done| |done].
      case_bool_decide; [|done]. apply Forall_app. split; [done|].
      by constructor.
Qed.

(** Every block [get_matching_blocks] returns pairs equal elements. *)
Lemma get_matching_blocks_agree :
  Forall (agree a b) (Difflib.get_matching_blocks m).
Proof.
  unfold Difflib.get_matching_blocks.
  apply collapse_agree; [apply agree_empty|done|].
  rewrite merge_sort_Permutation. by apply queue_loop_agree.
Qed.

End Agreement.

(** ** The shape of the list of matching blocks *)

Section BlockShape.
Context `{Countable A}.
Implicit Types (m : Difflib.SequenceMatcher (A:=A)).

Lemma collapse_positive la lb st acc blocks :
  Forall (λ x : Difflib.Match, 0 < x.2) acc →
  ∃ front,
    Difflib.collapse_finish la lb (foldl Difflib.collapse_step (st, acc) blocks)
    = front ++ [(la, lb, 0)] ∧
    Forall (λ x : Difflib.Match, 0 < x.2) front.
Proof.
  revert st acc.
  induction blocks as [|[[i2 j2] k2] blocks IH]; intros [[i1 j1] k1] acc Hacc;
    cbn [foldl].
  - unfold Difflib.collapse_finish. eexists. split; [done|].
    case_bool_decide; [|done]. apply Forall_app. split; [done|].
    constructor; [simpl; lia|done].
  - unfold Difflib.collapse_step. case_bool_decide; [by apply IH|].
    apply IH. case_bool_decide; [|done]. apply Forall_app. split; [done|].
    constructor; [simpl; lia|done].
Qed.

(** The list ends with the sentinel [(la, lb, 0)]; every other block has a
    positive size. *)
Lemma get_matching_blocks_shape m :
  ∃ front,
    Difflib.get_matching_blocks m
    = front ++ [(length (Difflib.seq_a m), length (Difflib.seq_b m), 0)] ∧
    Forall (λ x : Difflib.Match, 0 < x.2) front.
Proof. unfold Difflib.get_matching_blocks. by apply collapse_positive. Qed.

Lemma covers_matched la lb i j blocks :
  covers la lb i j blocks →
  i + matched blocks ≤ la ∧ j + matched blocks ≤ lb.
Proof.
  revert i j. induction blocks as [|[[xi xj] k] blocks IH]; intros i j.
  { unfold matched. simpl. lia. }
  change (matched ((xi, xj, k) :: blocks)) with (k + matched blocks).
  simpl. intros (Hi & Hj & Hc). apply IH in Hc. lia.
Qed.

End BlockShape.

(** ** The similarity ratio *)

Section Ratio.
Context `{Countable A}.

Lemma agree_take (a b : list A) i j k :
  agree a b (i, j, k) → take k (drop i a) = take k (drop j b).
Proof.
  intros Hk. apply list_eq. intros t.
  destruct (decide (t < k)) as [Hlt|Hge].
  - rewrite !lookup_take_lt, !lookup_drop by done. by apply Hk.
  - by rewrite !lookup_take_ge by lia.
Qed.

(** Blocks that leave no gap on either side show that the two sequences
    are the same from there on. *)
Lemma covers_whole (a b : list A) i j blocks :
  covers (length a) (length b) i j blocks →
  Forall (agree a b) blocks →
  i + matched blocks = length a → j + matched blocks = length b →
  drop i a = drop j b.
Proof.
  revert i j. induction blocks as [|[[xi xj] k] blocks IH]; intros i j.
  { unfold matched. simpl. intros [-> ->] _ _ _. by rewrite !drop_all. }
  change (matched ((xi, xj, k) :: blocks)) with (k + matched blocks).
  simpl. intros (Hi & Hj & Hc) [Hx Hbs]%Forall_cons Ha Hb.
  destruct (covers_matched _ _ _ _ _ Hc) as [Hma Hmb].
  assert (xi = i) as -> by lia. assert (xj = j) as -> by lia.
  rewrite <- (take_drop k (drop i a)), <- (take_drop k (drop j b)).
  rewrite (agree_take a b i j k Hx), !drop_drop.
  f_equal. apply IH; [done|done|lia|lia].
Qed.

Lemma agree_common (a b : list A) (x : Difflib.Match) :
  agree a b x → 0 < x.2 → ∃ c, c ∈ a ∧ c ∈ b.
Proof.
  intros Hx Hpos. destruct (Hx 0 Hpos) as [[c Hc] He].
  exists c. split; eapply list_elem_of_lookup_2; [exact Hc|].
  by rewrite <- He.
Qed.

Lemma new_matcher_agree (a b : list A) :
  Forall (agree a b) (Difflib.get_matching_blocks (Difflib.new_matcher a b)).
Proof.
  destruct (new_matcher_fields a b) as (Ha & Hb & _ & Hi).
  pose proof (get_matching_blocks_agree (Difflib.new_matcher a b)) as Hag.
  rewrite Ha, Hb in Hag. by apply Hag.
Qed.

(** Sequences without a common element have no matching block but the
    sentinel. *)
Lemma get_matching_blocks_disjoint (a b : list A) :
  (∀ c, c ∈ a → c ∉ b) →
  Difflib.get_matching_blocks (Difflib.new_matcher a b)
  = [(length a, length b, 0)].
Proof.
  intros Hd. destruct (new_matcher_fields a b) as (Ha & Hb & _ & _).
  pose proof (new_matcher_agree a b) as Hag.
  destruct (get_matching_blocks_shape (Difflib.new_matcher a b))
    as (front & Heq & Hpos).
  rewrite Ha, Hb in Heq. rewrite Heq in Hag |- *.
  destruct front as [|x front]; [done|].
  apply Forall_app in Hag as [Hag _].
  apply Forall_cons in Hag as [Hx _]. apply Forall_cons in Hpos as [Hp _].
  destruct (agree_common a b x Hx Hp) as (c & Hca & Hcb).
  by destruct (Hd c Hca).
Qed.

Lemma Zpos_of_nat k : k ≠ 0 → Z.pos (Pos.of_nat k) = Z.of_nat k.
Proof. intros Hk. by rewrite <- Znat.positive_nat_Z, Pnat.Nat2Pos.id. Qed.

Lemma ratio_matched (a b : list A) :
  let mb := matched (Difflib.get_matching_blocks (Difflib.new_matcher a b)) in
  Difflib.ratio (Difflib.new_matcher a b)
  = Difflib.calculate_ratio mb (length a + length b)
  ∧ mb ≤ length a ∧ mb ≤ length b.
Proof.
  intros mb. destruct (new_matcher_fields a b) as (Ha & Hb & _ & _).
  pose proof (get_matching_blocks_covers (Difflib.new_matcher a b)) as Hc.
  rewrite Ha, Hb in Hc. apply covers_matched in Hc.
  unfold Difflib.ratio. rewrite Ha, Hb. split; [done|]. fold mb in Hc. lia.
Qed.

End Ratio.

(** A ratio of 1 means the texts are the same. *)
Lemma similarity_one_equal (text1 text2 : str) :
  (calculate_similarity text1 text2 == 1)%Q → text1 = text2.
Proof.
  unfold calculate_similarity.
  destruct (ratio_matched text1 text2) as (-> & Ha & Hb).
  destruct (new_matcher_fields text1 text2) as (Hsa & Hsb & _ & _).
  pose proof (get_matching_blocks_covers (Difflib.new_matcher text1 text2))
    as Hc.
  pose proof (new_matcher_agree text1 text2) as Hag.
  rewrite Hsa, Hsb in Hc.
  set (blocks := Difflib.get_matching_blocks _) in *. clearbody blocks.
  unfold Difflib.calculate_ratio. case_bool_decide as Hn.
  - unfold Qeq. cbn [Qnum Qden]. rewrite Zpos_of_nat by done. intros Hq.
    apply (covers_whole text1 text2 0 0 blocks); [done|done|lia|lia].
  - intros _. destruct text1, text2; simpl in Hn; try done; lia.
Qed.

(** X1.  The ratio lies between 0 and 1. *)
Theorem calculate_similarity_range (text1 text2 : str) :
  (0 <= calculate_similarity text1 text2)%Q ∧
  (calculate_similarity text1 text2 <= 1)%Q.
Proof.
  unfold calculate_similarity.
  destruct (ratio_matched text1 text2) as (-> & Ha & Hb).
  set (mb := matched _) in *. clearbody mb.
  unfold Difflib.calculate_ratio. case_bool_decide as Hn; [|done].
  unfold Qle. cbn [Qnum Qden]. rewrite Zpos_of_nat by done. lia.
Qed.

(** X2.  The ratio is 1 exactly when the two texts are the same. *)
Theorem calculate_similarity_one_iff_equal (text1 text2 : str) :
  (calculate_similarity text1 text2 == 1)%Q ↔ text1 = text2.
Proof.
  split; [apply similarity_one_equal|].
  intros <-. unfold calculate_similarity.
  destruct (new_matcher_fields text1 text1) as (Ha & Hb & Hj & Hi).
  apply ratio_same; [by rewrite Ha, Hb|done|by rewrite Hb].
Qed.

(** X3.  Texts without a common character, not both empty, have ratio 0. *)
Theorem calculate_similarity_disjoint (text1 text2 : str) :
  Forall (λ c, c ∉ text2) text1 → text1 ++ text2 ≠ [] →
  (calculate_similarity text1 text2 == 0)%Q.
Proof.
  intros Hd Hne. rewrite Forall_forall in Hd.
  unfold calculate_similarity, Difflib.ratio.
  rewrite get_matching_blocks_disjoint by done.
  destruct (new_matcher_fields text1 text2) as (-> & -> & _ & _).
  unfold Difflib.calculate_ratio. rewrite bool_decide_eq_true_2; [done|].
  rewrite <- length_app. by destruct (text1 ++ text2).
Qed.

(** The theorem at two words without a common letter. *)
Lemma calculate_similarity_disjoint_witness :
  (calculate_similarity (lit "week") (lit "syllabus") == 0)%Q.
Proof.
  apply (calculate_similarity_disjoint (lit "week") (lit "syllabus")).
  - compute_done.
  - by vm_compute.
Defined.

(** ** Special cases of the diff view *)

Arguments unhighlighted : simpl never.

Lemma opcodes_from_sentinel la lb :
  opcodes_from 0 0 [(la, lb, 0)]
  = if bool_decide (0 < la ∧ 0 < lb) then [(Difflib.Replace, 0, la, 0, lb)]
    else if bool_decide (0 < la) then [(Difflib.Delete, 0, la, 0, lb)]
    else if bool_decide (0 < lb) then [(Difflib.Insert, 0, la, 0, lb)]
    else [].
Proof.
  unfold opcodes_from. cbn [foldl Difflib.opcode_step].
  rewrite (bool_decide_eq_false_2 (0 ≠ 0)) by lia.
  by repeat case_bool_decide.
Qed.

Lemma generate_text_diff_view_segments (text1 text2 : str) :
  generate_text_diff_view text1 text2
  = (mjoin
       (segments text1 text2
          (opcodes_from 0 0
             (Difflib.get_matching_blocks
                (Difflib.new_matcher text1 text2)))).1,
     mjoin
       (segments text1 text2
          (opcodes_from 0 0
             (Difflib.get_matching_blocks
                (Difflib.new_matcher text1 text2)))).2).
Proof.
  unfold generate_text_diff_view, segments, opcodes_from, Difflib.get_opcodes,
    join_empty.
  by destruct (foldl (diff_step text1 text2) _ _).
Qed.

(** The diff view of texts without a common character. *)
Lemma generate_text_diff_view_no_match (text1 text2 : str) :
  (∀ c, c ∈ text1 → c ∉ text2) →
  generate_text_diff_view text1 text2
  = (mjoin (segments text1 text2
              (opcodes_from 0 0 [(length text1, length text2, 0)])).1,
     mjoin (segments text1 text2
              (opcodes_from 0 0 [(length text1, length text2, 0)])).2).
Proof.
  intros Hd. rewrite generate_text_diff_view_segments.
  by rewrite get_matching_blocks_disjoint.
Qed.

(** X5.  A non-empty text compared with the empty text is shown as one added
    span on side 2, or one removed span on side 1; the other side is
    empty. *)
Theorem generate_text_diff_view_empty (text : str) :
  text ≠ [] →
  generate_text_diff_view [] text
    = ([], span (lit "diff-added") (Html.escape text)) ∧
  generate_text_diff_view text []
    = (span (lit "diff-removed") (Html.escape text), []).
Proof.
  intros Hne.
  assert (0 < length text) as Hlen by (destruct text; [done|simpl; lia]).
  split.
  - rewrite generate_text_diff_view_no_match
      by (intros c Hc; by apply elem_of_nil in Hc).
    rewrite opcodes_from_sentinel. cbn [length].
    rewrite (bool_decide_eq_false_2 (0 < 0 ∧ 0 < length text)) by lia.
    rewrite (bool_decide_eq_false_2 (0 < 0)) by lia.
    rewrite bool_decide_eq_true_2 by done.
    unfold segments. cbn [foldl diff_step fst snd app].
    rewrite ?slice_all. f_equal; cbn; by rewrite ?app_nil_r.
  - rewrite generate_text_diff_view_no_match
      by (intros c _; apply not_elem_of_nil).
    rewrite opcodes_from_sentinel. cbn [length].
    rewrite (bool_decide_eq_false_2 (0 < length text ∧ 0 < 0)) by lia.
    rewrite bool_decide_eq_true_2 by done.
    unfold segments. cbn [foldl diff_step fst snd app].
    rewrite ?slice_all. f_equal; cbn; by rewrite ?app_nil_r.
Qed.

(** The theorem at a text with a character that is escaped. *)
Lemma generate_text_diff_view_empty_witness :
  generate_text_diff_view [] (lit "a<b")
    = ([], span (lit "diff-added") (Html.escape (lit "a<b"))) ∧
  generate_text_diff_view (lit "a<b") []
    = (span (lit "diff-removed") (Html.escape (lit "a<b")), []).
Proof.
  apply (generate_text_diff_view_empty (lit "a<b")). by vm_compute.
Defined.

(** X6.  Two non-empty texts without a common character are shown as one
    changed span on each side. *)
Theorem generate_text_diff_view_disjoint (text1 text2 : str) :
  text1 ≠ [] → text2 ≠ [] → Forall (λ c, c ∉ text2) text1 →
  generate_text_diff_view text1 text2
  = (span (lit "diff-changed") (Html.escape text1),
     span (lit "diff-changed") (Html.escape text2)).
Proof.
  intros Hn1 Hn2 Hd. rewrite Forall_forall in Hd.
  assert (0 < length text1) as Hl1 by (destruct text1; [done|simpl; lia]).
  assert (0 < length text2) as Hl2 by (destruct text2; [done|simpl; lia]).
  rewrite generate_text_diff_view_no_match by done.
  rewrite opcodes_from_sentinel, bool_decide_eq_true_2 by done.
  unfold segments. cbn [foldl diff_step fst snd app].
  rewrite ?slice_all. f_equal; cbn; by rewrite ?app_nil_r.
Qed.

(** The theorem at two words without a common letter. *)
Lemma generate_text_diff_view_disjoint_witness :
  generate_text_diff_view (lit "week") (lit "syllabus")
  = (span (lit "diff-changed") (Html.escape (lit "week")),
     span (lit "diff-changed") (Html.escape (lit "syllabus"))).
Proof.
  apply (generate_text_diff_view_disjoint (lit "week") (lit "syllabus")).
  - by vm_compute.
  - by vm_compute.
  - compute_done.
Defined.

(** The diff view of a text against itself carries no highlight: both
    sides are the escaped text. *)
Lemma diff_view_same (text : str) :
  generate_text_diff_view text text = (Html.escape text, Html.escape text).
Proof.
  rewrite generate_text_diff_view_segments.
  destruct (new_matcher_fields text text) as (Ha & Hb & Hj & Hi).
  rewrite (get_matching_blocks_same (Difflib.new_matcher text text))
    by (by rewrite ?Ha, ?Hb).
  rewrite Hb. case_bool_decide as Hn.
  - unfold opcodes_from. cbn [foldl Difflib.opcode_step].
    rewrite (bool_decide_eq_false_2 (0 < 0 ∧ 0 < 0)) by lia.
    rewrite (bool_decide_eq_false_2 (0 < 0)) by lia.
    rewrite (bool_decide_eq_true_2 (length text ≠ 0)) by done.
    rewrite (bool_decide_eq_false_2
               (0 + length text < length text ∧ 0 + length text < length text))
      by lia.
    rewrite (bool_decide_eq_false_2 (0 + length text < length text)) by lia.
    rewrite (bool_decide_eq_false_2 (0 ≠ 0)) by lia.
    unfold segments. cbn [foldl diff_step fst snd app Nat.add].
    rewrite ?slice_all. f_equal; cbn; by rewrite ?app_nil_r.
  - destruct text; [|simpl in Hn; lia]. reflexivity.
Qed.

(** ** What the diff view leaves without a highlight *)

Lemma outside_elements_escape s t :
  outside_elements Outside (Html.escape s ++ t)
  = Html.escape s ++ outside_elements Outside t.
Proof.
  rewrite escape_bind. induction s as [|x s IH]; [done|].
  rewrite bind_cons, <- !app_assoc.
  destruct x as [[] [] [] [] [] [] [] []]; simpl; by rewrite IH.
Qed.

Lemma outside_elements_content s t :
  outside_elements InContent (Html.escape s ++ t)
  = outside_elements InContent t.
Proof.
  rewrite escape_bind. induction s as [|x s IH]; [done|].
  rewrite bind_cons, <- !app_assoc.
  destruct x as [[] [] [] [] [] [] [] []]; simpl; by rewrite IH.
Qed.

Lemma outside_elements_span cls s t :
  cls ∈ [lit "diff-removed"; lit "diff-added"; lit "diff-changed"] →
  outside_elements Outside (span cls (Html.escape s) ++ t)
  = outside_elements Outside t.
Proof.
  intros Hcls. unfold span.
  assert (∀ u, outside_elements Outside
                 (lit "<span class=" ++ [Html.dquote] ++ cls
                  ++ [Html.dquote] ++ lit ">" ++ u)
               = outside_elements InContent u) as Hopen.
  { intros u. rewrite !elem_of_cons, elem_of_nil in Hcls.
    destruct Hcls as [->|[->|[->|[]]]]; reflexivity. }
  rewrite <- !app_assoc. rewrite Hopen, outside_elements_content.
  reflexivity.
Qed.

Lemma unhighlighted_escape s t :
  unhighlighted (Html.escape s ++ t) = s ++ unhighlighted t.
Proof.
  unfold unhighlighted. by rewrite outside_elements_escape, unescape_escape.
Qed.

Lemma unhighlighted_span cls s t :
  cls ∈ [lit "diff-removed"; lit "diff-added"; lit "diff-changed"] →
  unhighlighted (span cls (Html.escape s) ++ t) = unhighlighted t.
Proof.
  intros Hcls. unfold unhighlighted. by rewrite outside_elements_span.
Qed.

Lemma block_unhighlighted text1 text2 i j (x : Difflib.Match) rest1 rest2 :
  let segs := segments text1 text2 (opcodes_from i j [x]) in
  unhighlighted (mjoin segs.1 ++ rest1)
    = slice text1 x.1.1 (x.1.1 + x.2) ++ unhighlighted rest1 ∧
  unhighlighted (mjoin segs.2 ++ rest2)
    = slice text2 x.1.2 (x.1.2 + x.2) ++ unhighlighted rest2.
Proof.
  destruct x as [[ai bj] size]. simpl.
  assert (∀ cls s t,
    cls ∈ [lit "diff-removed"; lit "diff-added"; lit "diff-changed"] →
    unhighlighted (span cls (Html.escape s) ++ t) = unhighlighted t) as Hspan
    by apply unhighlighted_span.
  unfold opcodes_from, segments. cbn.
  repeat case_bool_decide; cbn; rewrite ?app_nil_r, <- ?app_assoc;
    rewrite ?Hspan, ?unhighlighted_escape by (repeat constructor);
    rewrite ?Hspan, ?unhighlighted_escape by (repeat constructor).
  all: split; try done.
  all: replace size with 0 by lia; by rewrite Nat.add_0_r, slice_empty.
Qed.

Lemma opcodes_unhighlighted text1 text2 blocks i j :
  let segs := segments text1 text2 (opcodes_from i j blocks) in
  unhighlighted (mjoin segs.1) = equal_parts_a text1 blocks ∧
  unhighlighted (mjoin segs.2) = equal_parts_b text2 blocks.
Proof.
  revert i j. induction blocks as [|x blocks IH]; intros i j; [done|].
  cbv zeta. rewrite opcodes_from_cons, segments_app. cbn [fst snd].
  rewrite !join_app.
  destruct (block_unhighlighted text1 text2 i j x
              (mjoin (segments text1 text2
                        (opcodes_from (x.1.1 + x.2) (x.1.2 + x.2) blocks)).1)
              (mjoin (segments text1 text2
                        (opcodes_from (x.1.1 + x.2) (x.1.2 + x.2) blocks)).2))
    as [-> ->].
  destruct (IH (x.1.1 + x.2) (x.1.2 + x.2)) as [-> ->].
  unfold equal_parts_a, equal_parts_b. by rewrite !bind_cons.
Qed.

Lemma slice_block {A} (l : list A) i k :
  slice l i (i + k) = take k (drop i l).
Proof. unfold slice. f_equal. lia. Qed.

Lemma equal_parts_agree {A} (a b : list A) blocks :
  Forall (agree a b) blocks → equal_parts_a a blocks = equal_parts_b b blocks.
Proof.
  unfold equal_parts_a, equal_parts_b.
  induction 1 as [|[[i j] k] blocks Hx _ IH]; [done|].
  rewrite !bind_cons, IH. f_equal. cbn [fst snd].
  rewrite !slice_block. by apply agree_take.
Qed.

Lemma equal_parts_sublist {A} (a b : list A) la lb blocks i j :
  covers la lb i j blocks →
  equal_parts_a a blocks `sublist_of` drop i a ∧
  equal_parts_b b blocks `sublist_of` drop j b.
Proof.
  unfold equal_parts_a, equal_parts_b. revert i j.
  induction blocks as [|[[xi xj] k] blocks IH]; intros i j.
  { intros _. split; apply sublist_nil_l. }
  cbn [covers fst snd]. intros (Hi & Hj & Hc).
  destruct (IH _ _ Hc) as [IHa IHb].
  rewrite !bind_cons. cbn [fst snd]. rewrite !slice_block.
  assert (∀ (l : list A) p q n rest,
            p ≤ q → rest `sublist_of` drop (q + n) l →
            take n (drop q l) ++ rest `sublist_of` drop p l) as Hstep.
  { intros l p q n rest Hpq Hrest.
    replace (drop p l) with (take (q - p) (drop p l) ++ drop q l); cycle 1.
    { trans (take (q - p) (drop p l) ++ drop (q - p) (drop p l));
        [|apply take_drop].
      rewrite drop_drop. do 2 f_equal. lia. }
    apply sublist_inserts_l.
    rewrite <- (take_drop n (drop q l)) at 2. rewrite drop_drop.
    by apply sublist_app. }
  split; by apply Hstep.
Qed.

Lemma diff_view_equal_parts (text1 text2 : str) :
  let blocks := Difflib.get_matching_blocks (Difflib.new_matcher text1 text2) in
  unhighlighted (generate_text_diff_view text1 text2).1
    = equal_parts_a text1 blocks ∧
  unhighlighted (generate_text_diff_view text1 text2).2
    = equal_parts_b text2 blocks ∧
  equal_parts_a text1 blocks = equal_parts_b text2 blocks.
Proof.
  cbv zeta. rewrite generate_text_diff_view_segments. cbn [fst snd].
  destruct (opcodes_unhighlighted text1 text2
              (Difflib.get_matching_blocks (Difflib.new_matcher text1 text2))
              0 0) as [-> ->].
  split; [done|]. split; [done|].
  apply equal_parts_agree, new_matcher_agree.
Qed.

Lemma equal_parts_length {A} (a : list A) lb blocks i j :
  covers (length a) lb i j blocks →
  length (equal_parts_a a blocks) = matched blocks.
Proof.
  unfold equal_parts_a. revert i j.
  induction blocks as [|[[xi xj] k] blocks IH]; intros i j; [done|].
  change (matched ((xi, xj, k) :: blocks)) with (k + matched blocks).
  cbn [covers fst snd]. intros (Hi & Hj & Hc).
  rewrite bind_cons, length_app, (IH _ _ Hc). cbn [fst snd].
  apply covers_le in Hc as [Hc _].
  rewrite slice_block, length_take, length_drop. lia.
Qed.

(** X7.  What the two views show outside their highlights is the same text,
    and it is a subsequence of both inputs. *)
Theorem generate_text_diff_view_unhighlighted (text1 text2 : str) :
  unhighlighted (generate_text_diff_view text1 text2).1
    = unhighlighted (generate_text_diff_view text1 text2).2 ∧
  unhighlighted (generate_text_diff_view text1 text2).1 `sublist_of` text1 ∧
  unhighlighted (generate_text_diff_view text1 text2).2 `sublist_of` text2.
Proof.
  destruct (diff_view_equal_parts text1 text2) as (-> & -> & Heq).
  pose proof (get_matching_blocks_covers (Difflib.new_matcher text1 text2))
    as Hc.
  destruct (new_matcher_fields text1 text2) as (Ha & Hb & _ & _).
  rewrite Ha, Hb in Hc.
  destruct (equal_parts_sublist text1 text2 _ _ _ _ _ Hc) as [H1 H2].
  by split; [|split].
Qed.

(** X4.  The diff view is free of highlights, each side the escaped text,
    exactly when the two texts are the same. *)
Theorem generate_text_diff_view_plain_iff_equal (text1 text2 : str) :
  generate_text_diff_view text1 text2
    = (Html.escape text1, Html.escape text2)
  ↔ text1 = text2.
Proof.
  split; [|intros <-; apply diff_view_same].
  intros Hv. destruct (diff_view_equal_parts text1 text2) as (H1 & H2 & Heq).
  rewrite Hv in H1, H2. cbn [fst snd] in H1, H2.
  rewrite <- (app_nil_r (Html.escape text1)), unhighlighted_escape in H1.
  rewrite <- (app_nil_r (Html.escape text2)), unhighlighted_escape in H2.
  change (unhighlighted []) with (@nil ascii) in H1, H2.
  rewrite app_nil_r in H1, H2. congruence.
Qed.

(** X8.  The ratio counts what the diff view leaves without a highlight: it is
    [_calculate_ratio] of the length of that text and the total length of
    the two inputs. *)
Theorem calculate_similarity_counts_unhighlighted (text1 text2 : str) :
  calculate_similarity text1 text2
  = Difflib.calculate_ratio
      (length (unhighlighted (generate_text_diff_view text1 text2).1))
      (length text1 + length text2).
Proof.
  destruct (diff_view_equal_parts text1 text2) as (-> & _ & _).
  pose proof (get_matching_blocks_covers (Difflib.new_matcher text1 text2))
    as Hc.
  destruct (new_matcher_fields text1 text2) as (Ha & Hb & _ & _).
  rewrite Ha, Hb in Hc. rewrite (equal_parts_length _ _ _ _ _ Hc).
  unfold calculate_similarity. by destruct (ratio_matched text1 text2) as [-> _].
Qed.

(** X9.  The report renders the diff of the first 5000 characters only: two
    texts that differ, but not in their first 5000 characters, are shown
    without any highlight, while their similarity is not 1. *)
Theorem report_diff_view_hides_late_changes (text1 text2 : str) :
  take 5000 text1 = take 5000 text2 → text1 ≠ text2 →
  report_diff_view text1 text2
    = (Html.escape (take 5000 text1), Html.escape (take 5000 text2)) ∧
  ¬ (calculate_similarity text1 text2 == 1)%Q.
Proof.
  intros Hcap Hne. split.
  - unfold report_diff_view. rewrite <- Hcap. apply diff_view_same.
  - by intros ?%similarity_one_equal.
Qed.

(** The theorem at two texts of 5001 characters that differ in the last
    one. *)
Lemma report_diff_view_hides_late_changes_witness :
  report_diff_view (replicate 5000 "a"%char ++ lit "x")
                   (replicate 5000 "a"%char ++ lit "y")
    = (Html.escape (take 5000 (replicate 5000 "a"%char ++ lit "x")),
       Html.escape (take 5000 (replicate 5000 "a"%char ++ lit "y"))) ∧
  ¬ (calculate_similarity (replicate 5000 "a"%char ++ lit "x")
                          (replicate 5000 "a"%char ++ lit "y") == 1)%Q.
Proof.
  apply (report_diff_view_hides_late_changes
           (replicate 5000 "a"%char ++ lit "x")
           (replicate 5000 "a"%char ++ lit "y")).
  - by vm_compute.
  - intros Heq. apply (f_equal (drop 5000)) in Heq.
    vm_compute in Heq. discriminate.
Defined.

(** ** More on comparing links *)

Lemma str_leb_total (s t : str) : str_leb s t = true ∨ str_leb t s = true.
Proof.
  revert t. induction s as [|c s IH]; intros t; [by left|].
  destruct t as [|d t]; [by right|]. cbn [str_leb].
  destruct (Nat.lt_trichotomy (nat_of_ascii c) (nat_of_ascii d))
    as [Hlt|[Heq|Hgt]].
  - left. apply orb_true_iff. left. by apply Nat.ltb_lt.
  - rewrite Heq, Nat.eqb_refl. cbn [andb].
    destruct (IH t) as [->| ->]; [left|right]; apply orb_true_r.
  - right. apply orb_true_iff. left. by apply Nat.ltb_lt.
Qed.

Lemma str_leb_trans (s t u : str) :
  str_leb s t = true → str_leb t u = true → str_leb s u = true.
Proof.
  revert t u. induction s as [|c s IH]; intros t u; [done|].
  destruct t as [|d t]; [done|]. destruct u as [|e u]; [done|].
  cbn [str_leb]. rewrite !orb_true_iff, !andb_true_iff.
  rewrite !Nat.ltb_lt, !Nat.eqb_eq.
  intros [Hcd|[Hcd Hst]] [Hde|[Hde Htu]].
  - left. lia.
  - left. lia.
  - left. lia.
  - right. split; [lia|]. by apply (IH t).
Qed.

Global Instance by_text_total : Total by_text.
Proof. intros x y. apply str_leb_total. Qed.

Global Instance by_text_trans : Transitive by_text.
Proof. intros x y z. apply str_leb_trans. Qed.

Lemma sorted_links_sorted (d : gmap str Link) (keys : gset str) :
  StronglySorted by_text (sorted_links d keys).
Proof. apply StronglySorted_merge_sort; apply _. Qed.

Lemma norm_links_snoc (links : list Link) (base_url : str) (x : Link) :
  norm_links (links ++ [x]) base_url
  = match normalize_url (url x) base_url with
    | Some norm_url => <[norm_url := x]> (norm_links links base_url)
    | None => norm_links links base_url
    end.
Proof. unfold norm_links. by rewrite foldl_app. Qed.

(** The entry of a key is the last link of the list that has the key. *)
Lemma norm_links_last (links : list Link) (base_url : str) (k : str) :
  norm_links links base_url !! k
  = last (filter (λ link, key_of base_url link = Some k) links).
Proof.
  induction links as [|x links IH] using rev_ind; [done|].
  rewrite norm_links_snoc, filter_app, filter_cons, filter_nil.
  unfold key_of in *.
  destruct (normalize_url (url x) base_url) as [k'|] eqn:Ek.
  - rewrite lookup_insert. case_decide as Hk.
    + subst k'. rewrite decide_True by done. by rewrite last_snoc.
    + rewrite decide_False by congruence. by rewrite app_nil_r.
  - rewrite decide_False by done. by rewrite app_nil_r.
Qed.

Lemma sorted_links_elem (d : gmap str Link) (keys : gset str) link :
  link ∈ sorted_links d keys ↔ ∃ k, k ∈ keys ∧ d !! k = Some link.
Proof.
  unfold sorted_links. rewrite merge_sort_Permutation, list_elem_of_omap.
  by setoid_rewrite elem_of_elements.
Qed.

(** X10.  Each of the three lists is in non-decreasing order of link text. *)
Theorem compare_links_sorted (links1 links2 : list Link)
    (base_url1 base_url2 : str) :
  let r := compare_links links1 links2 base_url1 base_url2 in
  StronglySorted by_text (only_in_v1 r) ∧
  StronglySorted by_text (only_in_v2 r) ∧
  StronglySorted by_text (in_both r).
Proof. repeat split; apply sorted_links_sorted. Qed.

(** X11.  A link in [only_in_v1] or [in_both] is the last link of version 1 that
    has its key, and a link in [only_in_v2] the last such link of version
    2: of several links with one key only the last is reported, and a link
    common to both versions is reported as version 1 has it. *)
Theorem compare_links_last_wins (links1 links2 : list Link)
    (base_url1 base_url2 : str) (link : Link) :
  let r := compare_links links1 links2 base_url1 base_url2 in
  (link ∈ only_in_v1 r ++ in_both r →
   ∃ k, key_of base_url1 link = Some k ∧
        last (filter (λ l, key_of base_url1 l = Some k) links1) = Some link) ∧
  (link ∈ only_in_v2 r →
   ∃ k, key_of base_url2 link = Some k ∧
        last (filter (λ l, key_of base_url2 l = Some k) links2) = Some link).
Proof.
  cbv zeta. unfold compare_links. cbn [only_in_v1 only_in_v2 in_both].
  split.
  - rewrite elem_of_app, !sorted_links_elem.
    intros [(k & _ & Hk)|(k & _ & Hk)]; exists k;
      (split; [by eapply norm_links_lookup|by rewrite <- norm_links_last]).
  - rewrite sorted_links_elem. intros (k & _ & Hk). exists k.
    split; [by eapply norm_links_lookup|by rewrite <- norm_links_last].
Qed.

(** X12.  No link is reported as removed or added exactly when the two versions
    have the same set of normalised keys. *)
Theorem compare_links_no_change (links1 links2 : list Link)
    (base_url1 base_url2 : str) :
  let r := compare_links links1 links2 base_url1 base_url2 in
  only_in_v1 r = [] ∧ only_in_v2 r = [] ↔
  normalized_keys links1 base_url1 = normalized_keys links2 base_url2.
Proof.
  cbv zeta. unfold compare_links. cbn [only_in_v1 only_in_v2].
  rewrite <- !norm_links_dom.
  assert (∀ (links : list Link) base (ks : gset str),
            ks ⊆ dom (norm_links links base) →
            sorted_links (norm_links links base) ks = [] ↔ ks = ∅) as Hempty.
  { intros links base ks Hsub.
    destruct (sorted_links_keys links base ks Hsub) as [_ Hlen].
    rewrite <- (leibniz_equiv_iff ks ∅), <- size_empty_iff, <- Hlen.
    split; [by intros ->|apply nil_length_inv]. }
  rewrite (Hempty links1 base_url1) by set_solver.
  rewrite (Hempty links2 base_url2) by set_solver.
  generalize (dom (norm_links links1 base_url1)),
    (dom (norm_links links2 base_url2)). intros X Y. split.
  - intros [H1 H2]. apply set_eq. intros k.
    destruct (decide (k ∈ X)), (decide (k ∈ Y)); set_solver.
  - intros ->. set_solver.
Qed.

(** ** Stripping *)

Lemma lstrip_head cs (s : str) c : head (Py.lstrip cs s) = Some c → c ∉ cs.
Proof.
  induction s as [|x s IH]; [done|]. cbn [Py.lstrip].
  case_bool_decide as Hx; [done|]. by intros [= <-].
Qed.

Lemma lstrip_keeps cs (s : str) :
  (∀ c, head s = Some c → c ∉ cs) → Py.lstrip cs s = s.
Proof.
  destruct s as [|x s]; [done|]. intros Hh. cbn [Py.lstrip].
  by rewrite bool_decide_eq_false_2 by (by apply Hh).
Qed.

Lemma lstrip_split cs (s : str) :
  ∃ pre, s = pre ++ Py.lstrip cs s ∧ Forall (λ c, c ∈ cs) pre.
Proof.
  induction s as [|x s (pre & Hs & Hpre)]; [by exists []|].
  cbn [Py.lstrip]. case_bool_decide as Hx.
  - exists (x :: pre). split; [by rewrite Hs at 1|by constructor].
  - by exists [].
Qed.

Lemma rstrip_split cs (s : str) :
  ∃ suf, s = Py.rstrip cs s ++ suf ∧ Forall (λ c, c ∈ cs) suf.
Proof.
  unfold Py.rstrip. destruct (lstrip_split cs (reverse s)) as (pre & Hs & Hp).
  exists (reverse pre). split.
  - rewrite <- reverse_app, <- Hs. by rewrite reverse_involutive.
  - by apply Forall_reverse.
Qed.

Lemma rstrip_last cs (s : str) c : last (Py.rstrip cs s) = Some c → c ∉ cs.
Proof. unfold Py.rstrip. rewrite last_reverse. apply lstrip_head. Qed.

Lemma rstrip_keeps_set cs (s : str) :
  (∀ c, last s = Some c → c ∉ cs) → Py.rstrip cs s = s.
Proof.
  intros Hl. unfold Py.rstrip. rewrite lstrip_keeps.
  - apply reverse_involutive.
  - intros c. rewrite head_reverse. apply Hl.
Qed.

Lemma strip_edges cs (s : str) : edges cs (Py.strip cs s).
Proof.
  unfold Py.strip. split; [|apply rstrip_last].
  intros c Hc. apply (lstrip_head cs s).
  destruct (rstrip_split cs (Py.lstrip cs s)) as (suf & Hs & _).
  rewrite Hs. by destruct (Py.rstrip cs (Py.lstrip cs s)).
Qed.

Lemma edges_strip cs (s : str) : edges cs s → Py.strip cs s = s.
Proof.
  intros [Hh Hl]. unfold Py.strip.
  by rewrite lstrip_keeps, rstrip_keeps_set.
Qed.

Lemma lstrip_nil cs (s : str) :
  Py.lstrip cs s = [] ↔ Forall (λ c, c ∈ cs) s.
Proof.
  induction s as [|x s IH]; [done|]. cbn [Py.lstrip].
  case_bool_decide as Hx.
  - rewrite IH, Forall_cons. naive_solver.
  - split; [done|]. by intros [? _]%Forall_cons.
Qed.

Lemma strip_nil cs (s : str) :
  Py.strip cs s = [] ↔ Forall (λ c, c ∈ cs) s.
Proof.
  unfold Py.strip, Py.rstrip.
  destruct (lstrip_split cs s) as (pre & Hs & Hpre).
  split.
  - intros Hr. apply (f_equal reverse) in Hr.
    rewrite reverse_involutive in Hr. change (reverse []) with (@nil ascii) in Hr.
    apply lstrip_nil, Forall_reverse in Hr. rewrite reverse_involutive in Hr.
    rewrite Hs. by apply Forall_app.
  - intros Hall. apply lstrip_nil in Hall. by rewrite Hall.
Qed.

Lemma join_nil_iff sep (parts : list str) :
  Forall (λ p, p ≠ []) parts → Py.join sep parts = [] ↔ parts = [].
Proof.
  intros Hne. split; [|by intros ->].
  destruct Hne as [|p parts Hp Hne]; [done|].
  cbn [Py.join]. destruct parts; [done|]. by destruct p.
Qed.

Lemma join_edges cs sep (parts : list str) :
  Forall (λ p, p ≠ [] ∧ edges cs p) parts → edges cs (Py.join sep parts).
Proof.
  induction 1 as [|p parts [Hp [Hh Hl]] Hparts IH]; [done|].
  destruct parts as [|q parts]; [done|].
  change (Py.join sep (p :: q :: parts))
    with (p ++ sep ++ Py.join sep (q :: parts)).
  assert (Py.join sep (q :: parts) ≠ []) as Hne.
  { rewrite join_nil_iff; [done|].
    eapply Forall_impl; [exact Hparts|]. by intros ? [? _]. }
  destruct IH as [_ IHl]. split.
  - destruct p; [done|]. exact Hh.
  - intros c. rewrite !last_app.
    destruct (last (Py.join sep (q :: parts))) as [c'|] eqn:El.
    + simpl. apply IHl.
    + by apply last_None in El.
Qed.

Lemma get_text_strip_pieces (n : Bs4.node) :
  Forall (λ p, p ≠ [] ∧ edges Bs4.whitespace p)
    (filter (λ s, s ≠ []) (Py.strip Bs4.whitespace <$> Bs4.all_strings n)).
Proof.
  apply Forall_forall. intros p [Hp Hin]%list_elem_of_filter.
  split; [done|]. apply list_elem_of_fmap in Hin as (s & -> & _).
  apply strip_edges.
Qed.

Lemma get_text_strip_edges sep (n : Bs4.node) :
  edges Bs4.whitespace (Bs4.get_text_strip sep n).
Proof. apply join_edges, get_text_strip_pieces. Qed.

Lemma text_block_spec (child : Bs4.node) blk :
  text_block child = Some blk →
  Bs4.name_of child = Some (block_tag blk) ∧ block_tag blk ∈ block_tags ∧
  block_text blk = Bs4.get_text_strip [] child ∧
  10 < length (block_text blk) ∧ block_html blk = child.
Proof.
  unfold text_block. destruct (Bs4.name_of child) as [name|]; [|done].
  case_bool_decide as Hn; [|done].
  destruct (negb _ && bool_decide (10 < _)) eqn:E; [|done].
  intros [= <-]. simpl.
  apply andb_true_iff in E as [_ E%bool_decide_eq_true]. done.
Qed.

(** X13.  Text taken with [strip=True] has no whitespace at either end: the
    result of [extract_text], the text of every link and the text of
    every block are left as they are by [strip()]. *)
Theorem extracted_text_is_stripped (element : option Bs4.node) :
  Py.strip Bs4.whitespace (extract_text element) = extract_text element ∧
  Forall (λ link, Py.strip Bs4.whitespace (text link) = text link)
         (extract_links element) ∧
  Forall (λ blk, Py.strip Bs4.whitespace (block_text blk) = block_text blk)
         (extract_text_blocks element).
Proof.
  destruct element as [element|]; [|done].
  split; [|split].
  - apply edges_strip, get_text_strip_edges.
  - unfold extract_links. apply Forall_fmap, Forall_forall. intros d _.
    apply edges_strip, get_text_strip_edges.
  - unfold extract_text_blocks. apply Forall_forall.
    intros blk (child & _ & Hblk)%list_elem_of_omap.
    apply text_block_spec in Hblk as (_ & _ & -> & _).
    apply edges_strip, get_text_strip_edges.
Qed.

(** X14.  [extract_text] returns the empty string exactly when every string
    below the element is made of whitespace only (for [None] it returns
    the empty string). *)
Theorem extract_text_empty_iff (element : Bs4.node) :
  extract_text None = [] ∧
  (extract_text (Some element) = [] ↔
   Forall (λ s, Forall (λ c, c ∈ Bs4.whitespace) s) (Bs4.all_strings element)).
Proof.
  split; [done|]. unfold extract_text, Bs4.get_text_strip.
  rewrite join_nil_iff; cycle 1.
  { eapply Forall_impl; [apply get_text_strip_pieces|]. by intros ? [? _]. }
  induction (Bs4.all_strings element) as [|s l IH]; [done|].
  rewrite fmap_cons, filter_cons, Forall_cons, <- IH, <- strip_nil.
  case_decide as Hs; [|naive_solver]. split; [done|]. by intros [? _].
Qed.

(** ** Subtrees *)

(** Induction on a tree, with the property known for every child. *)
Lemma node_induction (P : Bs4.node → Prop) :
  (∀ s, P (Bs4.NavigableString s)) →
  (∀ i name attrs cs, Forall P cs → P (Bs4.Tag i name attrs cs)) →
  ∀ n, P n.
Proof.
  intros Hs Ht. fix go 1. intros [s|i name attrs cs]; [apply Hs|].
  apply Ht. induction cs as [|c cs IH]; constructor; [apply go|apply IH].
Qed.

Lemma descendants_tag i name attrs cs :
  Bs4.descendants (Bs4.Tag i name attrs cs)
  = cs ≫= (λ c, c :: Bs4.descendants c).
Proof.
  cbn [Bs4.descendants]. induction cs as [|c cs IH]; [done|].
  rewrite bind_cons, <- IH. done.
Qed.

(** The descendants of a descendant sit together among the descendants. *)
Lemma descendants_infix (n d : Bs4.node) :
  d ∈ Bs4.descendants n →
  ∃ pre post,
    Bs4.descendants n = pre ++ d :: Bs4.descendants d ++ post.
Proof.
  induction n as [s|i name attrs cs IH] using node_induction.
  { by intros ?%elem_of_nil. }
  rewrite descendants_tag. intros (c & Hd & Hc)%list_elem_of_bind.
  apply list_elem_of_split in Hc as (cs1 & cs2 & ->).
  rewrite bind_app, bind_cons.
  apply Forall_app in IH as [_ [IHc _]%Forall_cons].
  apply elem_of_cons in Hd as [->|Hd].
  - exists (cs1 ≫= (λ c, c :: Bs4.descendants c)),
           (cs2 ≫= (λ c, c :: Bs4.descendants c)).
    by rewrite <- ?app_assoc.
  - destruct (IHc Hd) as (pre & post & ->).
    exists ((cs1 ≫= (λ c, c :: Bs4.descendants c)) ++ c :: pre),
           (post ++ cs2 ≫= (λ c, c :: Bs4.descendants c)).
    by repeat (progress (cbn [app]; rewrite <- ?app_assoc)).
Qed.

Lemma descendants_trans (n c d : Bs4.node) :
  c ∈ Bs4.descendants n → d ∈ Bs4.descendants c → d ∈ Bs4.descendants n.
Proof.
  intros (pre & post & ->)%descendants_infix Hd.
  rewrite elem_of_app, elem_of_cons, elem_of_app. auto.
Qed.

Lemma contents_descendants (n c : Bs4.node) :
  c ∈ Bs4.contents_of n → c ∈ Bs4.descendants n.
Proof.
  destruct n as [s|i name attrs cs]; [by intros ?%elem_of_nil|].
  cbn [Bs4.contents_of]. rewrite descendants_tag. intros Hc.
  apply list_elem_of_bind. exists c. split; [by left|done].
Qed.

Lemma all_strings_tag (d : Bs4.node) :
  Bs4.is_tag d = true →
  omap (λ d, match d with Bs4.NavigableString s => Some s | _ => None end)
       (d :: Bs4.descendants d)
  = Bs4.all_strings d.
Proof. by destruct d. Qed.

(** The strings below a descendant tag sit together among the strings. *)
Lemma all_strings_infix (n d : Bs4.node) :
  d ∈ Bs4.descendants n → Bs4.is_tag d = true →
  ∃ pre post, Bs4.all_strings n = pre ++ Bs4.all_strings d ++ post.
Proof.
  intros (pre & post & Hn)%descendants_infix Hd.
  unfold Bs4.all_strings at 1. rewrite Hn, omap_app.
  rewrite (app_comm_cons (Bs4.descendants d) post d), omap_app.
  rewrite (all_strings_tag d Hd). eauto.
Qed.

Lemma join_empty_sep (parts : list str) : Py.join [] parts = mjoin parts.
Proof.
  induction parts as [|p parts IH]; [done|].
  destruct parts as [|q parts]; [simpl; by rewrite app_nil_r|].
  change (Py.join [] (p :: q :: parts))
    with (p ++ [] ++ Py.join [] (q :: parts)).
  by rewrite IH.
Qed.

Lemma get_text_strip_length (n d : Bs4.node) :
  d ∈ Bs4.descendants n → Bs4.is_tag d = true →
  length (Bs4.get_text_strip [] d) ≤ length (Bs4.get_text_strip [] n).
Proof.
  intros Hd Ht. destruct (all_strings_infix n d Hd Ht) as (pre & post & Hn).
  unfold Bs4.get_text_strip. rewrite !join_empty_sep, Hn.
  rewrite !fmap_app, !filter_app, !join_app, !length_app. lia.
Qed.

Lemma text_block_is_tag (child : Bs4.node) :
  is_Some (text_block child) → Bs4.is_tag child = true.
Proof. destruct child; [by intros [? ?]|done]. Qed.

(** X15.  Blocks nest: for an element [c] below [element], every block found
    below [c] is also found below [element]; and when [c] is itself one
    of the block elements and holds a block, [c] is reported as well,
    with a text at least as long. *)
Theorem extract_text_blocks_enclosing (element c : Bs4.node)
    (blk : TextBlock) :
  c ∈ Bs4.descendants element →
  blk ∈ extract_text_blocks (Some c) →
  blk ∈ extract_text_blocks (Some element) ∧
  (Bs4.named block_tags c = true →
   ∃ outer, outer ∈ extract_text_blocks (Some element) ∧
            block_html outer = c ∧
            length (block_text blk) ≤ length (block_text outer)).
Proof.
  unfold extract_text_blocks. intros Hc (d & Hd & Hblk)%list_elem_of_omap.
  split.
  { apply list_elem_of_omap. exists d.
    split; [by eapply descendants_trans|done]. }
  unfold Bs4.named. destruct (Bs4.name_of c) as [name|] eqn:Hname; [|done].
  intros Hn%bool_decide_eq_true.
  assert (Bs4.is_tag d = true) as Hdt by (by apply text_block_is_tag).
  pose proof (get_text_strip_length c d Hd Hdt) as Hlen.
  apply text_block_spec in Hblk as (_ & _ & Htext & Hlong & _).
  rewrite <- Htext in Hlen.
  exists (mkTextBlock name (Bs4.get_text_strip [] c) c).
  split; [|done].
  apply list_elem_of_omap. exists c. split; [done|].
  unfold text_block. rewrite Hname, bool_decide_eq_true_2 by done. cbv zeta.
  rewrite (bool_decide_eq_true_2 (10 < _)) by lia.
  rewrite bool_decide_eq_false_2; [done|].
  intros Hnil. rewrite Hnil in Hlen. simpl in Hlen. lia.
Qed.

(** The theorem at a paragraph inside a [div] inside a [div]. *)
Lemma extract_text_blocks_enclosing_witness :
  let inner := Bs4.Tag 2 (lit "p") ∅
                 [Bs4.NavigableString (lit "Introduction to the course")] in
  let c := Bs4.Tag 1 (lit "div") ∅ [inner] in
  let blk := mkTextBlock (lit "p") (lit "Introduction to the course") inner in
  blk ∈ extract_text_blocks (Some nested_blocks) ∧
  (Bs4.named block_tags c = true →
   ∃ outer, outer ∈ extract_text_blocks (Some nested_blocks) ∧
            block_html outer = c ∧
            length (block_text blk) ≤ length (block_text outer)).
Proof.
  cbv zeta.
  apply (extract_text_blocks_enclosing nested_blocks
           (Bs4.Tag 1 (lit "div") ∅
              [Bs4.Tag 2 (lit "p") ∅
                 [Bs4.NavigableString (lit "Introduction to the course")]])
           (mkTextBlock (lit "p") (lit "Introduction to the course")
              (Bs4.Tag 2 (lit "p") ∅
                 [Bs4.NavigableString (lit "Introduction to the course")]))).
  - vm_compute. left.
  - vm_compute. left.
Defined.

(** ** The region after a marker *)

Lemma append_all j name attrs cs elems soup :
  foldl (λ '(container, soup) elem, Bs4.append container elem soup)
        (Bs4.Tag j name attrs cs, soup) elems
  = (Bs4.Tag j name attrs (cs ++ elems), without soup elems).
Proof.
  revert cs soup. induction elems as [|e elems IH]; intros cs soup.
  { by rewrite app_nil_r. }
  cbn [foldl]. unfold Bs4.append at 2. rewrite IH.
  by rewrite <- app_assoc.
Qed.

(** What the function returns when the marker is found. *)
Lemma extract_content_after_marker_found soup marker_text marker_elem rest :
  found_elements soup marker_text = marker_elem :: rest →
  extract_content_after_marker (Some soup) marker_text
  = (Some (Bs4.Tag (S (Bs4.max_ident soup)) (lit "div") ∅
             (content_elements soup marker_elem)),
     Some (without soup (content_elements soup marker_elem))).
Proof.
  intros Hf. unfold extract_content_after_marker, content_elements.
  rewrite Hf. cbv zeta. destruct (walk_up _ _) as [current chain].
  unfold Bs4.new_tag. by rewrite append_all.
Qed.

Lemma ancestors_tag i j name attrs cs chain :
  Bs4.ancestors i (Bs4.Tag j name attrs cs) = Some chain → j ≠ i →
  ∃ c ch, c ∈ cs ∧ Bs4.ancestors i c = Some ch ∧
          chain = ch ++ [Bs4.Tag j name attrs cs].
Proof.
  cbn [Bs4.ancestors]. intros Hc Hj.
  rewrite bool_decide_eq_false_2 in Hc by done.
  set (n := Bs4.Tag j name attrs cs) in *. clearbody n.
  induction cs as [|c cs IH]; [done|].
  destruct (Bs4.ancestors i c) as [ch|] eqn:Ec.
  - injection Hc as <-. exists c, ch. split; [by left|done].
  - destruct (IH Hc) as (c' & ch' & ? & ? & ?).
    exists c', ch'. split; [by right|done].
Qed.

(** The ancestors of a tag are the root or lie below it. *)
Lemma ancestors_subtrees i (n : Bs4.node) chain :
  Bs4.ancestors i n = Some chain →
  Forall (λ p, p = n ∨ p ∈ Bs4.descendants n) chain.
Proof.
  revert chain.
  induction n as [s|j name attrs cs IH] using node_induction; intros chain;
    [done|].
  destruct (decide (j = i)) as [->|Hj].
  { cbn [Bs4.ancestors]. rewrite bool_decide_eq_true_2 by done.
    by intros [= <-]. }
  intros (c & ch & Hc & Hch & ->)%ancestors_tag; [|done].
  rewrite Forall_forall in IH. specialize (IH c Hc ch Hch).
  apply Forall_app. split; [|by constructor; [left|]].
  eapply Forall_impl; [exact IH|]. intros p [->|Hp]; right.
  - by apply (contents_descendants (Bs4.Tag j name attrs cs)).
  - eapply descendants_trans; [|exact Hp].
    by apply (contents_descendants (Bs4.Tag j name attrs cs)).
Qed.

Lemma walk_up_suffix current chain :
  ∃ pre, chain = pre ++ (walk_up current chain).2.
Proof.
  revert current. induction chain as [|parent chain IH]; intros current.
  { by exists []. }
  cbn [walk_up]. destruct (negb _); [|by exists []].
  case_bool_decide; [by exists []|].
  destruct (IH parent) as (pre & Hpre). exists (parent :: pre).
  by rewrite Hpre at 1.
Qed.

Lemma find_next_siblings_spec i parent e :
  e ∈ Bs4.find_next_siblings i parent →
  Bs4.is_tag e = true ∧ e ∈ Bs4.contents_of parent.
Proof.
  unfold Bs4.find_next_siblings.
  intros [Ht He]%list_elem_of_filter. split; [done|].
  induction (Bs4.contents_of parent) as [|c cs IH]; [done|].
  case_bool_decide; [by right|]. right. by apply IH.
Qed.

Lemma next_siblings_of_spec element chain e :
  e ∈ next_siblings_of element chain →
  Bs4.is_tag e = true ∧ ∃ parent, parent ∈ chain ∧ e ∈ Bs4.contents_of parent.
Proof.
  unfold next_siblings_of.
  destruct (Bs4.ident_of element) as [i|]; [|by intros ?%elem_of_nil].
  destruct chain as [|parent chain]; [by intros ?%elem_of_nil|].
  intros [? ?]%find_next_siblings_spec. split; [done|].
  exists parent. split; [by left|done].
Qed.

(** The collected elements are tags, and they come from the document. *)
Lemma content_elements_spec soup marker_elem e :
  e ∈ content_elements soup marker_elem →
  Bs4.is_tag e = true ∧ e ∈ Bs4.descendants soup.
Proof.
  unfold content_elements. cbv zeta.
  set (chain0 := default [] _).
  assert (Forall (λ p, p = soup ∨ p ∈ Bs4.descendants soup) chain0) as Hc0.
  { subst chain0. destruct (Bs4.ident_of marker_elem) as [i|]; [|done].
    simpl. destruct (Bs4.ancestors i soup) as [chain|] eqn:E; [|done].
    by apply ancestors_subtrees in E. }
  destruct (walk_up_suffix marker_elem chain0) as (pre & Hpre).
  destruct (walk_up marker_elem chain0) as [current chain]. simpl in Hpre.
  rewrite Hpre in Hc0. apply Forall_app in Hc0 as [_ Hc].
  assert (∀ el ch, (∀ p, p ∈ ch → p ∈ chain) →
            e ∈ next_siblings_of el ch →
            Bs4.is_tag e = true ∧ e ∈ Bs4.descendants soup) as Hstep.
  { intros el ch Hsub (Ht & parent & Hp & He)%next_siblings_of_spec.
    split; [done|]. rewrite Forall_forall in Hc.
    destruct (Hc parent (Hsub _ Hp)) as [->|Hd].
    - by apply contents_descendants.
    - eapply descendants_trans; [exact Hd|by apply contents_descendants]. }
  destruct (next_siblings_of current chain) as [|x l] eqn:En.
  - destruct chain as [|parent chain']; [by intros ?%elem_of_nil|].
    apply Hstep. intros p Hp. by right.
  - rewrite <- En. by apply Hstep.
Qed.

(** X16.  When the marker is found, the region is a new [div] outside the
    document; it holds tags only, never a bare string, and each of them
    is taken from the document. *)
Theorem extract_content_after_marker_container (soup : Bs4.node)
    (marker_text : str) :
  found_elements soup marker_text ≠ [] →
  ∃ elems,
    (extract_content_after_marker (Some soup) marker_text).1
    = Some (Bs4.Tag (S (Bs4.max_ident soup)) (lit "div") ∅ elems) ∧
    Forall (λ e, Bs4.is_tag e = true ∧ e ∈ Bs4.descendants soup) elems.
Proof.
  destruct (found_elements soup marker_text) as [|marker_elem rest] eqn:Hf;
    [done|]. intros _.
  rewrite (extract_content_after_marker_found _ _ _ _ Hf).
  eexists. split; [done|]. apply Forall_forall.
  intros e. apply content_elements_spec.
Qed.

(** The theorem at the syllabus page. *)
Lemma extract_content_after_marker_container_witness :
  ∃ elems,
    (extract_content_after_marker (Some syllabus_page)
       (lit "Course Syllabus")).1
    = Some (Bs4.Tag (S (Bs4.max_ident syllabus_page)) (lit "div") ∅ elems) ∧
    Forall (λ e, Bs4.is_tag e = true ∧ e ∈ Bs4.descendants syllabus_page)
           elems.
Proof.
  apply (extract_content_after_marker_container syllabus_page
           (lit "Course Syllabus")).
  by vm_compute.
Defined.

Lemma contains_empty (haystack : str) : contains haystack [] = true.
Proof. by destruct haystack. Qed.

(** X18.  The empty marker is found in every candidate element: the first
    [b], [strong], [h1]..[h4], [p] or [font] element of the document is
    taken as the marker element, and the fallback to the body is used only
    when the document has none. *)
Theorem extract_content_after_marker_empty_marker (soup : Bs4.node) :
  found_elements soup [] = Bs4.find_all marker_tags soup ∧
  match Bs4.find_all marker_tags soup with
  | [] =>
      extract_content_after_marker (Some soup) []
      = (Some (default soup (Bs4.body soup)), Some soup)
  | first :: _ =>
      extract_content_after_marker (Some soup) []
      = (Some (Bs4.Tag (S (Bs4.max_ident soup)) (lit "div") ∅
                 (content_elements soup first)),
         Some (without soup (content_elements soup first)))
  end.
Proof.
  assert (found_elements soup [] = Bs4.find_all marker_tags soup) as Hf.
  { unfold found_elements.
    induction (Bs4.find_all marker_tags soup) as [|e l IH]; [done|].
    rewrite filter_cons, IH.
    by rewrite decide_True by apply contains_empty. }
  split; [done|].
  destruct (Bs4.find_all marker_tags soup) as [|first rest] eqn:Ec.
  - unfold extract_content_after_marker. by rewrite Hf.
  - by apply (extract_content_after_marker_found soup [] first rest).
Qed.

(** ** Taking elements out of the document *)

Lemma count_nodes_tag i name attrs cs :
  count_nodes (Bs4.Tag i name attrs cs) = S (sum_list (count_nodes <$> cs)).
Proof.
  cbn [count_nodes]. f_equal. induction cs as [|c cs IH]; [done|].
  rewrite fmap_cons. cbn [sum_list_with id]. by rewrite IH.
Qed.

Lemma count_nodes_pos (n : Bs4.node) : 0 < count_nodes n.
Proof. destruct n; [simpl; lia|rewrite count_nodes_tag; lia]. Qed.

Lemma extract_tag i j name attrs cs :
  Bs4.extract i (Bs4.Tag j name attrs cs)
  = Bs4.Tag j name attrs
      (Bs4.extract i <$> filter (λ c, Bs4.ident_of c ≠ Some i) cs).
Proof.
  cbn [Bs4.extract]. f_equal. induction cs as [|c cs IH]; [done|].
  rewrite filter_cons. case_bool_decide as Hc.
  - by rewrite decide_False by (by intros ?).
  - by rewrite decide_True, fmap_cons, IH by done.
Qed.

Lemma extract_children_le i cs :
  Forall (λ c, count_nodes (Bs4.extract i c) ≤ count_nodes c) cs →
  sum_list (count_nodes <$>
              (Bs4.extract i <$> filter (λ c, Bs4.ident_of c ≠ Some i) cs))
  ≤ sum_list (count_nodes <$> cs).
Proof.
  induction 1 as [|c cs Hc _ IH]; [done|].
  rewrite filter_cons.
  case_decide; rewrite ?fmap_cons; cbn [sum_list_with id]; lia.
Qed.

Lemma extract_le i (n : Bs4.node) :
  count_nodes (Bs4.extract i n) ≤ count_nodes n.
Proof.
  induction n as [s|j name attrs cs IH] using node_induction; [done|].
  rewrite extract_tag, !count_nodes_tag.
  apply le_n_S. by apply extract_children_le.
Qed.

(** Taking out a tag that is in the tree leaves fewer nodes. *)
Lemma extract_lt i (n d : Bs4.node) :
  d ∈ Bs4.descendants n → Bs4.ident_of d = Some i →
  count_nodes (Bs4.extract i n) < count_nodes n.
Proof.
  induction n as [s|j name attrs cs IH] using node_induction.
  { by intros ?%elem_of_nil. }
  rewrite descendants_tag. intros (c & Hd & Hc)%list_elem_of_bind Hi.
  rewrite extract_tag, !count_nodes_tag. apply (proj1 (Nat.succ_lt_mono _ _)).
  apply list_elem_of_split in Hc as (cs1 & cs2 & ->).
  apply Forall_app in IH as [_ [IHc _]%Forall_cons].
  rewrite filter_app, filter_cons, !fmap_app, !sum_list_with_app.
  pose proof (extract_children_le i cs1) as H1.
  pose proof (extract_children_le i cs2) as H2.
  lapply H1; [clear H1; intros H1|apply Forall_forall; intros; apply extract_le].
  lapply H2; [clear H2; intros H2|apply Forall_forall; intros; apply extract_le].
  rewrite !fmap_cons. cbn [sum_list_with id].
  pose proof (count_nodes_pos c) as Hpos.
  case_decide as Hci.
  - rewrite !fmap_cons. cbn [sum_list_with id].
    apply elem_of_cons in Hd as [->|Hd]; [done|].
    specialize (IHc Hd Hi). lia.
  - lia.
Qed.

Lemma without_le soup elems :
  count_nodes (without soup elems) ≤ count_nodes soup.
Proof.
  unfold without. revert soup.
  induction elems as [|e elems IH]; intros soup; [done|].
  cbn [foldl]. etrans; [apply IH|].
  destruct (Bs4.ident_of e); [apply extract_le|done].
Qed.

Lemma without_lt soup elems :
  elems ≠ [] →
  Forall (λ e, Bs4.is_tag e = true ∧ e ∈ Bs4.descendants soup) elems →
  count_nodes (without soup elems) < count_nodes soup.
Proof.
  destruct elems as [|e elems]; [done|]. intros _ [[Ht He] _]%Forall_cons.
  unfold without. cbn [foldl]. fold (without
    match Bs4.ident_of e with
    | Some i => Bs4.extract i soup
    | None => soup
    end elems).
  eapply Nat.le_lt_trans; [apply without_le|].
  destruct e as [s|i name attrs cs]; [done|].
  by apply (extract_lt i soup (Bs4.Tag i name attrs cs)).
Qed.

(** X17.  When the marker is found, the document is left as it was exactly when
    nothing follows the marker; otherwise the call takes the collected
    elements out of it, and the document has fewer nodes afterwards. *)
Theorem extract_content_after_marker_changes_document (soup : Bs4.node)
    (marker_text : str) (container soup' : Bs4.node) :
  found_elements soup marker_text ≠ [] →
  extract_content_after_marker (Some soup) marker_text
    = (Some container, Some soup') →
  (Bs4.contents_of container = [] → soup' = soup) ∧
  (Bs4.contents_of container ≠ [] →
   count_nodes soup' < count_nodes soup ∧ soup' ≠ soup).
Proof.
  destruct (found_elements soup marker_text) as [|marker_elem rest] eqn:Hf;
    [done|]. intros _.
  rewrite (extract_content_after_marker_found _ _ _ _ Hf).
  intros [= <- <-]. cbn [Bs4.contents_of]. split.
  - by intros ->.
  - intros Hne.
    assert (count_nodes (without soup (content_elements soup marker_elem))
            < count_nodes soup) as Hlt.
    { apply without_lt; [done|]. apply Forall_forall.
      intros e. apply content_elements_spec. }
    split; [done|]. intros Heq. rewrite Heq in Hlt. lia.
Qed.

(** The theorem at the syllabus page: the paragraph after the marker
    leaves the document. *)
Lemma extract_content_after_marker_changes_document_witness :
  let container :=
    Bs4.Tag 4 (lit "div") ∅
      [Bs4.Tag 3 (lit "p") ∅ [Bs4.NavigableString (lit "Week 1")]] in
  let soup' :=
    Bs4.Tag 0 (lit "[document]") ∅
      [Bs4.Tag 1 (lit "body") ∅
         [Bs4.Tag 2 (lit "b") ∅
            [Bs4.NavigableString (lit "Course Syllabus")]]] in
  (Bs4.contents_of container = [] → soup' = syllabus_page) ∧
  (Bs4.contents_of container ≠ [] →
   count_nodes soup' < count_nodes syllabus_page ∧ soup' ≠ syllabus_page).
Proof.
  cbv zeta.
  apply (extract_content_after_marker_changes_document syllabus_page
           (lit "Course Syllabus")).
  - by vm_compute.
  - by vm_compute.
Defined.

(** ** Fragments and relative URLs *)

Lemma find_app c (s t : str) :
  Py.find c (s ++ t)
  = match Py.find c s with
    | Some i => Some i
    | None => (λ i, length s + i) <$> Py.find c t
    end.
Proof.
  induction s as [|x s IH].
  { cbn [app Py.find length]. by destruct (Py.find c t). }
  cbn [app Py.find length]. case_bool_decide; [done|]. rewrite IH.
  destruct (Py.find c s); [done|]. by destruct (Py.find c t).
Qed.

Lemma find_here c (s : str) : Py.find c (c :: s) = Some 0.
Proof. cbn [Py.find]. by rewrite bool_decide_eq_true_2. Qed.

Lemma remove_unsafe_app (s t : str) :
  Urllib.remove_unsafe (s ++ t)
  = Urllib.remove_unsafe s ++ Urllib.remove_unsafe t.
Proof.
  unfold Urllib.remove_unsafe, Urllib.unsafe_url_bytes_to_remove.
  cbn [foldl]. unfold replace_char. by rewrite !bind_app.
Qed.

Lemma splitnetloc_fragment (rest frag : str) :
  Forall (λ x, plain_char x = true) rest →
  Urllib.splitnetloc (lit "//" ++ rest ++ "#"%char :: frag) 2
  = (take (netloc_end rest) rest,
     drop (netloc_end rest) rest ++ "#"%char :: frag).
Proof.
  intros Hs. unfold Urllib.splitnetloc, netloc_end.
  change (lit "/?#") with ["/"; "?"; "#"]%char. cbn [foldl].
  unfold Py.find_from.
  change (drop 2 (lit "//" ++ rest ++ "#"%char :: frag))
    with (rest ++ "#"%char :: frag).
  rewrite !find_app.
  rewrite (find_absent "?" rest) by (apply plain_not_in; [in_list|done]).
  rewrite (find_absent "#" rest) by (apply plain_not_in; [in_list|done]).
  rewrite find_here.
  change (length (lit "//" ++ rest ++ "#"%char :: frag))
    with (S (S (length (rest ++ "#"%char :: frag)))).
  rewrite length_app. cbn [length].
  assert (∀ x (l : str), slice (lit "//" ++ l) 2 (2 + x) = take x l) as Hsl.
  { intros x l. unfold slice. change (drop 2 (lit "//" ++ l)) with l.
    f_equal. lia. }
  assert (∀ x (l : str), drop (2 + x) (lit "//" ++ l) = drop x l) as Hdr
    by done.
  destruct (Py.find "/" rest) as [i|] eqn:Ei.
  - apply find_present in Ei as [Hi _].
    cbn [fmap option_fmap option_map default id].
    match goal with
    | |- (slice _ _ ?delim, drop ?delim _) = _ =>
        replace delim with (2 + i)
    end.
    + rewrite Hsl, Hdr, take_app_le, drop_app_le by lia. done.
    + destruct (Py.find "?" ("#"%char :: frag));
        cbn [fmap option_fmap option_map]; lia.
  - cbn [fmap option_fmap option_map default id].
    match goal with
    | |- (slice _ _ ?delim, drop ?delim _) = _ =>
        replace delim with (2 + length rest)
    end.
    + rewrite Hsl, Hdr, take_app_length, drop_app_length.
      by rewrite firstn_all, drop_all.
    + destruct (Py.find "/" ("#"%char :: frag)),
        (Py.find "?" ("#"%char :: frag));
        cbn [fmap option_fmap option_map]; lia.
Qed.

Lemma urlsplit_fragment (p rest frag : str) :
  p ∈ [lit "http"; lit "https"] →
  Forall (λ x, plain_char x = true) rest →
  Urllib.urlsplit (p ++ lit "://" ++ rest ++ "#"%char :: frag) []
  = Some (p, take (netloc_end rest) rest, drop (netloc_end rest) rest, [],
          Urllib.remove_unsafe frag).
Proof.
  intros Hp Hs.
  assert (Forall (λ x, plain_char x = true) (p ++ lit "://" ++ rest)) as Hall.
  { rewrite !Forall_app. split; [|split; [|done]].
    - rewrite !elem_of_cons, elem_of_nil in Hp.
      destruct Hp as [->|[->|[]]]; repeat constructor.
    - repeat constructor. }
  unfold Urllib.urlsplit. cbv zeta.
  assert (Py.lstrip Urllib.c0_control_or_space
            (p ++ lit "://" ++ rest ++ "#"%char :: frag)
          = p ++ lit "://" ++ rest ++ "#"%char :: frag) as ->.
  { rewrite !elem_of_cons, elem_of_nil in Hp.
    destruct Hp as [->|[->|[]]]; reflexivity. }
  assert (Urllib.remove_unsafe (p ++ lit "://" ++ rest ++ "#"%char :: frag)
          = p ++ lit "://" ++ rest ++ "#"%char :: Urllib.remove_unsafe frag)
    as ->.
  { rewrite !app_assoc, remove_unsafe_app, <- !app_assoc.
    rewrite (remove_unsafe_plain _ Hall), <- !app_assoc. do 3 f_equal. }
  set (frag' := Urllib.remove_unsafe frag). clearbody frag'.
  assert (Py.find ":" (p ++ lit "://" ++ rest ++ "#"%char :: frag')
          = Some (length p)) as ->.
  { rewrite !elem_of_cons, elem_of_nil in Hp.
    destruct Hp as [->|[->|[]]]; reflexivity. }
  assert (match p ++ lit "://" ++ rest ++ "#"%char :: frag' with
          | [] => (Urllib.remove_unsafe (Py.strip Urllib.c0_control_or_space []),
                   p ++ lit "://" ++ rest ++ "#"%char :: frag')
          | c :: _ =>
              if bool_decide (0 < length p) && Py.is_ascii_alpha c
                 && forallb (λ c0, bool_decide (c0 ∈ Urllib.scheme_chars))
                      (take (length p)
                         (p ++ lit "://" ++ rest ++ "#"%char :: frag'))
              then (Py.lower (take (length p)
                                (p ++ lit "://" ++ rest ++ "#"%char :: frag')),
                    drop (length p + 1)
                      (p ++ lit "://" ++ rest ++ "#"%char :: frag'))
              else (Urllib.remove_unsafe (Py.strip Urllib.c0_control_or_space []),
                    p ++ lit "://" ++ rest ++ "#"%char :: frag')
          end = (p, lit "//" ++ rest ++ "#"%char :: frag')) as ->.
  { rewrite !elem_of_cons, elem_of_nil in Hp.
    destruct Hp as [->|[->|[]]]; reflexivity. }
  rewrite bool_decide_eq_true_2 by reflexivity.
  rewrite splitnetloc_fragment by done.
  destruct (plain_take_drop rest (netloc_end rest) "["%char) as [H1 _];
    [in_list|done|].
  destruct (plain_take_drop rest (netloc_end rest) "]"%char) as [H2 _];
    [in_list|done|].
  destruct (plain_take_drop rest (netloc_end rest) "#"%char) as [_ H3];
    [in_list|done|].
  destruct (plain_take_drop rest (netloc_end rest) "?"%char) as [_ H4];
    [in_list|done|].
  rewrite (bool_decide_eq_false_2 _ H1), (bool_decide_eq_false_2 _ H2).
  cbn [andb orb negb]. cbv beta iota.
  rewrite bool_decide_eq_true_2
    by (apply elem_of_app; right; by left).
  unfold Urllib.split_once, Py.partition.
  rewrite find_app, (find_absent _ _ H3), find_here.
  cbn [fmap option_fmap option_map].
  set (path := drop (netloc_end rest) rest) in *. clearbody path.
  rewrite Nat.add_0_r, take_app_length, drop_app_ge by lia.
  replace (S (length path) - length path) with 1 by lia.
  rewrite (bool_decide_eq_false_2 _ H4). cbn [drop].
  by rewrite checknetloc_ok by apply netloc_end_no_slash.
Qed.

Lemma urlparse_fragment (p rest frag : str) :
  p ∈ [lit "http"; lit "https"] →
  Forall (λ x, plain_char x = true) rest →
  Urllib.urlparse (p ++ lit "://" ++ rest ++ "#"%char :: frag) []
  = Some (Urllib.mkParseResult p (take (netloc_end rest) rest)
            (drop (netloc_end rest) rest) [] [] (Urllib.remove_unsafe frag)).
Proof.
  intros Hp Hs. unfold Urllib.urlparse. rewrite urlsplit_fragment by done.
  destruct (plain_take_drop rest (netloc_end rest) ";"%char) as [_ H1];
    [in_list|done|].
  rewrite (bool_decide_eq_false_2 _ H1), andb_false_r. done.
Qed.

Lemma normalize_url_fragment (p rest frag base_url : str) :
  p ∈ [lit "http"; lit "https"] →
  Forall (λ x, plain_char x = true) rest →
  normalize_url (p ++ lit "://" ++ rest ++ "#"%char :: frag) base_url
  = Some (Py.lower (Py.rstrip ["/"%char] (p ++ lit "://" ++ rest))).
Proof.
  intros Hp Hs. rewrite normalize_url_unfold.
  rewrite absolute_url_absolute by (by apply is_absolute_scheme).
  cbn [mbind option_bind]. rewrite urlparse_fragment by done.
  cbn [mbind option_bind]. unfold reassemble.
  cbn [Urllib.scheme Urllib.netloc Urllib.path Urllib.query].
  rewrite bool_decide_eq_true_2 by done. cbn [negb].
  by rewrite take_drop.
Qed.

Lemma urlsplit_relative (url : str) :
  Forall (λ x, plain_char x = true) url → ":"%char ∉ url →
  Py.lstrip Urllib.c0_control_or_space url = url →
  Py.startswith url (lit "//") = false →
  Urllib.urlsplit url [] = Some ([], [], url, [], []).
Proof.
  intros Hs Hcolon Hstrip Hrel. unfold Urllib.urlsplit. cbv zeta.
  rewrite Hstrip, (remove_unsafe_plain _ Hs), (find_absent _ _ Hcolon).
  assert (take 2 url ≠ lit "//") as Hnet.
  { intros Heq. rewrite <- (take_drop 2 url), Heq in Hrel.
    by rewrite startswith_prefix in Hrel. }
  rewrite (bool_decide_eq_false_2 _ Hnet).
  rewrite bool_decide_eq_false_2 by (apply plain_not_in; [in_list|done]).
  rewrite bool_decide_eq_false_2 by (apply plain_not_in; [in_list|done]).
  reflexivity.
Qed.

Lemma normalize_url_relative_path (url : str) :
  Forall (λ x, plain_char x = true) url → ":"%char ∉ url →
  Py.lstrip Urllib.c0_control_or_space url = url →
  Py.startswith url (lit "//") = false →
  normalize_url url []
  = Some (Py.lower (Py.rstrip ["/"%char] (lit "://" ++ url))).
Proof.
  intros Hs Hcolon Hstrip Hrel. rewrite normalize_url_unfold.
  rewrite absolute_url_no_base. cbn [mbind option_bind].
  unfold Urllib.urlparse. rewrite urlsplit_relative by done.
  rewrite (bool_decide_eq_false_2 (";"%char ∈ url))
    by (apply plain_not_in; [in_list|done]).
  rewrite andb_false_r. cbn [mbind option_bind]. unfold reassemble.
  cbn [Urllib.scheme Urllib.netloc Urllib.path Urllib.query].
  by rewrite bool_decide_eq_true_2 by done.
Qed.

(** X19.  A fragment plays no part: for an absolute URL of the Latin-1
    range without [?], [#], [;], bracket, tab, line feed or carriage
    return, the normal form is the URL less its trailing slashes, in lower
    case, and appending [#] and any fragment of that range leaves the
    normal form as it is.  [_checknetloc] is part of [urlsplit] here: on
    this range it lets every such netloc pass. *)
Theorem normalize_url_ignores_fragment (url frag base_url : str) :
  is_absolute url = true → forallb plain_char url = true →
  normalize_url url base_url = Some (Py.lower (Py.rstrip ["/"%char] url)) ∧
  normalize_url (url ++ lit "#" ++ frag) base_url = normalize_url url base_url.
Proof.
  intros Habs Hplain.
  destruct (is_absolute_split url Habs) as (p & rest & Hp & ->).
  assert (Forall (λ x, plain_char x = true) rest) as Hs.
  { apply Forall_forall. intros c Hc.
    rewrite forallb_forall in Hplain. apply Hplain.
    apply list_elem_of_In. rewrite !elem_of_app. auto. }
  rewrite normalize_url_plain by done. split; [done|].
  rewrite <- !app_assoc. change (lit "#" ++ frag) with ("#"%char :: frag).
  by apply normalize_url_fragment.
Qed.

(** The theorem at an absolute URL with capitals and a trailing slash. *)
Lemma normalize_url_ignores_fragment_witness :
  normalize_url (lit "https://Example.com/Course/") (lit "http://base/")
    = Some (Py.lower (Py.rstrip ["/"%char] (lit "https://Example.com/Course/")))
  ∧ normalize_url (lit "https://Example.com/Course/" ++ lit "#" ++ lit "week-1")
                  (lit "http://base/")
    = normalize_url (lit "https://Example.com/Course/") (lit "http://base/").
Proof.
  apply (normalize_url_ignores_fragment (lit "https://Example.com/Course/")
           (lit "week-1") (lit "http://base/")).
  - reflexivity.
  - reflexivity.
Defined.

(** X20.  Without a base, as [main] calls [compare_links], a relative URL is
    not resolved: when it holds no colon, no [?], [#], [;], bracket, tab,
    line feed or carriage return, and starts neither with a control
    character or space nor with [//], its normal form is [://] followed by
    the URL, less the trailing slashes, in lower case. *)
Theorem normalize_url_relative (url : str) :
  forallb plain_char url = true → ":"%char ∉ url →
  Py.lstrip Urllib.c0_control_or_space url = url →
  Py.startswith url (lit "//") = false →
  normalize_url url []
  = Some (Py.lower (Py.rstrip ["/"%char] (lit "://" ++ url))).
Proof.
  intros Hplain. apply normalize_url_relative_path.
  apply Forall_forall. intros c Hc.
  rewrite forallb_forall in Hplain. apply Hplain. by apply list_elem_of_In.
Qed.

(** The theorem at a relative path with capitals and a trailing slash. *)
Lemma normalize_url_relative_witness :
  normalize_url (lit "/Docs/Week-1/") []
  = Some (Py.lower (Py.rstrip ["/"%char] (lit "://" ++ lit "/Docs/Week-1/"))).
Proof.
  apply (normalize_url_relative (lit "/Docs/Week-1/")).
  - reflexivity.
  - compute_done.
  - reflexivity.
  - reflexivity.
Defined.

(** ** URLs without brackets *)

Lemma lstrip_subseteq cs (s : str) : Py.lstrip cs s ⊆ s.
Proof.
  destruct (lstrip_split cs s) as (pre & Hs & _). intros c Hc.
  rewrite Hs. apply elem_of_app. by right.
Qed.

Lemma remove_unsafe_subseteq (s : str) : Urllib.remove_unsafe s ⊆ s.
Proof.
  unfold Urllib.remove_unsafe, Urllib.unsafe_url_bytes_to_remove.
  cbn [foldl]. intros c Hc.
  by do 3 apply replace_char_subseteq in Hc.
Qed.

Lemma splitnetloc_subseteq (url : str) start :
  (Urllib.splitnetloc url start).1 ⊆ url.
Proof.
  unfold Urllib.splitnetloc, slice. cbn [fst]. intros c Hc.
  by apply subseteq_take, subseteq_drop in Hc.
Qed.

(** On the Latin-1 range [urlsplit] raises only on a URL that holds a
    square bracket. *)
Lemma urlsplit_no_brackets (url scheme : str) :
  "["%char ∉ url → "]"%char ∉ url → is_Some (Urllib.urlsplit url scheme).
Proof.
  intros Ho Hc. unfold Urllib.urlsplit. cbv zeta.
  set (u1 := Urllib.remove_unsafe (Py.lstrip Urllib.c0_control_or_space url)).
  assert (u1 ⊆ url) as H1.
  { subst u1. intros c Hin.
    by apply remove_unsafe_subseteq, lstrip_subseteq in Hin. }
  clearbody u1.
  set (s1 := Urllib.remove_unsafe (Py.strip Urllib.c0_control_or_space scheme)).
  clearbody s1.
  destruct (match Py.find ":" u1, u1 with
            | Some i, c :: _ =>
                if bool_decide (0 < i) && Py.is_ascii_alpha c
                   && forallb (λ c, bool_decide (c ∈ Urllib.scheme_chars))
                        (take i u1)
                then (Py.lower (take i u1), drop (i + 1) u1)
                else (s1, u1)
            | _, _ => (s1, u1)
            end) as [s2 u2] eqn:E.
  assert (u2 ⊆ url) as H2.
  { destruct (Py.find ":" u1) as [i|]; [|by injection E as <- <-].
    destruct u1 as [|c u1']; [by injection E as <- <-|].
    destruct (_ && _ && _); injection E as <- <-; [|done].
    intros x Hx. by apply subseteq_drop, H1 in Hx. }
  clear E. case_bool_decide as Hnet; cycle 1.
  { cbv beta iota. change (Urllib.checknetloc []) with true.
    repeat (first [case_bool_decide | destruct (Urllib.split_once _ _)]);
      by eexists. }
  pose proof (splitnetloc_subseteq u2 2) as Hn.
  pose proof (splitnetloc_no_delimiter u2 2 "/") as Hsl.
  destruct (Urllib.splitnetloc u2 2) as [netloc rest]. cbn [fst] in Hn, Hsl.
  rewrite (bool_decide_eq_false_2 ("["%char ∈ netloc))
    by (intros Hin; by apply Hn, H2 in Hin).
  rewrite (bool_decide_eq_false_2 ("]"%char ∈ netloc))
    by (intros Hin; by apply Hn, H2 in Hin).
  cbn [andb orb negb]. cbv beta iota.
  rewrite (checknetloc_ok netloc) by (apply Hsl; in_list).
  repeat (first [case_bool_decide | destruct (Urllib.split_once _ _)]);
    by eexists.
Qed.

Lemma urlparse_no_brackets (url scheme : str) :
  "["%char ∉ url → "]"%char ∉ url → is_Some (Urllib.urlparse url scheme).
Proof.
  intros Ho Hc. unfold Urllib.urlparse.
  destruct (urlsplit_no_brackets url scheme Ho Hc) as [[[[[s n] u] q] f] ->].
  destruct (_ && _); [destruct (Urllib.splitparams u)|]; by eexists.
Qed.

(** X21.  Without a base, as [main] calls [compare_links], normalisation of
    a URL of the Latin-1 range fails only when the URL holds a square
    bracket: every other link gets a key, and a list of such links loses
    none in the comparison.  [_checknetloc] is part of [urlsplit] here: on
    this range the normal form of a netloc never brings in a delimiter. *)
Theorem normalize_url_total_without_brackets (links : list Link) :
  Forall (λ link, ("["%char ∉ url link) ∧ ("]"%char ∉ url link)) links →
  Forall (λ link, is_Some (normalize_url (url link) [])) links ∧
  normalizable [] links = links.
Proof.
  intros Hall.
  assert (Forall (λ link, is_Some (normalize_url (url link) [])) links) as Hk.
  { eapply Forall_impl; [exact Hall|]. intros link [Ho Hc].
    rewrite normalize_url_unfold, absolute_url_no_base.
    cbn [mbind option_bind].
    destruct (urlparse_no_brackets (url link) [] Ho Hc) as [parsed ->].
    by eexists. }
  split; [done|]. unfold normalizable, key_of.
  induction Hk as [|link links Hl _ IH]; [done|].
  apply Forall_cons in Hall as [_ Hall].
  by rewrite filter_cons, decide_True, IH.
Qed.

(** The theorem at a mail address, a relative path with a space and a
    URL with a malformed port. *)
Lemma normalize_url_total_without_brackets_witness :
  let links := [link_to "mailto:someone@example.com"; link_to "../a b/";
                link_to "http://example.com:80x/"] in
  Forall (λ link, is_Some (normalize_url (url link) [])) links ∧
  normalizable [] links = links.
Proof.
  cbv zeta.
  apply (normalize_url_total_without_brackets
           [link_to "mailto:someone@example.com"; link_to "../a b/";
            link_to "http://example.com:80x/"]).
  repeat constructor; compute_done.
Defined.


(** ** Lower case and the delimiters of a URL *)

Lemma lower_char_delimiter c c0 :
  c0 ∈ delimiters → Py.lower_char c = c0 → c = c0.
Proof.
  intros H0 Hc.
  assert (bool_decide (c0 ∈ delimiters) = true →
          bool_decide (Py.lower_char c = c0 → c = c0) = true) as Hb.
  { clear. destruct c as [[] [] [] [] [] [] [] []];
      vm_compute Py.lower_char; intros H0;
      apply bool_decide_eq_true; intros <-; by vm_compute in H0. }
  lapply Hb; [|by apply bool_decide_eq_true_2].
  intros Hd. apply bool_decide_eq_true in Hd. by apply Hd.
Qed.

Lemma lower_char_of_delimiter c0 :
  c0 ∈ delimiters → Py.lower_char c0 = c0.
Proof.
  unfold delimiters. rewrite !elem_of_cons, elem_of_nil.
  intros H0. destruct_or?; subst; done.
Qed.

Lemma lower_char_eq c c0 :
  c0 ∈ delimiters →
  bool_decide (Py.lower_char c = c0) = bool_decide (c = c0).
Proof.
  intros H0. apply bool_decide_ext. split.
  - by apply lower_char_delimiter.
  - intros ->. by apply lower_char_of_delimiter.
Qed.

Lemma elem_of_lower c0 (s : str) :
  c0 ∈ delimiters → c0 ∈ Py.lower s ↔ c0 ∈ s.
Proof.
  intros H0. unfold Py.lower. rewrite list_elem_of_fmap. split.
  - intros (c & Hc & Hin). symmetry in Hc.
    by apply lower_char_delimiter in Hc as ->.
  - intros Hin. exists c0. by rewrite lower_char_of_delimiter.
Qed.

Lemma find_lower c0 (s : str) :
  c0 ∈ delimiters → Py.find c0 (Py.lower s) = Py.find c0 s.
Proof.
  intros H0. induction s as [|x s IH]; [done|].
  cbn [Py.lower fmap list_fmap Py.find].
  fold (Py.lower s). rewrite IH. by rewrite lower_char_eq.
Qed.

Lemma lower_length (s : str) : length (Py.lower s) = length s.
Proof. apply length_fmap. Qed.

Lemma lower_take n (s : str) : Py.lower (take n s) = take n (Py.lower s).
Proof. apply fmap_take. Qed.

Lemma lower_drop n (s : str) : Py.lower (drop n s) = drop n (Py.lower s).
Proof. apply fmap_drop. Qed.

Lemma lower_reverse (s : str) : Py.lower (reverse s) = reverse (Py.lower s).
Proof. apply fmap_reverse. Qed.

Lemma lower_nil_iff (s : str) : Py.lower s = [] ↔ s = [].
Proof. by destruct s. Qed.

Lemma rfind_lower c0 (s : str) :
  c0 ∈ delimiters → Py.rfind c0 (Py.lower s) = Py.rfind c0 s.
Proof.
  intros H0. unfold Py.rfind.
  by rewrite <- lower_reverse, find_lower, lower_length.
Qed.

Lemma partition_lower c0 (s : str) :
  c0 ∈ delimiters →
  Py.partition c0 (Py.lower s)
  = (Py.lower (Py.partition c0 s).1.1, (Py.partition c0 s).1.2,
     Py.lower (Py.partition c0 s).2).
Proof.
  intros H0. unfold Py.partition. rewrite find_lower by done.
  destruct (Py.find c0 s); cbn [fst snd]; by rewrite ?lower_take, ?lower_drop.
Qed.

Lemma rpartition_lower c0 (s : str) :
  c0 ∈ delimiters →
  Py.rpartition c0 (Py.lower s)
  = (Py.lower (Py.rpartition c0 s).1.1, (Py.rpartition c0 s).1.2,
     Py.lower (Py.rpartition c0 s).2).
Proof.
  intros H0. unfold Py.rpartition. rewrite rfind_lower by done.
  destruct (Py.rfind c0 s); cbn [fst snd]; by rewrite ?lower_take, ?lower_drop.
Qed.

Lemma split_lower c0 (s : str) :
  c0 ∈ delimiters → Py.split c0 (Py.lower s) = Py.lower <$> Py.split c0 s.
Proof.
  intros H0. induction s as [|x s IH]; [done|].
  cbn [Py.lower fmap list_fmap Py.split]. fold (Py.lower s).
  rewrite IH, lower_char_eq by done.
  case_bool_decide; [done|]. by destruct (Py.split c0 s).
Qed.

Lemma lstrip_lower c0 (s : str) :
  c0 ∈ delimiters →
  Py.lstrip [c0] (Py.lower s) = Py.lower (Py.lstrip [c0] s).
Proof.
  intros H0. induction s as [|x s IH]; [done|].
  cbn [Py.lower fmap list_fmap Py.lstrip]. fold (Py.lower s).
  rewrite IH.
  rewrite (bool_decide_ext (Py.lower_char x ∈ [c0]) (x ∈ [c0])).
  - by case_bool_decide.
  - rewrite !list_elem_of_singleton. split.
    + by apply lower_char_delimiter.
    + intros ->. by apply lower_char_of_delimiter.
Qed.

Lemma rstrip_lower c0 (s : str) :
  c0 ∈ delimiters →
  Py.rstrip [c0] (Py.lower s) = Py.lower (Py.rstrip [c0] s).
Proof.
  intros H0. unfold Py.rstrip.
  by rewrite <- lower_reverse, lstrip_lower, lower_reverse.
Qed.

Lemma startswith_lower c0 (s : str) :
  c0 ∈ delimiters →
  Py.startswith (Py.lower s) [c0] = Py.startswith s [c0].
Proof.
  intros H0. destruct s as [|x s]; [done|].
  cbn [Py.lower fmap list_fmap Py.startswith].
  rewrite lower_char_eq by done. by destruct s.
Qed.

(** ** A bracketed host in lower case *)

Lemma is_hex_digit_lower c :
  Py.is_hex_digit (Py.lower_char c) = Py.is_hex_digit c.
Proof. by destruct c as [[] [] [] [] [] [] [] []]. Qed.

Lemma is_ascii_digit_lower c :
  Py.is_ascii_digit (Py.lower_char c) = Py.is_ascii_digit c.
Proof. by destruct c as [[] [] [] [] [] [] [] []]. Qed.

Lemma digit_lower c : Py.is_ascii_digit c = true → Py.lower_char c = c.
Proof. by destruct c as [[] [] [] [] [] [] [] []]. Qed.

Lemma forallb_lower (p : ascii → bool) (s : str) :
  (∀ c, p (Py.lower_char c) = p c) →
  forallb p (Py.lower s) = forallb p s.
Proof.
  intros Hp. induction s as [|x s IH]; [done|].
  cbn [Py.lower fmap list_fmap forallb]. fold (Py.lower s).
  by rewrite Hp, IH.
Qed.

Lemma count_while_lower (p : ascii → bool) (s : str) :
  (∀ c, p (Py.lower_char c) = p c) →
  Py.count_while p (Py.lower s) = Py.count_while p s.
Proof.
  intros Hp. induction s as [|x s IH]; [done|].
  cbn [Py.lower fmap list_fmap Py.count_while]. fold (Py.lower s).
  by rewrite Hp, IH.
Qed.

Lemma digits_lower (s : str) :
  forallb Py.is_ascii_digit s = true → Py.lower s = s.
Proof.
  induction s as [|x s IH]; [done|]. cbn [forallb].
  intros [Hx Hs]%andb_true_iff.
  cbn [Py.lower fmap list_fmap]. fold (Py.lower s).
  by rewrite (digit_lower x Hx), IH.
Qed.

Lemma octet_ok_lower (o : str) :
  Ipaddress.octet_ok (Py.lower o) = Ipaddress.octet_ok o.
Proof.
  destruct (forallb Py.is_ascii_digit o) eqn:E.
  { by rewrite digits_lower. }
  unfold Ipaddress.octet_ok.
  rewrite (forallb_lower _ _ is_ascii_digit_lower), E. cbn [negb].
  rewrite (bool_decide_ext (Py.lower o = []) (o = []))
    by apply lower_nil_iff.
  done.
Qed.

Lemma forallb_fmap_lower (p : str → bool) (parts : list str) :
  (∀ s, p (Py.lower s) = p s) →
  forallb p (Py.lower <$> parts) = forallb p parts.
Proof.
  intros Hp. induction parts as [|x l IH]; [done|].
  cbn [fmap list_fmap forallb]. fold (fmap Py.lower l).
  by rewrite Hp, IH.
Qed.

Lemma elem_of_lower_decide c0 (s : str) :
  c0 ∈ delimiters →
  bool_decide (c0 ∈ Py.lower s) = bool_decide (c0 ∈ s).
Proof. intros H0. apply bool_decide_ext. by apply elem_of_lower. Qed.

Lemma nil_lower_decide (s : str) :
  bool_decide (Py.lower s = []) = bool_decide (s = []).
Proof. apply bool_decide_ext, lower_nil_iff. Qed.

Ltac delimiter := unfold delimiters; in_list.

Lemma ipv4_ok_lower (s : str) :
  Ipaddress.ipv4_ok (Py.lower s) = Ipaddress.ipv4_ok s.
Proof.
  unfold Ipaddress.ipv4_ok.
  rewrite elem_of_lower_decide by delimiter.
  rewrite nil_lower_decide, split_lower by delimiter.
  rewrite length_fmap. by rewrite (forallb_fmap_lower _ _ octet_ok_lower).
Qed.

Lemma hextet_ok_lower (s : str) :
  Ipaddress.hextet_ok (Py.lower s) = Ipaddress.hextet_ok s.
Proof.
  unfold Ipaddress.hextet_ok.
  by rewrite (forallb_lower _ _ is_hex_digit_lower), lower_length,
    nil_lower_decide.
Qed.

Lemma lookup_lower_nil (parts : list str) i :
  (Py.lower <$> parts) !! i = Some [] ↔ parts !! i = Some [].
Proof.
  rewrite list_lookup_fmap. destruct (parts !! i) as [s|]; [|done].
  simpl. split; intros [= Hs]; f_equal.
  - by apply lower_nil_iff.
  - by rewrite Hs.
Qed.

Lemma skip_indices_lower (parts : list str) :
  Ipaddress.skip_indices (Py.lower <$> parts) = Ipaddress.skip_indices parts.
Proof.
  unfold Ipaddress.skip_indices. rewrite length_fmap.
  apply list_filter_iff. intros i. apply lookup_lower_nil.
Qed.

Lemma last_lower_nil (parts : list str) :
  bool_decide (last (Py.lower <$> parts) = Some [])
  = bool_decide (last parts = Some []).
Proof.
  apply bool_decide_ext. rewrite fmap_last.
  destruct (last parts) as [s|]; [|done].
  simpl. split; intros [= Hs]; f_equal.
  - by apply lower_nil_iff.
  - by rewrite Hs.
Qed.

(** The part of [_ip_int_from_string] after the IPv4 suffix is dealt
    with. *)
Lemma hextets_lower (parts : list str) :
  match Ipaddress.skip_indices (Py.lower <$> parts) with
  | [] =>
      bool_decide (length (Py.lower <$> parts) = 8)
      && forallb Ipaddress.hextet_ok (Py.lower <$> parts)
  | [skip_index] =>
      let first_empty := bool_decide ((Py.lower <$> parts) !! 0 = Some []) in
      let last_empty := bool_decide (last (Py.lower <$> parts) = Some []) in
      let parts_hi := if first_empty then skip_index - 1 else skip_index in
      let parts_lo :=
        if last_empty then length (Py.lower <$> parts) - skip_index - 1 - 1
        else length (Py.lower <$> parts) - skip_index - 1 in
      negb (first_empty && negb (parts_hi =? 0))
      && negb (last_empty && negb (parts_lo =? 0))
      && bool_decide (parts_hi + parts_lo < 8)
      && forallb Ipaddress.hextet_ok (take parts_hi (Py.lower <$> parts))
      && forallb Ipaddress.hextet_ok
           (drop (length (Py.lower <$> parts) - parts_lo) (Py.lower <$> parts))
  | _ => false
  end
  = match Ipaddress.skip_indices parts with
    | [] =>
        bool_decide (length parts = 8)
        && forallb Ipaddress.hextet_ok parts
    | [skip_index] =>
        let first_empty := bool_decide (parts !! 0 = Some []) in
        let last_empty := bool_decide (last parts = Some []) in
        let parts_hi := if first_empty then skip_index - 1 else skip_index in
        let parts_lo :=
          if last_empty then length parts - skip_index - 1 - 1
          else length parts - skip_index - 1 in
        negb (first_empty && negb (parts_hi =? 0))
        && negb (last_empty && negb (parts_lo =? 0))
        && bool_decide (parts_hi + parts_lo < 8)
        && forallb Ipaddress.hextet_ok (take parts_hi parts)
        && forallb Ipaddress.hextet_ok (drop (length parts - parts_lo) parts)
    | _ => false
    end.
Proof.
  rewrite skip_indices_lower, length_fmap, last_lower_nil.
  rewrite (bool_decide_ext _ _ (lookup_lower_nil parts 0)).
  destruct (Ipaddress.skip_indices parts) as [|k [|??]]; [| |done].
  - by rewrite (forallb_fmap_lower _ _ hextet_ok_lower).
  - cbv zeta. rewrite <- !fmap_take, <- !fmap_drop.
    by rewrite !(forallb_fmap_lower _ _ hextet_ok_lower).
Qed.

Lemma ipv6_parts_ok_lower (s : str) :
  Ipaddress.ipv6_parts_ok (Py.lower s) = Ipaddress.ipv6_parts_ok s.
Proof.
  unfold Ipaddress.ipv6_parts_ok.
  rewrite nil_lower_decide, split_lower by delimiter. cbv zeta.
  set (parts := Py.split ":" s).
  rewrite length_fmap, fmap_last.
  assert (default [] (Py.lower <$> last parts)
          = Py.lower (default [] (last parts))) as ->
    by (by destruct (last parts)).
  set (last_part := default [] (last parts)).
  rewrite elem_of_lower_decide by delimiter.
  rewrite ipv4_ok_lower.
  assert ((if bool_decide ("."%char ∈ last_part)
           then take (length parts - 1) (Py.lower <$> parts)
                ++ [lit "0"; lit "0"]
           else Py.lower <$> parts)
          = Py.lower <$> (if bool_decide ("."%char ∈ last_part)
                          then take (length parts - 1) parts
                               ++ [lit "0"; lit "0"]
                          else parts)) as ->.
  { case_bool_decide; [|done]. by rewrite fmap_app, fmap_take. }
  set (parts' := if bool_decide ("."%char ∈ last_part) then _ else parts).
  pose proof (hextets_lower parts') as Hh. cbv zeta in Hh.
  rewrite Hh. by rewrite length_fmap.
Qed.

Lemma ipv6_ok_lower (s : str) :
  Ipaddress.ipv6_ok (Py.lower s) = Ipaddress.ipv6_ok s.
Proof.
  unfold Ipaddress.ipv6_ok.
  rewrite elem_of_lower_decide, partition_lower by delimiter.
  destruct (Py.partition "%" s) as [[addr sep] scope_id]. cbn [fst snd].
  by rewrite nil_lower_decide, elem_of_lower_decide, ipv6_parts_ok_lower
    by delimiter.
Qed.

Lemma hextet_ok_head c (seg : str) :
  Ipaddress.hextet_ok (c :: seg) = true → Py.is_hex_digit c = true.
Proof.
  unfold Ipaddress.hextet_ok. cbn [forallb].
  by intros [[[? _]%andb_true_iff _]%andb_true_iff _]%andb_true_iff.
Qed.

(** An IPv6 address starts with a hexadecimal digit or a colon. *)
Lemma ipv6_ok_head (s : str) c :
  Ipaddress.ipv6_ok s = true → head s = Some c →
  Py.is_hex_digit c = true ∨ c = ":"%char.
Proof.
  unfold Ipaddress.ipv6_ok. intros [_ Hok]%andb_true_iff Hc.
  destruct s as [|x s]; [done|]. injection Hc as ->.
  unfold Py.partition in Hok. cbn [Py.find] in Hok.
  case_bool_decide as Hpct.
  { subst c. cbn [take fst snd] in Hok.
    by apply andb_true_iff in Hok as [_ ?]. }
  assert (∃ a', ∃ sep scope,
            (match S <$> Py.find "%" s with
             | Some i => (take i (c :: s), true, drop (S i) (c :: s))
             | None => (c :: s, false, [])
             end) = (c :: a', sep, scope)) as (a' & sep & scope & Heq).
  { destruct (Py.find "%" s) as [i|]; simpl; eauto. }
  rewrite Heq in Hok. apply andb_true_iff in Hok as [_ Hok].
  clear Heq Hpct. destruct (decide (c = ":"%char)) as [->|Hcolon]; [by right|].
  left. unfold Ipaddress.ipv6_parts_ok in Hok.
  apply andb_true_iff in Hok as [_ Hok]. cbv zeta in Hok.
  assert (∃ seg segs, Py.split ":" (c :: a') = (c :: seg) :: segs)
    as (seg & segs & Hsplit).
  { cbn [Py.split]. rewrite bool_decide_eq_false_2 by done.
    destruct (Py.split ":" a'); eauto. }
  rewrite Hsplit in Hok. set (parts := (c :: seg) :: segs) in *.
  apply andb_true_iff in Hok as [Hlen Hok].
  apply bool_decide_eq_true in Hlen.
  set (parts' := if bool_decide ("."%char ∈ default [] (last parts))
                 then take (length parts - 1) parts ++ [lit "0"; lit "0"]
                 else parts) in *.
  assert (∃ rest', parts' = (c :: seg) :: rest') as [rest' Hp'].
  { subst parts'. case_bool_decide; [|by eexists].
    subst parts. cbn [length] in *.
    replace (S (length segs) - 1) with (S (length segs - 1)) by lia.
    cbn [take app]. by eexists. }
  clearbody parts'. subst parts'.
  apply andb_true_iff in Hok as [_ Hok].
  pose proof (list_elem_of_filter
                (λ i, ((c :: seg) :: rest') !! i = Some [])
                (seq 1 (length ((c :: seg) :: rest') - 2))) as Hskip.
  fold (Ipaddress.skip_indices ((c :: seg) :: rest')) in Hskip.
  destruct (Ipaddress.skip_indices ((c :: seg) :: rest')) as [|k [|??]];
    [| |done].
  - apply andb_true_iff in Hok as [_ Hok]. cbn [forallb] in Hok.
    apply andb_true_iff in Hok as [Hok _]. by apply hextet_ok_head in Hok.
  - assert (1 ≤ k) as Hk.
    { destruct (proj1 (Hskip k)) as [_ Hin]; [by left|].
      apply elem_of_seq in Hin. lia. }
    cbv zeta in Hok.
    rewrite (bool_decide_eq_false_2 (((c :: seg) :: rest') !! 0 = Some []))
      in Hok by done.
    apply andb_true_iff in Hok as [Hok _].
    apply andb_true_iff in Hok as [_ Hok].
    destruct k as [|k]; [lia|]. cbn [take forallb] in Hok.
    apply andb_true_iff in Hok as [Hok _]. by apply hextet_ok_head in Hok.
Qed.

Lemma check_bracketed_host_lower (hostname : str) :
  Urllib.check_bracketed_host hostname = true →
  Urllib.check_bracketed_host (Py.lower hostname) = true.
Proof.
  unfold Urllib.check_bracketed_host.
  destruct (Py.startswith hostname (lit "v")) eqn:Ev.
  - destruct hostname as [|x h]; [done|].
    change (lit "v") with ["v"%char] in *. cbn [Py.startswith] in Ev.
    apply andb_true_iff in Ev as [->%bool_decide_eq_true _].
    change (Py.lower ("v"%char :: h)) with ("v"%char :: Py.lower h).
    assert (Py.startswith ("v"%char :: Py.lower h) ["v"%char] = true) as ->.
    { cbn [Py.startswith]. rewrite bool_decide_eq_true_2 by done.
      by destruct h. }
    cbn [drop]. rewrite !drop_0. cbv zeta.
    rewrite (count_while_lower _ _ is_hex_digit_lower).
    rewrite <- lower_drop.
    change (lit ".") with ["."%char].
    rewrite startswith_lower, lower_length by delimiter.
    rewrite <- lower_drop. by rewrite elem_of_lower_decide by delimiter.
  - intros [Hv4 Hv6]%andb_true_iff.
    destruct (Py.startswith (Py.lower hostname) (lit "v")) eqn:Ev'.
    + exfalso. destruct hostname as [|x h]; [done|].
      change (lit "v") with ["v"%char] in *.
      cbn [Py.lower fmap list_fmap Py.startswith] in Ev, Ev'.
      apply andb_true_iff in Ev' as [Hx%bool_decide_eq_true _].
      destruct (ipv6_ok_head (x :: h) x Hv6 eq_refl) as [Hhex| ->].
      * rewrite <- is_hex_digit_lower, Hx in Hhex. done.
      * done.
    + by rewrite ipv4_ok_lower, ipv6_ok_lower, Hv4, Hv6.
Qed.

Lemma check_bracketed_netloc_lower (netloc : str) :
  Urllib.check_bracketed_netloc netloc = true →
  Urllib.check_bracketed_netloc (Py.lower netloc) = true.
Proof.
  unfold Urllib.check_bracketed_netloc. cbv zeta.
  rewrite rpartition_lower by delimiter. cbn [snd].
  set (hp := (Py.rpartition "@" netloc).2).
  rewrite !partition_lower by delimiter.
  destruct (Py.partition "[" hp) as [[before have_open] bracketed].
  cbn [fst snd]. destruct have_open.
  - rewrite nil_lower_decide. destruct (negb (bool_decide (before = [])));
      [done|].
    destruct (Py.partition "]" bracketed) as [[hostname ?] port].
    cbn [fst snd]. rewrite nil_lower_decide.
    change (lit ":") with [":"%char]. rewrite startswith_lower by delimiter.
    destruct (_ && _); [done|]. apply check_bracketed_host_lower.
  - destruct (Py.partition ":" hp) as [[hostname ?] port]. cbn [fst snd].
    apply check_bracketed_host_lower.
Qed.

Lemma netloc_ok_lower (netloc : str) :
  netloc_ok netloc = true → netloc_ok (Py.lower netloc) = true.
Proof.
  unfold netloc_ok. cbv zeta. rewrite !elem_of_lower_decide by delimiter.
  destruct (_ && _ || _ && _); [done|]. destruct (_ && _); [|done].
  apply check_bracketed_netloc_lower.
Qed.

(** ** The parts of an absolute URL *)

Lemma remove_unsafe_clean (s : str) : clean (Urllib.remove_unsafe s).
Proof.
  unfold clean, Urllib.remove_unsafe, Urllib.unsafe_url_bytes_to_remove.
  cbn [foldl]. intros c Hc Hin. rewrite !elem_of_cons, elem_of_nil in Hc.
  destruct Hc as [->|[->|[->|[]]]].
  - do 2 apply replace_char_subseteq in Hin.
    by apply replace_char_removed in Hin.
  - apply replace_char_subseteq in Hin.
    by apply replace_char_removed in Hin.
  - by apply replace_char_removed in Hin.
Qed.

Lemma remove_unsafe_id (s : str) : clean s → Urllib.remove_unsafe s = s.
Proof.
  intros Hs. unfold Urllib.remove_unsafe, Urllib.unsafe_url_bytes_to_remove.
  cbn [foldl].
  rewrite (replace_char_absent "009" s) by (apply Hs; compute_done).
  rewrite (replace_char_absent "013" s) by (apply Hs; compute_done).
  by rewrite (replace_char_absent "010" s) by (apply Hs; compute_done).
Qed.

Lemma clean_subseteq (s t : str) : clean s → t ⊆ s → clean t.
Proof. intros Hs Hsub c Hc Hin. by apply (Hs c Hc), Hsub. Qed.

Lemma clean_lower (s : str) : clean s → clean (Py.lower s).
Proof.
  intros Hs c Hc Hin. apply (Hs c Hc). apply elem_of_lower; [|done].
  unfold Urllib.unsafe_url_bytes_to_remove in Hc.
  rewrite !elem_of_cons, elem_of_nil in Hc.
  destruct Hc as [->|[->|[->|[]]]]; delimiter.
Qed.

Lemma find_lookup c (s : str) i : Py.find c s = Some i → s !! i = Some c.
Proof.
  revert i. induction s as [|x s IH]; intros i; [done|]. cbn [Py.find].
  case_bool_decide as Hx; [by intros [= <-]; subst|].
  destruct (Py.find c s) as [k|]; [|done]. intros [= <-]. by apply IH.
Qed.

Lemma find_None c (s : str) : Py.find c s = None → c ∉ s.
Proof.
  induction s as [|x s IH]; [intros _; apply not_elem_of_nil|].
  cbn [Py.find]. case_bool_decide as Hx; [done|].
  destruct (Py.find c s); [done|]. intros _.
  rewrite elem_of_cons. intros [->|?]; [done|]. by apply IH.
Qed.

Lemma find_split c (s : str) :
  c ∈ s → ∃ a b, s = a ++ c :: b ∧ (c ∉ a) ∧ Py.find c s = Some (length a).
Proof.
  intros Hin. destruct (Py.find c s) as [i|] eqn:E;
    [|by apply find_None in E].
  pose proof (find_lookup _ _ _ E) as Hl.
  apply find_present in E as [Hi Hnot].
  exists (take i s), (drop (S i) s). split; [|split; [done|]].
  - by rewrite <- (take_drop_middle s i c Hl) at 1.
  - by rewrite length_take_le by lia.
Qed.

Lemma find_middle c (a b : str) :
  c ∉ a → Py.find c (a ++ c :: b) = Some (length a).
Proof.
  intros Ha. rewrite find_app, (find_absent _ _ Ha), find_here. simpl.
  by rewrite Nat.add_0_r.
Qed.

Lemma partition_middle c (a b : str) :
  c ∉ a → Py.partition c (a ++ c :: b) = (a, true, b).
Proof.
  intros Ha. unfold Py.partition. rewrite find_middle by done.
  rewrite take_app_length. rewrite (cons_middle c a b), app_assoc.
  replace (S (length a)) with (length (a ++ [c]))
    by (rewrite length_app; simpl; lia).
  by rewrite drop_app_length.
Qed.

Lemma split_once_middle c (a b : str) :
  c ∉ a → Urllib.split_once c (a ++ c :: b) = (a, b).
Proof.
  intros Ha. unfold Urllib.split_once. by rewrite partition_middle.
Qed.

(** [_splitnetloc] on a netloc without delimiter, followed by nothing or
    by a delimiter. *)
Lemma splitnetloc_app (netloc tail : str) :
  (∀ c, c ∈ ["/"; "?"; "#"]%char → c ∉ netloc) →
  tail = [] ∨ (∃ c, c ∈ ["/"; "?"; "#"]%char ∧ head tail = Some c) →
  Urllib.splitnetloc (lit "//" ++ netloc ++ tail) 2 = (netloc, tail).
Proof.
  intros Hn Ht. unfold Urllib.splitnetloc.
  change (lit "/?#") with ["/"; "?"; "#"]%char. cbn [foldl].
  unfold Py.find_from.
  change (drop 2 (lit "//" ++ netloc ++ tail)) with (netloc ++ tail).
  rewrite !find_app.
  rewrite (find_absent "/" netloc), (find_absent "?" netloc),
    (find_absent "#" netloc) by (apply Hn; in_list).
  change (length (lit "//" ++ netloc ++ tail))
    with (S (S (length (netloc ++ tail)))).
  rewrite length_app.
  assert (∀ x (l : str), slice (lit "//" ++ l) 2 (2 + x) = take x l) as Hsl.
  { intros x l. unfold slice. change (drop 2 (lit "//" ++ l)) with l.
    f_equal. lia. }
  assert (∀ x (l : str), drop (2 + x) (lit "//" ++ l) = drop x l) as Hdr
    by done.
  match goal with
  | |- (slice _ _ ?delim, drop ?delim _) = _ =>
      replace delim with (2 + length netloc)
  end.
  { by rewrite Hsl, Hdr, take_app_length, drop_app_length. }
  destruct Ht as [->|(c & Hc & Hhead)].
  { cbn [Py.find fmap option_fmap option_map length]. lia. }
  destruct tail as [|x tail]; [done|]. injection Hhead as ->.
  rewrite !elem_of_cons, elem_of_nil in Hc.
  destruct Hc as [->|[->|[->|[]]]]; rewrite ?find_here;
    cbn [Py.find]; rewrite ?bool_decide_eq_false_2 by done;
    repeat match goal with
           | |- context [Py.find ?a tail] => destruct (Py.find a tail)
           end;
    cbn [fmap option_fmap option_map length]; lia.
Qed.

Lemma splitnetloc_split (rest : str) :
  ∃ netloc tail,
    rest = netloc ++ tail ∧
    (∀ c, c ∈ ["/"; "?"; "#"]%char → c ∉ netloc) ∧
    (tail = [] ∨ (∃ c, c ∈ ["/"; "?"; "#"]%char ∧ head tail = Some c)).
Proof.
  induction rest as [|x rest (netloc & tail & -> & Hn & Ht)].
  { exists [], []. split; [done|]. split; [|by left].
    intros c _. apply not_elem_of_nil. }
  destruct (decide (x ∈ ["/"; "?"; "#"]%char)) as [Hx|Hx].
  - exists [], (x :: netloc ++ tail). split; [done|]. split.
    + intros c _. apply not_elem_of_nil.
    + right. by exists x.
  - exists (x :: netloc), tail. split; [done|]. split; [|done].
    intros c Hc [->|Hin]%elem_of_cons; [done|]. by apply (Hn c).
Qed.

(** ** Path, query and parameters *)

Lemma cut_spec c (u : str) :
  let '(a, b) :=
    (if bool_decide (c ∈ u) then Urllib.split_once c u else (u, [])) in
  (c ∉ a) ∧ (u = a ∧ b = [] ∨ u = a ++ c :: b).
Proof.
  case_bool_decide as Hc; [|by auto].
  destruct (find_split c u Hc) as (a & b & -> & Ha & _).
  rewrite split_once_middle by done. auto.
Qed.

Lemma split_tail_app (path qpart query : str) :
  "?"%char ∉ path → "#"%char ∉ path → "#"%char ∉ query →
  qpart = [] ∧ query = [] ∨ qpart = "?"%char :: query →
  split_tail (path ++ qpart) = (path, query, []).
Proof.
  intros Hq Hf Hfq Hpart. unfold split_tail.
  rewrite (bool_decide_eq_false_2 ("#"%char ∈ path ++ qpart)).
  2:{ rewrite elem_of_app. intros [?|Hin]; [done|].
      destruct Hpart as [[-> _] | ->]; [by apply elem_of_nil in Hin|].
      apply elem_of_cons in Hin as [?|?]; done. }
  destruct Hpart as [[-> ->] | ->].
  - rewrite app_nil_r. by rewrite bool_decide_eq_false_2.
  - rewrite bool_decide_eq_true_2 by (apply elem_of_app; right; by left).
    by rewrite split_once_middle.
Qed.

(** What [urlsplit] cuts from the rest of a URL that is empty or begins
    with one of [/?#]. *)
Lemma split_tail_shape (u : str) :
  u = [] ∨ (∃ c, c ∈ ["/"; "?"; "#"]%char ∧ head u = Some c) →
  let '(path, query, fragment) := split_tail u in
  (path = [] ∨ head path = Some "/"%char) ∧
  ("?"%char ∉ path) ∧ ("#"%char ∉ path) ∧ ("#"%char ∉ query) ∧
  path ⊆ u ∧ query ⊆ u.
Proof.
  intros Hu. unfold split_tail.
  pose proof (cut_spec "#" u) as H1.
  destruct (if bool_decide ("#"%char ∈ u) then Urllib.split_once "#" u
            else (u, [])) as [u1 fragment].
  destruct H1 as [Hf1 Hu1].
  pose proof (cut_spec "?" u1) as H2.
  destruct (if bool_decide ("?"%char ∈ u1) then Urllib.split_once "?" u1
            else (u1, [])) as [path query].
  destruct H2 as [Hq Hpath].
  assert (u1 ⊆ u) as Hsub1.
  { destruct Hu1 as [[-> _] | ->]; [done|]. intros x ?. apply elem_of_app.
    by left. }
  assert (path ⊆ u1 ∧ query ⊆ u1) as [Hsubp Hsubq].
  { destruct Hpath as [[-> ->] | ->].
    - split; [done|]. intros x Hx. by apply elem_of_nil in Hx.
    - split; intros x ?; apply elem_of_app; [by left|right; by right]. }
  assert (u1 = [] ∨ (∃ c, c ∈ ["/"; "?"]%char ∧ head u1 = Some c)) as Hh1.
  { destruct Hu as [->|(c & Hc & Hhead)].
    - left. destruct Hu1 as [[<- _]|Hu1]; [done|]. by destruct u1.
    - destruct Hu1 as [[<- _] | ->].
      + right. exists c. split; [|done].
        rewrite !elem_of_cons, elem_of_nil in Hc.
        destruct Hc as [->|[->|[->|[]]]]; [in_list|in_list|].
        destruct u as [|x u]; [done|]. injection Hhead as ->.
        exfalso. apply Hf1. by left.
      + destruct u1 as [|x u1]; [by left|]. right. exists c.
        injection Hhead as ->. split; [|done].
        rewrite !elem_of_cons, elem_of_nil in Hc.
        destruct Hc as [->|[->|[->|[]]]]; [in_list|in_list|].
        exfalso. apply Hf1. by left. }
  split; [|split; [done|split; [|split; [|split]]]].
  - destruct Hh1 as [->|(c & Hc & Hhead)].
    { left. destruct Hpath as [[<- _]|Hp]; [done|]. by destruct path. }
    destruct Hpath as [[<- _] | ->].
    + right. rewrite !elem_of_cons, elem_of_nil in Hc.
      destruct Hc as [->|[->|[]]]; [done|].
      destruct u1 as [|x u1]; [done|]. injection Hhead as ->.
      exfalso. apply Hq. by left.
    + destruct path as [|x path]; [by left|]. right.
      injection Hhead as ->. rewrite !elem_of_cons, elem_of_nil in Hc.
      destruct Hc as [->|[->|[]]]; [done|].
      exfalso. apply Hq. by left.
  - intros Hin. by apply Hf1, Hsubp.
  - intros Hin. by apply Hf1, Hsubq.
  - by trans u1.
  - by trans u1.
Qed.

Lemma rfind_middle c (a b : str) :
  c ∉ b → Py.rfind c (a ++ c :: b) = Some (length a).
Proof.
  intros Hb. unfold Py.rfind.
  rewrite reverse_app, reverse_cons, <- app_assoc. cbn [app].
  rewrite find_middle by (by rewrite elem_of_reverse).
  cbn [fmap option_fmap option_map]. f_equal.
  rewrite length_reverse, length_app. cbn [length]. lia.
Qed.

Lemma rfind_absent c (s : str) : c ∉ s → Py.rfind c s = None.
Proof.
  intros Hs. unfold Py.rfind.
  by rewrite find_absent by (by rewrite elem_of_reverse).
Qed.

Lemma rfind_split c (s : str) :
  c ∈ s → ∃ a b, s = a ++ c :: b ∧ c ∉ b.
Proof.
  intros Hin. apply elem_of_reverse in Hin.
  destruct (find_split c (reverse s) Hin) as (a & b & Hs & Ha & _).
  exists (reverse b), (reverse a). split.
  - apply (f_equal reverse) in Hs. rewrite reverse_involutive in Hs.
    by rewrite Hs, reverse_app, reverse_cons, <- app_assoc.
  - by rewrite elem_of_reverse.
Qed.

Lemma last_segment_middle (a b : str) :
  "/"%char ∉ b → last_segment (a ++ "/"%char :: b) = "/"%char :: b.
Proof.
  intros Hb. unfold last_segment. rewrite rfind_middle by done.
  cbn [default from_option id]. by rewrite drop_app_length.
Qed.

Lemma last_segment_no_slash (s : str) : "/"%char ∉ s → last_segment s = s.
Proof.
  intros Hs. unfold last_segment. by rewrite rfind_absent by done.
Qed.

Lemma last_segment_lower (s : str) :
  last_segment (Py.lower s) = Py.lower (last_segment s).
Proof.
  unfold last_segment. rewrite rfind_lower by delimiter.
  by rewrite lower_drop.
Qed.

(** What [urlparse] keeps of a path that is empty or begins with a slash:
    a prefix with no [;] in its last segment, the whole path when that
    has none there, and a shorter one otherwise. *)
Lemma kept_path_spec (path : str) :
  path = [] ∨ head path = Some "/"%char →
  (";"%char ∉ last_segment (kept_path path)) ∧
  (∃ suffix, path = kept_path path ++ suffix) ∧
  (";"%char ∉ last_segment path → kept_path path = path) ∧
  (";"%char ∈ last_segment path → length (kept_path path) < length path).
Proof.
  intros Hhead. unfold kept_path.
  assert (path = [] ∨ "/"%char ∈ path) as [->|Hslash].
  { destruct Hhead as [->|Hh]; [by left|]. right.
    destruct path as [|x path]; [done|]. injection Hh as ->. by left. }
  { cbn. split; [apply not_elem_of_nil|]. split; [by exists []|].
    split; [done|]. by intros ?%elem_of_nil. }
  destruct (rfind_split "/" path Hslash) as (a & b & -> & Hb).
  rewrite last_segment_middle by done.
  case_bool_decide as Hsemi; cycle 1.
  { cbn [fst]. rewrite last_segment_middle by done.
    assert (";"%char ∉ "/"%char :: b) as Hno.
    { intros Hin. apply Hsemi. apply elem_of_app. by right. }
    split; [done|]. split; [exists []; by rewrite app_nil_r|].
    split; [done|]. by intros ?. }
  unfold Urllib.splitparams.
  rewrite bool_decide_eq_true_2 by done.
  rewrite rfind_middle by done. cbn [default from_option id].
  unfold Py.find_from.
  rewrite drop_app_length. cbn [Py.find].
  rewrite bool_decide_eq_false_2 by done.
  destruct (Py.find ";" b) as [k|] eqn:Ek;
    cbn [fmap option_fmap option_map fst].
  - pose proof (find_lookup _ _ _ Ek) as Hl.
    apply find_present in Ek as [Hk Hnot].
    assert (take (length a + S k) (a ++ "/"%char :: b)
            = a ++ "/"%char :: take k b) as ->.
    { rewrite take_app_ge by lia.
      by replace (length a + S k - length a) with (S k) by lia. }
    rewrite last_segment_middle
      by (intros Hin; by apply subseteq_take in Hin).
    split.
    { rewrite elem_of_cons. intros [?|?]; done. }
    split.
    { exists (drop k b). rewrite <- app_assoc. cbn [app].
      by rewrite take_drop. }
    split.
    { intros Hno. exfalso. apply Hno. right.
      by apply list_elem_of_lookup_2 in Hl. }
    intros _. rewrite !length_app. cbn [length].
    rewrite length_take_le by lia. lia.
  - apply find_None in Ek. rewrite last_segment_middle by done.
    assert (";"%char ∉ "/"%char :: b) as Hno.
    { rewrite elem_of_cons. intros [?|?]; done. }
    split; [done|]. split; [exists []; by rewrite app_nil_r|].
    split; [done|]. by intros ?.
Qed.

(** ** Parsing an absolute URL *)

Lemma scheme_cases (p : str) :
  p ∈ [lit "http"; lit "https"] → p = lit "http" ∨ p = lit "https".
Proof. rewrite !elem_of_cons, elem_of_nil. intros [->|[->|[]]]; auto. Qed.

(** [urlsplit] on [http://] or [https://] and the rest: the unsafe
    characters are deleted, the netloc is cut off and checked, and the
    rest is split at [#] and at [?]. *)
Lemma urlsplit_absolute (p rest : str) :
  p ∈ [lit "http"; lit "https"] →
  Urllib.urlsplit (p ++ lit "://" ++ rest) []
  = let '(netloc, u) :=
      Urllib.splitnetloc (lit "//" ++ Urllib.remove_unsafe rest) 2 in
    if netloc_ok netloc then
      let '(path, query, fragment) := split_tail u in
      Some (p, netloc, path, query, fragment)
    else None.
Proof.
  intros Hp%scheme_cases. unfold Urllib.urlsplit. cbv zeta.
  assert (Py.lstrip Urllib.c0_control_or_space (p ++ lit "://" ++ rest)
          = p ++ lit "://" ++ rest) as ->
    by (destruct Hp as [->| ->]; reflexivity).
  assert (Urllib.remove_unsafe (p ++ lit "://" ++ rest)
          = p ++ lit "://" ++ Urllib.remove_unsafe rest) as ->.
  { rewrite app_assoc, remove_unsafe_app.
    by destruct Hp as [->| ->]. }
  set (rest' := Urllib.remove_unsafe rest). clearbody rest'.
  assert (Py.find ":" (p ++ lit "://" ++ rest') = Some (length p)) as ->
    by (destruct Hp as [->| ->]; reflexivity).
  assert (match p ++ lit "://" ++ rest' with
          | [] => (Urllib.remove_unsafe (Py.strip Urllib.c0_control_or_space []),
                   p ++ lit "://" ++ rest')
          | c :: _ =>
              if bool_decide (0 < length p) && Py.is_ascii_alpha c
                 && forallb (λ c0, bool_decide (c0 ∈ Urllib.scheme_chars))
                      (take (length p) (p ++ lit "://" ++ rest'))
              then (Py.lower (take (length p) (p ++ lit "://" ++ rest')),
                    drop (length p + 1) (p ++ lit "://" ++ rest'))
              else (Urllib.remove_unsafe (Py.strip Urllib.c0_control_or_space []),
                    p ++ lit "://" ++ rest')
          end = (p, lit "//" ++ rest')) as ->
    by (destruct Hp as [->| ->]; reflexivity).
  rewrite bool_decide_eq_true_2 by reflexivity.
  pose proof (splitnetloc_no_delimiter (lit "//" ++ rest') 2 "/") as Hsl.
  destruct (Urllib.splitnetloc (lit "//" ++ rest') 2) as [netloc u].
  cbn [fst] in Hsl. unfold netloc_ok, split_tail. cbv zeta.
  pose proof (checknetloc_ok netloc) as Hcheck.
  lapply Hcheck; [clear Hcheck; intros Hcheck|apply Hsl; in_list].
  destruct (bool_decide ("["%char ∈ netloc)),
    (bool_decide ("]"%char ∈ netloc)); cbn [andb orb negb]; cbv beta iota;
    try done; try (destruct (Urllib.check_bracketed_netloc netloc); [|done]);
    rewrite Hcheck;
    destruct (if bool_decide ("#"%char ∈ u) then Urllib.split_once "#" u
              else (u, [])) as [u1 fragment];
    by destruct (if bool_decide ("?"%char ∈ u1) then Urllib.split_once "?" u1
                 else (u1, [])).
Qed.

(** The shape of what [urlsplit] returns for an absolute URL. *)
Lemma urlsplit_shape (p rest s n pa q f : str) :
  p ∈ [lit "http"; lit "https"] →
  Urllib.urlsplit (p ++ lit "://" ++ rest) [] = Some (s, n, pa, q, f) →
  s = p ∧ split_shape n pa q.
Proof.
  intros Hp. rewrite urlsplit_absolute by done.
  pose proof (remove_unsafe_clean rest) as Hclean.
  destruct (splitnetloc_split (Urllib.remove_unsafe rest))
    as (netloc & tail & Hrest & Hn & Ht).
  rewrite Hrest in *. rewrite splitnetloc_app by done.
  destruct (netloc_ok netloc) eqn:Hok; [|done].
  pose proof (split_tail_shape tail Ht) as Hshape.
  destruct (split_tail tail) as [[path query] fragment].
  destruct Hshape as (Hhead & Hq & Hf & Hfq & Hsp & Hsq).
  intros [= <- <- <- <- <-]. split; [done|]. split; try done.
  eapply clean_subseteq; [exact Hclean|].
  intros x. rewrite !elem_of_app. intros [?|[?|?]]; auto.
Qed.

(** [urlsplit] on a URL put together from a scheme, a netloc, a path
    and a query gives these parts back. *)
Lemma urlsplit_assembled (p n pa q qpart : str) :
  p ∈ [lit "http"; lit "https"] → split_shape n pa q →
  qpart = [] ∧ q = [] ∨ qpart = "?"%char :: q →
  Urllib.urlsplit (p ++ lit "://" ++ n ++ pa ++ qpart) []
  = Some (p, n, pa, q, []).
Proof.
  intros Hp [Hclean Hn Hok Hhead [Hq Hf] Hfq] Hpart.
  rewrite urlsplit_absolute by done.
  assert (clean (n ++ pa ++ qpart)) as Hclean'.
  { intros c Hc. specialize (Hclean c Hc). revert Hclean.
    rewrite !elem_of_app. intros Hno [?|[?|Hin]]; [tauto|tauto|].
    destruct Hpart as [[-> _] | ->]; [by apply elem_of_nil in Hin|].
    apply elem_of_cons in Hin as [->|?]; [|tauto].
    revert Hc. unfold Urllib.unsafe_url_bytes_to_remove.
    rewrite !elem_of_cons, elem_of_nil. intros [?|[?|[?|[]]]]; done. }
  rewrite remove_unsafe_id by done.
  rewrite splitnetloc_app; [|done|].
  2:{ destruct Hhead as [->|Hh].
      - destruct Hpart as [[-> _] | ->]; [by left|]. right.
        exists "?"%char. split; [in_list|done].
      - right. exists "/"%char. split; [in_list|].
        by destruct pa. }
  rewrite Hok. by rewrite (split_tail_app pa qpart q).
Qed.

Lemma uses_params_scheme (p : str) :
  p ∈ [lit "http"; lit "https"] →
  bool_decide (p ∈ Urllib.uses_params) = true.
Proof. intros [->| ->]%scheme_cases; by vm_compute. Qed.

(** The first parse: the parts [urlparse] returns for an absolute URL
    have the shape of a split, and the last segment of the path holds
    no [;]. *)
Lemma urlparse_shape (p rest : str) (parsed : Urllib.ParseResult) :
  p ∈ [lit "http"; lit "https"] →
  Urllib.urlparse (p ++ lit "://" ++ rest) [] = Some parsed →
  Urllib.scheme parsed = p ∧
  split_shape (Urllib.netloc parsed) (Urllib.path parsed)
              (Urllib.query parsed) ∧
  ";"%char ∉ last_segment (Urllib.path parsed).
Proof.
  intros Hp. unfold Urllib.urlparse.
  destruct (Urllib.urlsplit (p ++ lit "://" ++ rest) [])
    as [[[[[s n] pa] q] f]|] eqn:E; [|done].
  apply urlsplit_shape in E as [-> Hshape]; [|done].
  rewrite uses_params_scheme by done. cbn [andb].
  destruct Hshape as [Hclean Hn Hok Hhead [Hq Hf] Hfq].
  destruct (kept_path_spec pa Hhead) as (Hsemi & [suffix Hpre] & _).
  unfold kept_path in *.
  destruct (if bool_decide (";"%char ∈ pa) then Urllib.splitparams pa
            else (pa, [])) as [pa' params].
  cbn [fst] in *. intros [= <-].
  cbn [Urllib.scheme Urllib.netloc Urllib.path Urllib.query].
  split; [done|]. split; [|done].
  assert (pa' ⊆ pa) as Hsub.
  { rewrite Hpre. intros x ?. apply elem_of_app. by left. }
  split; try done.
  - eapply clean_subseteq; [exact Hclean|]. intros x.
    rewrite !elem_of_app. intros [?|[?|?]]; auto.
  - destruct pa' as [|x pa']; [by left|]. right.
    destruct Hhead as [->|Hh]; [done|]. by rewrite Hpre in Hh.
  - split; intros Hin; [by apply Hq, Hsub|by apply Hf, Hsub].
Qed.

(** A later parse: of a URL put together from parts of that shape. *)
Lemma urlparse_assembled (p n pa q qpart : str) :
  p ∈ [lit "http"; lit "https"] → split_shape n pa q →
  qpart = [] ∧ q = [] ∨ qpart = "?"%char :: q →
  ∃ params,
    Urllib.urlparse (p ++ lit "://" ++ n ++ pa ++ qpart) []
    = Some (Urllib.mkParseResult p n (kept_path pa) params q []).
Proof.
  intros Hp Hshape Hpart. unfold Urllib.urlparse.
  rewrite (urlsplit_assembled p n pa q qpart) by done.
  rewrite uses_params_scheme by done. cbn [andb]. unfold kept_path.
  destruct (if bool_decide (";"%char ∈ pa) then Urllib.splitparams pa
            else (pa, [])) as [pa' params].
  by exists params.
Qed.

Lemma normalize_url_assembled (p n pa q qpart : str) :
  p ∈ [lit "http"; lit "https"] → split_shape n pa q →
  qpart = [] ∧ q = [] ∨ qpart = "?"%char :: q →
  normalize_url (p ++ lit "://" ++ n ++ pa ++ qpart) []
  = Some (Py.lower (Py.rstrip ["/"%char]
            (p ++ lit "://" ++ n ++ kept_path pa ++ query_part q))).
Proof.
  intros Hp Hshape Hpart. rewrite normalize_url_unfold, absolute_url_no_base.
  cbn [mbind option_bind].
  destruct (urlparse_assembled p n pa q qpart Hp Hshape Hpart)
    as [params ->].
  cbn [mbind option_bind]. unfold reassemble, query_part.
  cbn [Urllib.scheme Urllib.netloc Urllib.path Urllib.query].
  case_bool_decide; cbn [negb]; by rewrite <- ?app_assoc, ?app_nil_r.
Qed.

(** ** The second pass *)

Lemma split_shape_lower (n pa q : str) :
  split_shape n pa q → split_shape (Py.lower n) (Py.lower pa) (Py.lower q).
Proof.
  intros [Hclean Hn Hok Hhead [Hq Hf] Hfq]. split.
  - rewrite <- !lower_app. by apply clean_lower.
  - intros c Hc. rewrite elem_of_lower; [by apply Hn|].
    rewrite !elem_of_cons, elem_of_nil in Hc.
    destruct Hc as [->|[->|[->|[]]]]; delimiter.
  - by apply netloc_ok_lower.
  - destruct Hhead as [->|Hh]; [by left|]. right.
    destruct pa as [|x pa]; [done|]. by injection Hh as ->.
  - split; (rewrite elem_of_lower; [done|delimiter]).
  - rewrite elem_of_lower; [done|delimiter].
Qed.

Lemma split_shape_part (n pa q pa' q' suffix : str) :
  split_shape n pa q → pa = pa' ++ suffix → q' ⊆ q → split_shape n pa' q'.
Proof.
  intros [Hclean Hn Hok Hhead [Hq Hf] Hfq] -> Hsub. split; try done.
  - eapply clean_subseteq; [exact Hclean|]. intros x.
    rewrite !elem_of_app. intros [?|[?|?]]; auto.
  - destruct pa' as [|x pa']; [by left|]. right.
    by destruct Hhead as [?|Hh].
  - split; intros Hin; [apply Hq|apply Hf]; apply elem_of_app; by left.
  - intros Hin. by apply Hfq, Hsub.
Qed.

Lemma rstrip_subseteq cs (s : str) : Py.rstrip cs s ⊆ s.
Proof.
  destruct (rstrip_split cs s) as (suf & Hs & _). intros c Hc.
  rewrite Hs. apply elem_of_app. by left.
Qed.

Lemma rstrip_length cs (s : str) : length (Py.rstrip cs s) ≤ length s.
Proof.
  destruct (rstrip_split cs s) as (suf & Hs & _).
  rewrite Hs at 2. rewrite length_app. lia.
Qed.

Lemma rstrip_idemp (c : ascii) (s : str) :
  Py.rstrip [c] (Py.rstrip [c] s) = Py.rstrip [c] s.
Proof.
  destruct (rstrip_spec c s) as (k & _ & Hlast). by apply rstrip_keeps.
Qed.

Lemma rstrip_absent (c : ascii) (s : str) : c ∉ s → Py.rstrip [c] s = s.
Proof.
  intros Hs. apply rstrip_keeps. intros Hl. apply Hs.
  by apply last_Some_elem_of.
Qed.

(** The result of [normalize_url] is left as it is by the stripping and
    lowering that end [normalize_url]. *)
Lemma normal_form_fixed (s : str) :
  Py.lower (Py.rstrip ["/"%char] (Py.lower (Py.rstrip ["/"%char] s)))
  = Py.lower (Py.rstrip ["/"%char] s).
Proof.
  rewrite rstrip_lower by delimiter. by rewrite rstrip_idemp, lower_idemp.
Qed.

Lemma reassemble_parts (p n pa params q f : str) :
  reassemble (Urllib.mkParseResult p n pa params q f)
  = (p ++ lit "://" ++ n ++ pa) ++ query_part q.
Proof.
  unfold reassemble, query_part.
  cbn [Urllib.scheme Urllib.netloc Urllib.path Urllib.query].
  case_bool_decide; cbn [negb]; [by rewrite app_nil_r|done].
Qed.

Lemma rstrip_question (q : str) :
  Py.rstrip ["/"%char] ("?"%char :: q) = "?"%char :: Py.rstrip ["/"%char] q.
Proof.
  change ("?"%char :: q) with (["?"%char] ++ q). rewrite rstrip_app.
  by case_bool_decide as Hq; [rewrite Hq|].
Qed.

(** Stripping the slashes from the reassembled URL. *)
Lemma rstrip_assembled (p n pa q : str) :
  p ∈ [lit "http"; lit "https"] → "/"%char ∉ n →
  Py.rstrip ["/"%char] ((p ++ lit "://" ++ n ++ pa) ++ query_part q)
  = if bool_decide (q = []) then
      if bool_decide (n = [] ∧ Py.rstrip ["/"%char] pa = [])
      then p ++ lit ":"
      else p ++ lit "://" ++ n ++ Py.rstrip ["/"%char] pa
    else (p ++ lit "://" ++ n ++ pa) ++ "?"%char :: Py.rstrip ["/"%char] q.
Proof.
  intros Hp%scheme_cases Hn. unfold query_part. case_bool_decide as Hq.
  - rewrite app_nil_r, !app_assoc, rstrip_app.
    case_bool_decide as Hpa.
    + rewrite rstrip_app, (rstrip_absent _ n Hn).
      case_bool_decide as Hn0.
      * rewrite bool_decide_eq_true_2 by done.
        by destruct Hp as [->| ->].
      * rewrite bool_decide_eq_false_2 by (by intros [? _]).
        by rewrite Hpa, app_nil_r.
    + by rewrite bool_decide_eq_false_2 by (by intros [_ ?]).
  - by rewrite rstrip_app, rstrip_question, bool_decide_eq_false_2.
Qed.

Lemma lower_scheme (p rest : str) :
  p ∈ [lit "http"; lit "https"] →
  Py.lower (p ++ lit "://" ++ rest) = p ++ lit "://" ++ Py.lower rest.
Proof. by intros [->| ->]%scheme_cases. Qed.

Lemma scheme_no_delimiter (p : str) c :
  p ∈ [lit "http"; lit "https"] → c ∈ ["?"; "/"]%char → c ∉ p ++ lit ":".
Proof.
  intros Hp%scheme_cases. rewrite !elem_of_cons, elem_of_nil.
  intros [->|[->|[]]]; destruct Hp as [->| ->]; compute_done.
Qed.

(** The second pass on the parts the first parse gave: it returns the
    same string unless the query was made of slashes, or there is no
    query and the stripped path shows a [;] in its last segment. *)
Lemma second_pass (p n pa q : str) :
  p ∈ [lit "http"; lit "https"] → split_shape n pa q →
  ";"%char ∉ last_segment pa →
  let r := Py.lower (Py.rstrip ["/"%char]
             ((p ++ lit "://" ++ n ++ pa) ++ query_part q)) in
  normalize_url r [] = Some r
  ↔ (if bool_decide (q = []) then
       bool_decide (";"%char ∈ last_segment (Py.rstrip ["/"%char] pa))
     else bool_decide (Py.rstrip ["/"%char] q = [])) = false.
Proof.
  intros Hp Hshape Hsemi. cbv zeta.
  assert ("/"%char ∉ n) as Hslash
    by (apply (shape_netloc _ _ _ Hshape); in_list).
  remember (Py.lower (Py.rstrip ["/"%char]
              ((p ++ lit "://" ++ n ++ pa) ++ query_part q))) as x eqn:Hx.
  rewrite rstrip_assembled in Hx by done.
  destruct (rstrip_split ["/"%char] pa) as (sufp & Hpa & _).
  destruct (rstrip_split ["/"%char] q) as (sufq & Hq & _).
  set (pa0 := Py.rstrip ["/"%char] pa) in *.
  set (q0 := Py.rstrip ["/"%char] q) in *.
  case_bool_decide as Hq0.
  - (* no query *)
    case_bool_decide as Hempty.
    + (* nothing after the scheme *)
      destruct Hempty as [-> Hpa0]. rewrite Hpa0.
      rewrite bool_decide_eq_false_2 by (by intros ?%elem_of_nil).
      split; [done|]. intros _. subst x.
      apply scheme_cases in Hp as [->| ->]; by vm_compute.
    + assert (split_shape (Py.lower n) (Py.lower pa0) []) as Hshape'.
      { apply (split_shape_lower n pa0 []).
        apply (split_shape_part n pa q pa0 [] sufp); [done|done|].
        by intros c ?%elem_of_nil. }
      rewrite lower_scheme, lower_app in Hx by done.
      pose proof (normalize_url_assembled p (Py.lower n) (Py.lower pa0)
                    [] [] Hp Hshape' (or_introl (conj eq_refl eq_refl)))
        as Hnorm.
      rewrite app_nil_r in Hnorm. unfold query_part in Hnorm.
      rewrite bool_decide_eq_true_2, app_nil_r in Hnorm by done.
      rewrite <- Hx in Hnorm at 1. rewrite Hnorm.
      destruct (kept_path_spec (Py.lower pa0)
                  (shape_path_head _ _ _ Hshape'))
        as (_ & _ & Hkeep & Hcut).
      rewrite last_segment_lower, elem_of_lower in Hkeep, Hcut by delimiter.
      case_bool_decide as Hspoil.
      * split; [|done]. intros Heq%(inj Some). exfalso.
        apply (f_equal length) in Heq. specialize (Hcut Hspoil).
        rewrite lower_length in Heq, Hcut.
        pose proof (rstrip_length ["/"%char]
                      (p ++ lit "://" ++ Py.lower n
                       ++ kept_path (Py.lower pa0))) as Hle.
        rewrite Hx in Heq.
        rewrite !length_app in Heq, Hle.
        pose proof (lower_length pa0). pose proof (lower_length n). lia.
      * split; [done|]. intros _. rewrite (Hkeep Hspoil), <- Hx. f_equal.
        rewrite Hx at 2.
        assert (x = Py.lower (Py.rstrip ["/"%char]
                      ((p ++ lit "://" ++ n ++ pa) ++ query_part q)))
          as Hnf.
        { rewrite rstrip_assembled by done.
          rewrite bool_decide_eq_true_2 by done.
          rewrite bool_decide_eq_false_2 by done.
          by rewrite lower_scheme, lower_app. }
        rewrite <- Hx. rewrite Hnf. apply normal_form_fixed.
  - (* a query *)
    rewrite <- !app_assoc, lower_scheme, !lower_app in Hx by done.
    change (Py.lower ("?"%char :: q0)) with ("?"%char :: Py.lower q0) in Hx.
    assert (split_shape (Py.lower n) (Py.lower pa) (Py.lower q0)) as Hshape'.
    { apply (split_shape_lower n pa q0).
      apply (split_shape_part n pa q pa q0 []); [done|by rewrite app_nil_r|].
      apply rstrip_subseteq. }
    pose proof (normalize_url_assembled p (Py.lower n) (Py.lower pa)
                  (Py.lower q0) ("?"%char :: Py.lower q0) Hp Hshape'
                  (or_intror eq_refl)) as Hnorm.
    rewrite <- Hx in Hnorm at 1. rewrite Hnorm.
    destruct (kept_path_spec (Py.lower pa) (shape_path_head _ _ _ Hshape'))
      as (_ & _ & Hkeep & _).
    rewrite last_segment_lower, elem_of_lower in Hkeep by delimiter.
    rewrite (Hkeep Hsemi). unfold query_part.
    destruct (decide (q0 = [])) as [Hslashes|Hslashes].
    + (* the query was made of slashes *)
      rewrite (bool_decide_eq_true_2 (q0 = [])) by done.
      rewrite bool_decide_eq_true_2 by (by apply lower_nil_iff).
      split; [|done]. intros Heq%(inj Some). exfalso.
      assert ("?"%char ∈ x) as Hin.
      { rewrite Hx, !elem_of_app. do 4 right. by left. }
      rewrite <- Heq in Hin. rewrite elem_of_lower in Hin by delimiter.
      apply rstrip_subseteq in Hin.
      rewrite app_nil_r, (app_assoc p), !elem_of_app in Hin.
      destruct Hin as [Hin|[Hin|Hin]].
      * clear -Hp Hin. apply scheme_cases in Hp as [->| ->];
          revert Hin; compute_done.
      * by apply (shape_netloc _ _ _ Hshape' "?"%char); [in_list|].
      * by apply (proj1 (shape_path _ _ _ Hshape')).
    + rewrite (bool_decide_eq_false_2 (q0 = [])) by done.
      rewrite bool_decide_eq_false_2 by (by rewrite lower_nil_iff).
      split; [done|]. intros _. f_equal. rewrite <- Hx.
      assert (x = Py.lower (Py.rstrip ["/"%char]
                    ((p ++ lit "://" ++ n ++ pa) ++ query_part q))) as Hnf.
      { rewrite rstrip_assembled by done.
        rewrite bool_decide_eq_false_2 by done.
        by rewrite <- !app_assoc, lower_scheme, !lower_app by done. }
      rewrite Hnf. apply normal_form_fixed.
Qed.

(** C9, as the code has it.  For an absolute URL the base is not used.
    When [urlparse] raises on the URL, so does [normalize_url]; when it
    returns, so does [normalize_url], and normalising the normal form
    gives the normal form again exactly when the second pass is not
    spoiled: unless the query is made of slashes only, or there is no
    query and the path stripped of its trailing slashes holds a [;]
    after its last slash.  Strings are of the Latin-1 range. *)
Theorem normalize_url_idempotent_iff (url base_url : str) :
  is_absolute url = true →
  normalize_url url base_url = normalize_url url [] ∧
  match Urllib.urlparse url [] with
  | Some parsed =>
      normalize_url url base_url
      = Some (Py.lower (Py.rstrip ["/"%char] (reassemble parsed))) ∧
      (normalize_twice url = normalize_url url base_url
       ↔ spoils_second_pass parsed = false)
  | None => normalize_url url base_url = None
  end.
Proof.
  intros Habs.
  assert (normalize_url url base_url = normalize_url url []) as Hbase.
  { rewrite !normalize_url_unfold.
    by rewrite !absolute_url_absolute. }
  split; [done|]. rewrite Hbase.
  destruct (is_absolute_split url Habs) as (p & rest & Hp & ->).
  unfold normalize_twice.
  rewrite normalize_url_unfold, absolute_url_no_base.
  cbn [mbind option_bind].
  destruct (Urllib.urlparse (p ++ lit "://" ++ rest) [])
    as [parsed|] eqn:E; [|done].
  destruct (urlparse_shape p rest parsed Hp E) as (Hs & Hshape & Hsemi).
  cbn [mbind option_bind]. split; [done|].
  destruct parsed as [s n pa params q f].
  cbn [Urllib.scheme Urllib.netloc Urllib.path Urllib.query] in *.
  subst s. rewrite reassemble_parts. unfold spoils_second_pass.
  cbn [Urllib.path Urllib.query].
  apply (second_pass p n pa q Hp Hshape Hsemi).
Qed.

(** The theorem at an absolute URL with capitals, a parameter in an
    inner segment, a query and trailing slashes. *)
Lemma normalize_url_idempotent_iff_witness :
  normalize_url (lit "https://Example.com/Course;v=1/Week-1/?Page=2//")
                (lit "http://base.example/dir/")
    = Some (lit "https://example.com/course;v=1/week-1/?page=2") ∧
  normalize_twice (lit "https://Example.com/Course;v=1/Week-1/?Page=2//")
    = normalize_url (lit "https://Example.com/Course;v=1/Week-1/?Page=2//")
                    (lit "http://base.example/dir/").
Proof.
  destruct (normalize_url_idempotent_iff
              (lit "https://Example.com/Course;v=1/Week-1/?Page=2//")
              (lit "http://base.example/dir/") eq_refl) as [_ Hidem].
  destruct (Urllib.urlparse
              (lit "https://Example.com/Course;v=1/Week-1/?Page=2//") [])
    as [parsed|] eqn:E; [|by vm_compute in E].
  destruct Hidem as [Hnorm Hidem].
  vm_compute in E. injection E as <-. split.
  - rewrite Hnorm. reflexivity.
  - apply Hidem. reflexivity.
Defined.


(** C9 as stated fails: a query made of a slash leaves a question mark
    that the second pass removes. *)
Lemma normalize_url_not_idempotent :
  normalize_url (lit "http://h/a?/") [] = Some (lit "http://h/a?") ∧
  normalize_twice (lit "http://h/a?/") = Some (lit "http://h/a") ∧
  normalize_twice (lit "http://h/a?/")
    ≠ normalize_url (lit "http://h/a?/") (lit "http://base/").
Proof.
  split; [by vm_compute|]. split; [by vm_compute|].
  vm_compute. discriminate.
Qed.

(** The other way a second pass is spoiled: stripping the slash of the
    path brings a parameter into its last segment. *)
Lemma normalize_url_exposed_parameter :
  normalize_url (lit "http://h/a;b/") [] = Some (lit "http://h/a;b") ∧
  normalize_twice (lit "http://h/a;b/") = Some (lit "http://h/a").
Proof. split; by vm_compute. Qed.
